(** * Aether: a runtime module-composition engine

    A shallow embedding of [src/lib/aether.ts] (class [Aether]) and of the
    runtime types it uses ([ProviderEntry], [UseEdge], [ModuleDefinition],
    [ModuleRuntimeContext]).

    Modelling conventions.
    - JavaScript objects that the code compares by reference (module
      definitions, runtime nodes, [Aether] instances) live in heaps, lists
      indexed by their address; a reference is the index.
    - Plain objects used as dictionaries ([Record<string, unknown>]) are
      association lists of their own properties, in the order in which
      [Object.entries] lists them: array indices first, in ascending
      order, then the other names in insertion order.  The operator [in]
      also sees the names inherited from [Object.prototype].
    - Assigning to the name [__proto__] of such a dictionary runs the
      setter inherited from [Object.prototype]: a primitive value is
      ignored, an object or [null] replaces the prototype of the
      dictionary.  What the dictionary then inherits depends on that
      object; the model does not follow a run past such a replacement,
      and gives it the outcome [Unmodelled], about which nothing is
      stated.
    - Functions supplied by the user (factories, lifecycle callbacks) are
      function values [VFun f]; what a call does is given by the section
      variables [call] and [await], acting on an abstract world [W] that
      holds every mutable object the user's values refer to.  A call
      either returns or throws, and may change the world in both cases.
      User functions act on the world only: they do not assign to the
      context object they are handed, and do not call back into the
      instances being started or stopped.
    - [start] and [stop] are sequential: each awaited callback runs to
      completion before the next statement.  No other code is interleaved
      at the suspension points.
    - The two recursive traversals ([#buildTree], the [visit] closure of
      [#lifecycleOrder]) take a fuel argument; running out of fuel is the
      result [None]. *)

From Stdlib Require Import String Ascii NArith ZArith Lia Bool List ssreflect.
From stdpp Require Import base tactics option list.
Import ListNotations.
Local Open Scope string_scope.
Local Open Scope list_scope.
Set Warnings "-register-all,-rewrite-rw".

(* ====================================================================== *)
(** ** JavaScript values and dictionaries *)
(* ====================================================================== *)

Inductive Value : Type :=
| VUndefined
| VNull
| VBool (b : bool)
| VNum (n : Z)
| VStr (s : string)
| VFun (f : nat)                        (* a function; [typeof] is "function" *)
| VRef (l : nat)                        (* an opaque mutable object of the world (a Map, a class instance) *)
| VObj (props : list (string * Value)). (* a plain object, by its own enumerable properties *)

Definition Obj := list (string * Value).

Definition is_function (v : Value) : bool :=
  match v with VFun _ => true | _ => false end.

Definition is_string (v : Value) : bool :=
  match v with VStr _ => true | _ => false end.

(** JavaScript truthiness, as used by [!x] and [x && ...]. *)
Definition truthy (v : Value) : bool :=
  match v with
  | VUndefined | VNull => false
  | VBool b => b
  | VNum n => negb (n =? 0)%Z
  | VStr s => negb (String.eqb s "")
  | VFun _ | VRef _ | VObj _ => true
  end.

Definition typeof_object (v : Value) : bool :=
  match v with VNull | VRef _ | VObj _ => true | _ => false end.

(** Own properties: [Object.hasOwn(o, k)] and the own value of [k]. *)
Fixpoint obj_get (k : string) (o : Obj) : option Value :=
  match o with
  | [] => None
  | (k', v) :: o' => if String.eqb k k' then Some v else obj_get k o'
  end.

Definition has (k : string) (o : Obj) : bool :=
  match obj_get k o with Some _ => true | None => false end.

(** Array indices: the canonical decimal numerals below [2^32 - 1].
    [Object.entries] lists them before every other name. *)
Definition digit (c : ascii) : option N :=
  let n := N_of_ascii c in
  if (48 <=? n)%N && (n <=? 57)%N then Some (n - 48)%N else None.

Fixpoint digits (s : string) (acc : N) : option N :=
  match s with
  | EmptyString => Some acc
  | String c s' =>
      match digit c with
      | Some d => digits s' (acc * 10 + d)%N
      | None => None
      end
  end.

Definition array_index (k : string) : option N :=
  match k with
  | EmptyString => None
  | String c s' =>
      if Ascii.eqb c "0"%char && negb (String.eqb s' "") then None
      else
        match digits k 0 with
        | Some n => if (n <? 4294967295)%N then Some n else None
        | None => None
        end
  end.

(** Changing the value of an own property: it keeps its position. *)
Fixpoint obj_update (k : string) (v : Value) (o : Obj) : Obj :=
  match o with
  | [] => []
  | (k', v') :: o' =>
      if String.eqb k k' then (k, v) :: o' else (k', v') :: obj_update k v o'
  end.

(** Where a new array index goes: before the first name that is not a
    smaller array index. *)
Fixpoint obj_insert_index (n : N) (k : string) (v : Value) (o : Obj) : Obj :=
  match o with
  | [] => [(k, v)]
  | (k', v') :: o' =>
      match array_index k' with
      | Some n' =>
          if (n' <? n)%N then (k', v') :: obj_insert_index n k v o'
          else (k, v) :: o
      | None => (k, v) :: o
      end
  end.

(** Defining the own data property [k] of [o]. *)
Definition obj_set (k : string) (v : Value) (o : Obj) : Obj :=
  if has k o then obj_update k v o
  else
    match array_index k with
    | Some n => obj_insert_index n k v o
    | None => o ++ [(k, v)]
    end.

(** [delete o[k]]. *)
Fixpoint obj_delete (k : string) (o : Obj) : Obj :=
  match o with
  | [] => []
  | (k', v') :: o' =>
      if String.eqb k k' then obj_delete k o' else (k', v') :: obj_delete k o'
  end.

(** The property names every plain object inherits from [Object.prototype]. *)
Definition Object_prototype_names : list string :=
  [ "constructor"; "hasOwnProperty"; "isPrototypeOf"; "propertyIsEnumerable";
    "toLocaleString"; "toString"; "valueOf"; "__proto__";
    "__defineGetter__"; "__defineSetter__"; "__lookupGetter__"; "__lookupSetter__" ].

Definition inherited (k : string) : bool :=
  existsb (String.eqb k) Object_prototype_names.

(** [k in o] for an object created by a literal. *)
Definition obj_in (k : string) (o : Obj) : bool :=
  inherited k || has k o.

(** The values the setter of [__proto__] takes as a prototype. *)
Definition is_object_or_null (v : Value) : bool :=
  match v with
  | VNull | VFun _ | VRef _ | VObj _ => true
  | VUndefined | VBool _ | VNum _ | VStr _ => false
  end.

(** [o[k] = v] on a dictionary whose prototype is [Object.prototype].  An
    own property is updated; a new name becomes an own property, except
    [__proto__], which reaches the inherited setter: [None] when the
    setter replaces the prototype. *)
Definition obj_assign (k : string) (v : Value) (o : Obj) : option Obj :=
  if has k o then Some (obj_set k v o)
  else if String.eqb k "__proto__" then
    if is_object_or_null v then None else Some o
  else Some (obj_set k v o).

(** [Object.assign(target, src)]: one assignment for each own property
    of [src]. *)
Fixpoint Object_assign (target src : Obj) : option Obj :=
  match src with
  | [] => Some target
  | (k, v) :: src' =>
      match obj_assign k v target with
      | None => None
      | Some target' => Object_assign target' src'
      end
  end.

(** [Object.entries(v)] for a truthy value of type "object". *)
Definition Object_entries (v : Value) : list (string * Value) :=
  match v with VObj props => props | _ => [] end.

(* ====================================================================== *)
(** ** Runtime types ([types.ts], section "Module Definition (Runtime)") *)
(* ====================================================================== *)

Inductive ProviderKind := decorator | store.
Inductive LifeCycleType := global | scoped | local.
Inductive ContextAppendType := append | override.

Definition kind_eqb (a b : ProviderKind) : bool :=
  match a, b with
  | decorator, decorator | store, store => true
  | _, _ => false
  end.

Definition kind_name (k : ProviderKind) : string :=
  match k with decorator => "decorator" | store => "store" end.

Definition PROVIDER_KINDS : list ProviderKind := [decorator; store].

Definition RESERVED_KEYS (k : ProviderKind) : string := kind_name k.

(** Symbols: the registry symbol [Symbol.for("aether:use:global")], the
    symbols the library creates with [Symbol(...)], and symbols created by
    the caller. *)
Inductive Sym := SymGlobal | SymFresh (n : nat) | SymUser (n : nat).

(** [string | symbol]. *)
Inductive ScopeId := IdStr (s : string) | IdSym (y : Sym).

Definition sym_eqb (a b : Sym) : bool :=
  match a, b with
  | SymGlobal, SymGlobal => true
  | SymFresh n, SymFresh m => Nat.eqb n m
  | SymUser n, SymUser m => Nat.eqb n m
  | _, _ => false
  end.

Definition scope_eqb (a b : ScopeId) : bool :=
  match a, b with
  | IdStr s, IdStr t => String.eqb s t
  | IdSym y, IdSym z => sym_eqb y z
  | _, _ => false
  end.

Definition GLOBAL_SCOPE : ScopeId := IdSym SymGlobal.

Definition DefRef := nat.   (* address of a ModuleDefinition *)
Definition NodeRef := nat.  (* address of a ModuleRuntimeContext *)
Definition InstRef := nat.  (* address of an Aether instance *)

Record ProviderEntry := {
  kind : ProviderKind;
  key : string;
  value : Value;
  export : bool;
  transitive : option bool;
  isFactory : option bool;
  mode : option ContextAppendType;
}.

Record UseEdge := {
  edge_name : string;
  edge_def : DefRef;
  edge_scopeId : option ScopeId;
  edge_transitive : option bool;
}.

Record ModuleDefinition := {
  providers : list ProviderEntry;
  loadCallbacks : list nat;
  unloadCallbacks : list nat;
  uses : list UseEdge;
}.

Record ProviderOrigin := {
  origin_kind : ProviderKind;
  origin_key : string;
  moduleName : string;
  isExported : bool;
}.

(** [Record<ProviderKind, Record<string, unknown>>]. *)
Record ProviderMaps := {
  of_decorator : Obj;
  of_store : Obj;
}.

Definition pm_get (m : ProviderMaps) (k : ProviderKind) : Obj :=
  match k with decorator => of_decorator m | store => of_store m end.

Definition pm_put (m : ProviderMaps) (k : ProviderKind) (o : Obj) : ProviderMaps :=
  match k with
  | decorator => {| of_decorator := o; of_store := of_store m |}
  | store => {| of_decorator := of_decorator m; of_store := o |}
  end.

Definition pm_empty : ProviderMaps := {| of_decorator := []; of_store := [] |}.

Definition Origins := list (string * ProviderOrigin).

Fixpoint origins_get (k : string) (m : Origins) : option ProviderOrigin :=
  match m with
  | [] => None
  | (k', o) :: m' => if String.eqb k k' then Some o else origins_get k m'
  end.

Fixpoint origins_set (k : string) (o : ProviderOrigin) (m : Origins) : Origins :=
  match m with
  | [] => [(k, o)]
  | (k', o') :: m' =>
      if String.eqb k k' then (k, o) :: m' else (k', o') :: origins_set k o m'
  end.

Record ModuleRuntimeContext := {
  ctx_name : string;
  ctx_def : DefRef;
  initialized : bool;
  ctx_providers : ProviderMaps;
  exportedProviders : ProviderMaps;
  propagatedProviders : ProviderMaps;
  providerOrigins : Origins;
  callbackCtx : Value;
  children : list NodeRef;
}.

(** The private state of one [Aether] object. *)
Record Aether := {
  name : string;
  def : DefRef;
  extensionImpls : list (string * nat);
  runtimeTree : option NodeRef;
  running : bool;
}.

Definition emptyDef : ModuleDefinition :=
  {| providers := []; loadCallbacks := []; unloadCallbacks := []; uses := [] |}.

Definition copyDef (d : ModuleDefinition) : ModuleDefinition :=
  {| providers := providers d;
     loadCallbacks := loadCallbacks d;
     unloadCallbacks := unloadCallbacks d;
     uses := uses d |}.

(* ====================================================================== *)
(** ** Errors *)
(* ====================================================================== *)

(** One constructor per [throw] of the source; [Thrown] is an exception
    raised by user code (a factory or a lifecycle callback). *)
Inductive Error : Type :=
| ReservedKey (k : ProviderKind) (key : string)
| AlreadyDefined (k : ProviderKind) (key : string)
| OwnCollision (k : ProviderKind) (key : string) (from : option string)
| ImportCollision (k : ProviderKind) (key : string) (from : option string)
| NotStarted (module : string)
| ProvideRequiresOptions
| InvalidArguments
| ExtendRequiresFunction
| ExtensionCollision (ext current plugin : string)
| PluginMustReturnAether
| InvalidPluginType
| Untyped            (* a call the TypeScript signatures reject; not modelled *)
| Thrown (v : Value).

Inductive ErrorClass :=
| ConfigurationError | CollisionError | PluginTypeError | NotRunningError
| UserError | OutsideTypes.

Definition classify (e : Error) : ErrorClass :=
  match e with
  | ReservedKey _ _ | ProvideRequiresOptions | InvalidArguments
  | ExtendRequiresFunction => ConfigurationError
  | AlreadyDefined _ _ | OwnCollision _ _ _ | ImportCollision _ _ _
  | ExtensionCollision _ _ _ => CollisionError
  | PluginMustReturnAether | InvalidPluginType => PluginTypeError
  | NotStarted _ => NotRunningError
  | Untyped => OutsideTypes
  | Thrown _ => UserError
  end.

(** How a call ends: it returns, it throws, or the run has left what the
    model covers. *)
Inductive Result (A : Type) : Type :=
| Ok (a : A)
| Throw (e : Error)
| Unmodelled.
Arguments Ok {A} a.
Arguments Throw {A} e.
Arguments Unmodelled {A}.


(** Entries of the journal: which user functions ran, in order.  The
    journal is ghost state; no operation reads it. *)
Inductive Event :=
| EvFactory (module : string) (k : ProviderKind) (key : string) (f : nat)
| EvLoad (node : NodeRef) (cb : nat)
| EvUnload (node : NodeRef) (cb : nat).

#[global] Instance ModuleDefinition_inhabited : Inhabited ModuleDefinition :=
  populate emptyDef.

#[global] Instance Aether_inhabited : Inhabited Aether :=
  populate {| name := ""; def := 0; extensionImpls := [];
              runtimeTree := None; running := false |}.

#[global] Instance ModuleRuntimeContext_inhabited : Inhabited ModuleRuntimeContext :=
  populate {| ctx_name := ""; ctx_def := 0; initialized := false;
              ctx_providers := pm_empty; exportedProviders := pm_empty;
              propagatedProviders := pm_empty; providerOrigins := [];
              callbackCtx := VNull; children := [] |}.

(* ====================================================================== *)
(** ** The machine: heaps, world, and the builder *)
(* ====================================================================== *)

Section Engine.

(** The world the user's functions act on. *)
Variable W : Type.

(** [call f arg w]: calling the function [f] with one argument.  The
    first component is the returned value or the thrown exception. *)
Variable call : nat -> Value -> W -> Result Value * W.

(** [await v w]: awaiting the value [v]; a rejected promise throws. *)
Variable await : Value -> W -> Result Value * W.

Record Machine := {
  defs : list ModuleDefinition;         (* heap of module definitions *)
  insts : list Aether;                  (* heap of Aether instances *)
  nodes : list ModuleRuntimeContext;    (* heap of runtime nodes *)
  symbols : nat;                        (* how many symbols [Symbol(...)] made *)
  world : W;
  journal : list Event;
}.

Definition set_defs (m : Machine) (x : list ModuleDefinition) : Machine :=
  {| defs := x; insts := insts m; nodes := nodes m; symbols := symbols m;
     world := world m; journal := journal m |}.
Definition set_insts (m : Machine) (x : list Aether) : Machine :=
  {| defs := defs m; insts := x; nodes := nodes m; symbols := symbols m;
     world := world m; journal := journal m |}.
Definition set_nodes (m : Machine) (x : list ModuleRuntimeContext) : Machine :=
  {| defs := defs m; insts := insts m; nodes := x; symbols := symbols m;
     world := world m; journal := journal m |}.
Definition set_symbols (m : Machine) (x : nat) : Machine :=
  {| defs := defs m; insts := insts m; nodes := nodes m; symbols := x;
     world := world m; journal := journal m |}.
Definition set_world (m : Machine) (x : W) : Machine :=
  {| defs := defs m; insts := insts m; nodes := nodes m; symbols := symbols m;
     world := x; journal := journal m |}.
Definition set_journal (m : Machine) (x : list Event) : Machine :=
  {| defs := defs m; insts := insts m; nodes := nodes m; symbols := symbols m;
     world := world m; journal := x |}.

Definition boot (w : W) : Machine :=
  {| defs := []; insts := []; nodes := []; symbols := 0; world := w;
     journal := [] |}.

(** [new Aether(name, def, extensions)]: the object is allocated with
    [#running = false] and [#runtimeTree = null]. *)
Definition new_Aether (nm : string) (d : DefRef) (ext : list (string * nat))
    (m : Machine) : InstRef * Machine :=
  (length (insts m),
   set_insts m (insts m ++ [{| name := nm; def := d; extensionImpls := ext;
                               runtimeTree := None; running := false |}])).

(** [new Aether(name)]: [def ?? Aether.#emptyDef()]. *)
Definition new_module (nm : string) (m : Machine) : InstRef * Machine :=
  new_Aether nm (length (defs m)) [] (set_defs m (defs m ++ [emptyDef])).

(** *** Argument parsing *)

Record ResolvedConfig := {
  cfg_kind : ProviderKind;
  cfg_scope : LifeCycleType;
  cfg_mode : ContextAppendType;
}.

Record ParsedArgs := {
  entries : list (string * Value);
  config : ResolvedConfig;
  isObjectForm : bool;
}.

Definition isOpts (arg : Value) : bool :=
  match arg with
  | VObj o =>
      match obj_get "scope" o with Some v => is_string v | None => false end
      || match obj_get "kind" o with Some v => is_string v | None => false end
  | _ => false
  end.

(** Reading a field of the options object at its TypeScript type;
    [x ?? d] takes [d] for [undefined] and [null]. *)
Definition opt_kind (o : Obj) (d : ProviderKind) : option ProviderKind :=
  match obj_get "kind" o with
  | None | Some VUndefined | Some VNull => Some d
  | Some (VStr s) =>
      if String.eqb s "decorator" then Some decorator
      else if String.eqb s "store" then Some store else None
  | Some _ => None
  end.

Definition opt_scope (o : Obj) : option LifeCycleType :=
  match obj_get "scope" o with
  | None | Some VUndefined | Some VNull => Some local
  | Some (VStr s) =>
      if String.eqb s "local" then Some local
      else if String.eqb s "scoped" then Some scoped
      else if String.eqb s "global" then Some global else None
  | Some _ => None
  end.

Definition opt_mode (o : Obj) : option ContextAppendType :=
  match obj_get "mode" o with
  | None | Some VUndefined | Some VNull => Some append
  | Some (VStr s) =>
      if String.eqb s "append" then Some append
      else if String.eqb s "override" then Some override else None
  | Some _ => None
  end.

(** [defaultKind] is [None] for ["provide"]. *)
Definition parseArgs (args : list Value) (defaultKind : option ProviderKind)
    : Result ParsedArgs :=
  let last := List.last args VUndefined in
  let hasOpts := isOpts last in
  match defaultKind, hasOpts with
  | None, false => Throw ProvideRequiresOptions
  | _, _ =>
      let opts : Obj := if hasOpts then Object_entries last else [] in
      let dk := match defaultKind with None => decorator | Some k => k end in
      match opt_kind opts dk, opt_scope opts, opt_mode opts with
      | Some k, Some s, Some md =>
          let config := {| cfg_kind := k; cfg_scope := s; cfg_mode := md |} in
          let argsWithoutOpts := if hasOpts then removelast args else args in
          match argsWithoutOpts with
          | VStr k0 :: rest =>
              Ok {| entries := [(k0, List.hd VUndefined rest)];
                    config := config; isObjectForm := false |}
          | a0 :: _ =>
              if truthy a0 && typeof_object a0
              then Ok {| entries := Object_entries a0;
                         config := config; isObjectForm := true |}
              else Throw InvalidArguments
          | [] => Throw InvalidArguments
          end
      | _, _, _ => Throw Untyped
      end
  end.

(** *** Provider management *)

(** [this_def] is [this.#def], the definition of the receiver; [d] is the
    copy being filled. *)
Definition pushEntry (this_def d : ModuleDefinition) (k : string) (v : Value)
    (cfg : ResolvedConfig) (forceStatic : bool) : Result ModuleDefinition :=
  if String.eqb k (RESERVED_KEYS (cfg_kind cfg)) then
    Throw (ReservedKey (cfg_kind cfg) k)
  else if match cfg_mode cfg with append => true | override => false end
          && existsb (fun p => kind_eqb (kind p) (cfg_kind cfg) && String.eqb (key p) k)
                     (providers this_def) then
    Throw (AlreadyDefined (cfg_kind cfg) k)
  else
    let isExport := match cfg_scope cfg with local => false | _ => true end in
    let isTransitive := match cfg_scope cfg with global => true | _ => false end in
    Ok {| providers := providers d ++
            [{| kind := cfg_kind cfg; key := k; value := v;
                export := isExport;
                transitive := Some isTransitive;
                isFactory := Some (if forceStatic then false else is_function v);
                mode := Some (cfg_mode cfg) |}];
          loadCallbacks := loadCallbacks d;
          unloadCallbacks := unloadCallbacks d;
          uses := uses d |}.

(** [#next(mutate)]: copy the receiver's definition, let [mutate] fill
    the copy, wrap it in a new instance.  When [mutate] throws, nothing
    that was allocated is reachable. *)
Definition next (this : InstRef)
    (mutate : ModuleDefinition -> ModuleDefinition -> Result ModuleDefinition)
    (m : Machine) : Result (InstRef * Machine) :=
  let a := insts m !!! this in
  let this_def := defs m !!! def a in
  match mutate this_def (copyDef this_def) with
  | Throw e => Throw e
  | Unmodelled => Unmodelled
  | Ok nextDef =>
      Ok (new_Aether (name a) (length (defs m)) (extensionImpls a)
                     (set_defs m (defs m ++ [nextDef])))
  end.

Fixpoint pushEntries (this_def d : ModuleDefinition) (es : list (string * Value))
    (cfg : ResolvedConfig) (forceStatic : bool) : Result ModuleDefinition :=
  match es with
  | [] => Ok d
  | (k, v) :: es' =>
      match pushEntry this_def d k v cfg forceStatic with
      | Throw e => Throw e
      | Unmodelled => Unmodelled
      | Ok d' => pushEntries this_def d' es' cfg forceStatic
      end
  end.

Definition addProviders (this : InstRef) (parsed : ParsedArgs) (m : Machine)
    : Result (InstRef * Machine) :=
  next this
       (fun this_def d =>
          pushEntries this_def d (entries parsed) (config parsed) (isObjectForm parsed))
       m.

Definition with_args (this : InstRef) (args : list Value)
    (defaultKind : option ProviderKind) (m : Machine) : Result (InstRef * Machine) :=
  match parseArgs args defaultKind with
  | Throw e => Throw e
  | Unmodelled => Unmodelled
  | Ok parsed => addProviders this parsed m
  end.

Definition provide (this : InstRef) (args : list Value) :=
  with_args this args None.
Definition decorate (this : InstRef) (args : list Value) :=
  with_args this args (Some decorator).
Definition state (this : InstRef) (args : list Value) :=
  with_args this args (Some store).

Definition onLoad (this : InstRef) (callback : nat) (m : Machine)
    : Result (InstRef * Machine) :=
  next this
       (fun _ d => Ok {| providers := providers d;
                         loadCallbacks := loadCallbacks d ++ [callback];
                         unloadCallbacks := unloadCallbacks d;
                         uses := uses d |})
       m.

Definition onUnload (this : InstRef) (callback : nat) (m : Machine)
    : Result (InstRef * Machine) :=
  next this
       (fun _ d => Ok {| providers := providers d;
                         loadCallbacks := loadCallbacks d;
                         unloadCallbacks := unloadCallbacks d ++ [callback];
                         uses := uses d |})
       m.

(** *** Extensions *)

Fixpoint ext_has (nm : string) (e : list (string * nat)) : bool :=
  match e with
  | [] => false
  | (n', _) :: e' => String.eqb nm n' || ext_has nm e'
  end.

Fixpoint ext_set (nm : string) (f : nat) (e : list (string * nat)) : list (string * nat) :=
  match e with
  | [] => [(nm, f)]
  | (n', f') :: e' =>
      if String.eqb nm n' then (nm, f) :: e' else (n', f') :: ext_set nm f e'
  end.

(** [extend(name, fn)]; [fn] is [None] when the second argument is missing. *)
Definition extend (this : InstRef) (nm : string) (fn : option nat) (m : Machine)
    : Result (InstRef * Machine) :=
  let a := insts m !!! this in
  match fn with
  | None => Throw ExtendRequiresFunction
  | Some f => Ok (new_Aether (name a) (def a) (ext_set nm f (extensionImpls a)) m)
  end.

(** [extend(mapping)]. *)
Definition extend_all (this : InstRef) (fns : list (string * nat)) (m : Machine)
    : Result (InstRef * Machine) :=
  let a := insts m !!! this in
  Ok (new_Aether (name a) (def a)
        (fold_left (fun e nf => ext_set (fst nf) (snd nf) e) fns (extensionImpls a)) m).

(** *** Composition *)

Inductive UseAs := as_global | as_scoped.

Record UseOptions := {
  use_scope : option ScopeId;
  use_as : option UseAs;
}.

Definition no_options : UseOptions := {| use_scope := None; use_as := None |}.

(** What [use] can be given: a falsy value, an array, a transform
    function, a module instance, anything else. *)
Inductive Plugin : Type :=
| PluginFalsy
| PluginArray (ps : list Plugin)
| PluginFn (f : InstRef -> Machine -> Result (option InstRef * Machine))
| PluginAether (i : InstRef)
| PluginOther.

Definition useScopeId (scope : option ScopeId) (m : Machine) : ScopeId * Machine :=
  match scope with
  | None => (GLOBAL_SCOPE, m)
  | Some (IdStr s) =>
      if String.eqb s "" || String.eqb s "global" then (GLOBAL_SCOPE, m)
      else if String.eqb s "local"
      then (IdSym (SymFresh (symbols m)), set_symbols m (S (symbols m)))
      else (IdStr s, m)
  | Some (IdSym y) => (IdSym y, m)
  end.

Definition same_scope (a : option ScopeId) (b : ScopeId) : bool :=
  match a with Some x => scope_eqb x b | None => false end.

Fixpoint merge_extensions (cur plug : string) (merged pluginExts : list (string * nat))
    : Result (list (string * nat)) :=
  match pluginExts with
  | [] => Ok merged
  | (nm, impl) :: rest =>
      if ext_has nm merged then Throw (ExtensionCollision nm cur plug)
      else merge_extensions cur plug (ext_set nm impl merged) rest
  end.

Definition use_module (this plugin : InstRef) (options : UseOptions) (m : Machine)
    : Result (InstRef * Machine) :=
  let a := insts m !!! this in
  let p := insts m !!! plugin in
  let pluginDef := def p in
  let (scopeId, m1) := useScopeId (use_scope options) m in
  let this_def := defs m1 !!! def a in
  if existsb (fun u => Nat.eqb (edge_def u) pluginDef && same_scope (edge_scopeId u) scopeId)
             (uses this_def)
  then Ok (this, m1)
  else
    let d := copyDef this_def in
    let nextDef :=
      {| providers := providers d;
         loadCallbacks := loadCallbacks d;
         unloadCallbacks := unloadCallbacks d;
         uses := uses d ++
           [{| edge_name := name p; edge_def := pluginDef;
               edge_scopeId := Some scopeId;
               edge_transitive :=
                 Some (match use_as options with Some as_scoped => false | _ => true end) |}] |} in
    match merge_extensions (name a) (name p) (extensionImpls a) (extensionImpls p) with
    | Throw e => Throw e
    | Unmodelled => Unmodelled
    | Ok merged =>
        Ok (new_Aether (name a) (length (defs m1)) merged
                       (set_defs m1 (defs m1 ++ [nextDef])))
    end.

Fixpoint use (plugin : Plugin) (options : UseOptions) (this : InstRef) (m : Machine)
    {struct plugin} : Result (InstRef * Machine) :=
  match plugin with
  | PluginFalsy => Ok (this, m)
  | PluginArray ps =>
      (fix each (ps : list Plugin) (app : InstRef) (m : Machine)
           : Result (InstRef * Machine) :=
         match ps with
         | [] => Ok (app, m)
         | p :: ps' =>
             match use p options app m with
             | Throw e => Throw e
             | Unmodelled => Unmodelled
             | Ok (app', m') => each ps' app' m'
             end
         end) ps this m
  | PluginFn f =>
      match f this m with
      | Throw e => Throw e
      | Unmodelled => Unmodelled
      | Ok (Some r, m') => Ok (r, m')
      | Ok (None, _) => Throw PluginMustReturnAether
      end
  | PluginAether i => use_module this i options m
  | PluginOther => Throw InvalidPluginType
  end.

(* ====================================================================== *)
(** ** Provider resolution *)
(* ====================================================================== *)

(** The four tables of a node that [#initModule] fills. *)
Record Tables := {
  t_local : ProviderMaps;
  t_exported : ProviderMaps;
  t_propagated : ProviderMaps;
  t_origins : Origins;
}.

Definition originKey (k : ProviderKind) (key : string) : string :=
  (kind_name k ++ ":" ++ key)%string.

(** [{ ...decorators, decorator: decorators, store: stores }]. *)
Definition merged_context (p : ProviderMaps) : Value :=
  VObj (obj_set "store" (VObj (of_store p))
         (obj_set "decorator" (VObj (of_decorator p)) (of_decorator p))).

Definition is_true (b : option bool) : bool :=
  match b with Some true => true | _ => false end.

Definition mode_of (e : ProviderEntry) : ContextAppendType :=
  match mode e with Some md => md | None => append end.

(** The three assignments that end [#applyEntry]; [None] when one of
    them replaces a prototype. *)
Definition storeEntry (entry : ProviderEntry) (resolved : Value)
    (local0 exported0 propagated0 : ProviderMaps)
    : option (ProviderMaps * ProviderMaps * ProviderMaps) :=
  let k := kind entry in
  let ky := key entry in
  match obj_assign ky resolved (pm_get local0 k) with
  | None => None
  | Some l =>
      if export entry then
        match obj_assign ky resolved (pm_get exported0 k) with
        | None => None
        | Some x =>
            if is_true (transitive entry) then
              match obj_assign ky resolved (pm_get propagated0 k) with
              | None => None
              | Some p =>
                  Some (pm_put local0 k l, pm_put exported0 k x, pm_put propagated0 k p)
              end
            else Some (pm_put local0 k l, pm_put exported0 k x, propagated0)
        end
      else Some (pm_put local0 k l, exported0, propagated0)
  end.

Definition applyEntry (entry : ProviderEntry) (module : string) (t : Tables)
    (m : Machine) : Result Tables * Machine :=
  let k := kind entry in
  let ky := key entry in
  let md := mode_of entry in
  if match md with append => true | override => false end
     && obj_in ky (pm_get (t_local t) k)
  then (Throw (OwnCollision k ky
                 (option_map moduleName (origins_get (originKey k ky) (t_origins t)))), m)
  else
    let factoryCtx :=
      match k with
      | decorator => merged_context (t_local t)
      | store => VObj (pm_get (t_local t) k)
      end in
    let called : Result Value * Machine :=
      if is_true (isFactory entry) then
        match value entry with
        | VFun f =>
            let (r, w') := call f factoryCtx (world m) in
            (r, set_journal (set_world m w')
                            (journal m ++ [EvFactory module k ky f]))
        | _ => (Throw Untyped, m)
        end
      else (Ok (value entry), m) in
    match called with
    | (Throw e, m') => (Throw e, m')
    | (Unmodelled, m') => (Unmodelled, m')
    | (Ok resolved, m') =>
        let exported0 :=
          match md with
          | override => pm_put (t_exported t) k (obj_delete ky (pm_get (t_exported t) k))
          | append => t_exported t
          end in
        let propagated0 :=
          match md with
          | override => pm_put (t_propagated t) k (obj_delete ky (pm_get (t_propagated t) k))
          | append => t_propagated t
          end in
        match storeEntry entry resolved (t_local t) exported0 propagated0 with
        | None => (Unmodelled, m')
        | Some (local1, exported1, propagated1) =>
            (Ok {| t_local := local1; t_exported := exported1;
                   t_propagated := propagated1;
                   t_origins :=
                     origins_set (originKey k ky)
                       {| origin_kind := k; origin_key := ky; moduleName := module;
                          isExported := export entry |} (t_origins t) |}, m')
        end
    end.

Fixpoint applyEntries (es : list ProviderEntry) (module : string) (t : Tables)
    (m : Machine) : Result Tables * Machine :=
  match es with
  | [] => (Ok t, m)
  | e :: es' =>
      match applyEntry e module t m with
      | (Throw err, m') => (Throw err, m')
      | (Unmodelled, m') => (Unmodelled, m')
      | (Ok t', m') => applyEntries es' module t' m'
      end
  end.

(** The loop over [Object.entries(child.exportedProviders[kind])]. *)
Fixpoint importEntries (k : ProviderKind) (childName : string)
    (es : list (string * Value)) (t : Tables) : Result Tables :=
  match es with
  | [] => Ok t
  | (ky, v) :: es' =>
      if obj_in ky (pm_get (t_local t) k)
      then Throw (ImportCollision k ky
                    (option_map moduleName (origins_get (originKey k ky) (t_origins t))))
      else
        match obj_assign ky v (pm_get (t_local t) k) with
        | None => Unmodelled
        | Some l =>
            importEntries k childName es'
              {| t_local := pm_put (t_local t) k l;
                 t_exported := t_exported t;
                 t_propagated := t_propagated t;
                 t_origins :=
                   origins_set (originKey k ky)
                     {| origin_kind := k; origin_key := ky; moduleName := childName;
                        isExported := true |} (t_origins t) |}
        end
  end.

(** The two [Object.assign] of one kind. *)
Definition propagateKind (child : ModuleRuntimeContext) (t : Tables) (k : ProviderKind)
    : option Tables :=
  match Object_assign (pm_get (t_exported t) k) (pm_get (propagatedProviders child) k) with
  | None => None
  | Some x =>
      match Object_assign (pm_get (t_propagated t) k)
              (pm_get (propagatedProviders child) k) with
      | None => None
      | Some p =>
          Some {| t_local := t_local t;
                  t_exported := pm_put (t_exported t) k x;
                  t_propagated := pm_put (t_propagated t) k p;
                  t_origins := t_origins t |}
      end
  end.

Fixpoint propagateKinds (child : ModuleRuntimeContext) (ks : list ProviderKind)
    (t : Tables) : option Tables :=
  match ks with
  | [] => Some t
  | k :: ks' =>
      match propagateKind child t k with
      | None => None
      | Some t' => propagateKinds child ks' t'
      end
  end.

(** One iteration of the loop over the children. *)
Definition importChild (child : ModuleRuntimeContext) (edge : UseEdge) (t : Tables)
    : Result Tables :=
  match importEntries decorator (ctx_name child)
          (pm_get (exportedProviders child) decorator) t with
  | Throw e => Throw e
  | Unmodelled => Unmodelled
  | Ok t1 =>
      match importEntries store (ctx_name child)
              (pm_get (exportedProviders child) store) t1 with
      | Throw e => Throw e
      | Unmodelled => Unmodelled
      | Ok t2 =>
          match edge_transitive edge with
          | Some false => Ok t2
          | _ =>
              match propagateKinds child PROVIDER_KINDS t2 with
              | Some t3 => Ok t3
              | None => Unmodelled
              end
          end
      end
  end.

(** [children[i]] with [def.uses[i]]; an index without an edge is skipped. *)
Fixpoint importChildren (heap : list ModuleRuntimeContext) (cs : list NodeRef)
    (es : list UseEdge) (t : Tables) : Result Tables :=
  match cs, es with
  | c :: cs', e :: es' =>
      match importChild (heap !!! c) e t with
      | Throw err => Throw err
      | Unmodelled => Unmodelled
      | Ok t' => importChildren heap cs' es' t'
      end
  | _, _ => Ok t
  end.

(** [#initModule].  The node's tables are written back when the
    function returns; a node whose initialisation throws is dropped with
    the whole tree by [start]. *)
Definition initModule (n : NodeRef) (m : Machine) : Result unit * Machine :=
  let ctx := nodes m !!! n in
  if initialized ctx then (Ok tt, m)
  else
    let d := defs m !!! ctx_def ctx in
    let t0 := {| t_local := ctx_providers ctx;
                 t_exported := exportedProviders ctx;
                 t_propagated := propagatedProviders ctx;
                 t_origins := providerOrigins ctx |} in
    match importChildren (nodes m) (children ctx) (uses d) t0 with
    | Throw e => (Throw e, m)
    | Unmodelled => (Unmodelled, m)
    | Ok t1 =>
        match applyEntries (providers d) (ctx_name ctx) t1 m with
        | (Throw e, m') => (Throw e, m')
        | (Unmodelled, m') => (Unmodelled, m')
        | (Ok t2, m') =>
            (Ok tt,
             set_nodes m'
               (<[n := {| ctx_name := ctx_name ctx;
                          ctx_def := ctx_def ctx;
                          initialized := true;
                          ctx_providers := t_local t2;
                          exportedProviders := t_exported t2;
                          propagatedProviders := t_propagated t2;
                          providerOrigins := t_origins t2;
                          callbackCtx := merged_context (t_local t2);
                          children := children ctx |}]> (nodes m')))
        end
    end.

(* ====================================================================== *)
(** ** The runtime tree *)
(* ====================================================================== *)

(** [WeakMap<ModuleDefinition, Map<string | symbol, ModuleRuntimeContext>>].
    The inner map of a definition is one shared object, so the two levels
    behave as one table keyed by the pair. *)
Definition Cache := list ((DefRef * ScopeId) * NodeRef).

Fixpoint cache_get (d : DefRef) (s : ScopeId) (c : Cache) : option NodeRef :=
  match c with
  | [] => None
  | ((d', s'), n) :: c' =>
      if Nat.eqb d d' && scope_eqb s s' then Some n else cache_get d s c'
  end.

Fixpoint cache_set (d : DefRef) (s : ScopeId) (n : NodeRef) (c : Cache) : Cache :=
  match c with
  | [] => [((d, s), n)]
  | ((d', s'), n') :: c' =>
      if Nat.eqb d d' && scope_eqb s s' then ((d, s), n) :: c'
      else ((d', s'), n') :: cache_set d s n c'
  end.

Definition fresh_node (nm : string) (d : DefRef) (cs : list NodeRef)
    : ModuleRuntimeContext :=
  {| ctx_name := nm; ctx_def := d; initialized := false;
     ctx_providers := pm_empty; exportedProviders := pm_empty;
     propagatedProviders := pm_empty; providerOrigins := [];
     callbackCtx := VNull; children := cs |}.

(** [xs.map(f)] where [f] threads a state and may run out of fuel. *)
Fixpoint map_st {A B S : Type} (f : A -> S -> option (B * S)) (xs : list A) (st : S)
    : option (list B * S) :=
  match xs with
  | [] => Some ([], st)
  | x :: xs' =>
      match f x st with
      | None => None
      | Some (y, st1) =>
          match map_st f xs' st1 with
          | None => None
          | Some (ys, st2) => Some (y :: ys, st2)
          end
      end
  end.

(** [for (const x of xs) f(x)] where [f] threads a state. *)
Fixpoint each_st {A S : Type} (f : A -> S -> option S) (xs : list A) (st : S)
    : option S :=
  match xs with
  | [] => Some st
  | x :: xs' =>
      match f x st with
      | None => None
      | Some st1 => each_st f xs' st1
      end
  end.

Definition edge_scope (u : UseEdge) : ScopeId :=
  match edge_scopeId u with Some s => s | None => GLOBAL_SCOPE end.

(** [#buildTree].  The state is the cache and the node heap; the new
    node is allocated, and entered in the cache, once its children are
    built. *)
Fixpoint buildTree (fuel : nat) (dh : list ModuleDefinition) (nm : string)
    (d : DefRef) (scopeId : ScopeId) (st : Cache * list ModuleRuntimeContext)
    : option (NodeRef * (Cache * list ModuleRuntimeContext)) :=
  match fuel with
  | O => None
  | S fuel' =>
      match cache_get d scopeId (fst st) with
      | Some existing => Some (existing, st)
      | None =>
          match map_st (fun u => buildTree fuel' dh (edge_name u) (edge_def u) (edge_scope u))
                       (uses (dh !!! d)) st with
          | None => None
          | Some (cs, (cache1, heap1)) =>
              Some (length heap1,
                    (cache_set d scopeId (length heap1) cache1,
                     heap1 ++ [fresh_node nm d cs]))
          end
      end
  end.

(** The [visit] closure of [#lifecycleOrder]; the state is the set
    [visited] and the array [order]. *)
Fixpoint visit (fuel : nat) (heap : list ModuleRuntimeContext) (node : NodeRef)
    (st : list NodeRef * list NodeRef) : option (list NodeRef * list NodeRef) :=
  match fuel with
  | O => None
  | S fuel' =>
      if existsb (Nat.eqb node) (fst st) then Some st
      else
        match each_st (visit fuel' heap) (children (heap !!! node))
                      (node :: fst st, snd st) with
        | None => None
        | Some (visited, order) => Some (visited, order ++ [node])
        end
  end.

Definition lifecycleOrder (fuel : nat) (heap : list ModuleRuntimeContext)
    (root : NodeRef) : option (list NodeRef) :=
  match visit fuel heap root ([], []) with
  | None => None
  | Some (_, order) => Some order
  end.

(* ====================================================================== *)
(** ** Lifecycle *)
(* ====================================================================== *)

Definition isRunning (this : InstRef) (m : Machine) : bool :=
  running (insts m !!! this).

Definition context (this : InstRef) (m : Machine) : Result Value :=
  let a := insts m !!! this in
  match running a, runtimeTree a with
  | true, Some tree => Ok (callbackCtx (nodes m !!! tree))
  | _, _ => Throw (NotStarted (name a))
  end.

(** Assigning the two private fields of [this]. *)
Definition set_lifecycle (this : InstRef) (tree : option NodeRef) (r : bool)
    (m : Machine) : Machine :=
  let a := insts m !!! this in
  set_insts m (<[this := {| name := name a; def := def a;
                            extensionImpls := extensionImpls a;
                            runtimeTree := tree; running := r |}]> (insts m)).

(** [await cb(ctx.callbackCtx)] for each callback of one node. *)
Fixpoint run_callbacks (ev : NodeRef -> nat -> Event) (node : NodeRef)
    (cbs : list nat) (m : Machine) : Result unit * Machine :=
  match cbs with
  | [] => (Ok tt, m)
  | cb :: cbs' =>
      let (r, w1) := call cb (callbackCtx (nodes m !!! node)) (world m) in
      let m1 := set_journal (set_world m w1) (journal m ++ [ev node cb]) in
      match r with
      | Throw e => (Throw e, m1)
      | Unmodelled => (Unmodelled, m1)
      | Ok v =>
          let (r2, w2) := await v (world m1) in
          let m2 := set_world m1 w2 in
          match r2 with
          | Throw e => (Throw e, m2)
          | Unmodelled => (Unmodelled, m2)
          | Ok _ => run_callbacks ev node cbs' m2
          end
      end
  end.

(** The body of the [try] block of [start]. *)
Fixpoint load_all (order : list NodeRef) (m : Machine) : Result unit * Machine :=
  match order with
  | [] => (Ok tt, m)
  | n :: order' =>
      match initModule n m with
      | (Throw e, m1) => (Throw e, m1)
      | (Unmodelled, m1) => (Unmodelled, m1)
      | (Ok _, m1) =>
          match run_callbacks EvLoad n
                  (loadCallbacks (defs m1 !!! ctx_def (nodes m1 !!! n))) m1 with
          | (Throw e, m2) => (Throw e, m2)
          | (Unmodelled, m2) => (Unmodelled, m2)
          | (Ok _, m2) => load_all order' m2
          end
      end
  end.

(** The body of the [try] block of [stop], after the order is computed. *)
Fixpoint unload_all (order : list NodeRef) (m : Machine) : Result unit * Machine :=
  match order with
  | [] => (Ok tt, m)
  | n :: order' =>
      match run_callbacks EvUnload n
              (unloadCallbacks (defs m !!! ctx_def (nodes m !!! n))) m with
      | (Throw e, m1) => (Throw e, m1)
      | (Unmodelled, m1) => (Unmodelled, m1)
      | (Ok _, m1) => unload_all order' m1
      end
  end.

Definition start (fuel : nat) (this : InstRef) (m : Machine)
    : option (Result InstRef * Machine) :=
  let a := insts m !!! this in
  if running a then Some (Ok this, m)
  else
    let rootScope := IdSym (SymFresh (symbols m)) in
    let m0 := set_symbols m (S (symbols m)) in
    match buildTree fuel (defs m0) (name a) (def a) rootScope ([], nodes m0) with
    | None => None
    | Some (tree, (_, heap)) =>
        match lifecycleOrder fuel heap tree with
        | None => None
        | Some order =>
            let m1 := set_lifecycle this (Some tree) true (set_nodes m0 heap) in
            match load_all order m1 with
            | (Throw e, m2) => Some (Throw e, set_lifecycle this None false m2)
            | (Unmodelled, m2) => Some (Unmodelled, m2)
            | (Ok _, m2) => Some (Ok this, m2)
            end
        end
    end.

Definition stop (fuel : nat) (this : InstRef) (m : Machine)
    : option (Result unit * Machine) :=
  let a := insts m !!! this in
  match running a, runtimeTree a with
  | true, Some tree =>
      match lifecycleOrder fuel (nodes m) tree with
      | None => None
      | Some order =>
          let (r, m1) := unload_all (rev order) m in
          Some (r, set_lifecycle this None false m1)
      end
  | _, _ => Some (Ok tt, m)
  end.

End Engine.

Arguments Machine W : assert.
Arguments boot {W} w.
Arguments new_Aether {W} nm d ext m.
Arguments new_module {W} nm m.
Arguments next {W} this mutate m.
Arguments addProviders {W} this parsed m.
Arguments with_args {W} this args defaultKind m.
Arguments provide {W} this args m.
Arguments decorate {W} this args m.
Arguments state {W} this args m.
Arguments onLoad {W} this callback m.
Arguments onUnload {W} this callback m.
Arguments extend {W} this nm fn m.
Arguments extend_all {W} this fns m.
Arguments PluginFalsy {W}.
Arguments PluginArray {W} ps.
Arguments PluginFn {W} f.
Arguments PluginAether {W} i.
Arguments PluginOther {W}.
Arguments useScopeId {W} scope m.
Arguments use_module {W} this plugin options m.
Arguments use {W} plugin options this m.
Arguments applyEntry {W} call entry module t m.
Arguments applyEntries {W} call es module t m.
Arguments initModule {W} call n m.
Arguments isRunning {W} this m.
Arguments context {W} this m.
Arguments set_lifecycle {W} this tree r m.
Arguments run_callbacks {W} call await ev node cbs m.
Arguments load_all {W} call await order m.
Arguments unload_all {W} call await order m.
Arguments start {W} call await fuel this m.
Arguments stop {W} call await fuel this m.
Arguments defs {W} m.
Arguments insts {W} m.
Arguments nodes {W} m.
Arguments symbols {W} m.
Arguments world {W} m.
Arguments journal {W} m.
Arguments set_defs {W} m x.
Arguments set_insts {W} m x.
Arguments set_nodes {W} m x.
Arguments set_symbols {W} m x.
Arguments set_world {W} m x.
Arguments set_journal {W} m x.


(* ====================================================================== *)
(** ** Vocabulary of the statements *)
(* ====================================================================== *)

(** The two sub-objects of a merged context. *)
Definition in_context (k : ProviderKind) (ky : string) (ctx : Value) : bool :=
  match ctx with
  | VObj o =>
      match obj_get (kind_name k) o with
      | Some (VObj sub) => has ky sub
      | _ => false
      end
  | _ => false
  end.

Definition context_get (k : ProviderKind) (ky : string) (ctx : Value) : option Value :=
  match ctx with
  | VObj o =>
      match obj_get (kind_name k) o with
      | Some (VObj sub) => obj_get ky sub
      | _ => None
      end
  | _ => None
  end.

(** The definitions, the instances and the symbol counter are the same,
    and the journal has only grown. *)
Definition same_static {W} (m m' : Machine W) : Prop :=
  defs m' = defs m /\ insts m' = insts m /\ symbols m' = symbols m
  /\ exists evs, journal m' = journal m ++ evs.

(** An instance that is running has a runtime tree. *)
Definition lifecycle_ok {W} (this : InstRef) (m : Machine W) : Prop :=
  running (insts m !!! this) = true -> is_Some (runtimeTree (insts m !!! this)).


(* ====================================================================== *)
(** ** Concrete programs used as test inputs *)
(* ====================================================================== *)

Definition and_then {A B : Type} (r : Result A) (f : A -> Result B) : Result B :=
  match r with Ok a => f a | Throw e => Throw e | Unmodelled => Unmodelled end.

(** The world of the test programs is a counter.  Function 7 is a factory
    returning 42; function 9 is a callback that throws the first time it
    runs; every other function returns [undefined]. *)
Definition demo_call (f : nat) (arg : Value) (w : nat) : Result Value * nat :=
  match f with
  | 7 => (Ok (VNum 42), w)
  | 9 => if Nat.eqb w 0 then (Throw (Thrown (VStr "boom")), 1) else (Ok VUndefined, w)
  | _ => (Ok VUndefined, w)
  end.

Definition demo_await (v : Value) (w : nat) : Result Value * nat := (Ok v, w).

Definition options (o : list (string * Value)) : Value := VObj o.

(** The example of the README: [logger] and [app]. *)
Definition demo_app : Result ((InstRef * InstRef) * Machine nat) :=
  let (logger0, m) := new_module "logger" (boot 0) in
  and_then (decorate logger0 [VStr "logLevel"; VStr "info"] m) (fun '(l1, m) =>
  and_then (decorate l1 [VStr "log"; VFun 7; options [("scope", VStr "scoped")]] m) (fun '(l2, m) =>
  and_then (onLoad l2 1 m) (fun '(logger, m) =>
  let (app0, m) := new_module "app" m in
  and_then (use (PluginAether logger) no_options app0 m) (fun '(a1, m) =>
  and_then (decorate a1 [VStr "port"; VNum 3000; options [("scope", VStr "global")]] m) (fun '(a2, m) =>
  and_then (onLoad a2 2 m) (fun '(a3, m) =>
  and_then (onUnload a3 3 m) (fun '(app, m) =>
  Ok ((logger, app), m)))))))).

Definition demo_machine : Machine nat :=
  Eval vm_compute in
    match demo_app with Ok (_, m) => m | _ => boot 0 end.
Definition demo_logger : InstRef :=
  Eval vm_compute in
    match demo_app with Ok ((l, _), _) => l | _ => 0 end.
Definition demo_root : InstRef :=
  Eval vm_compute in
    match demo_app with Ok ((_, a), _) => a | _ => 0 end.

(** A module whose only [onLoad] callback throws the first time. *)
Definition demo_faulty : Result (InstRef * Machine nat) :=
  let (f0, m) := new_module "faulty" (boot 0) in
  and_then (state f0 [VStr "n"; VNum 1] m) (fun '(f1, m) =>
  onLoad f1 9 m).

Definition demo_faulty_machine : Machine nat :=
  Eval vm_compute in
    match demo_faulty with Ok (_, m) => m | _ => boot 0 end.
Definition demo_faulty_root : InstRef :=
  Eval vm_compute in
    match demo_faulty with Ok (i, _) => i | _ => 0 end.

(** Two fresh modules, before the second one composes the first. *)
Definition demo_pair : Machine nat :=
  Eval vm_compute in
    let (_, m) := new_module "child" (boot 0) in
    let (_, m) := new_module "parent" m in m.
Definition demo_child : InstRef := 0.
Definition demo_parent : InstRef := 1.
Definition demo_composed : InstRef * Machine nat :=
  Eval vm_compute in
    match use (PluginAether demo_child) no_options demo_parent demo_pair with
    | Ok x => x
    | _ => (0, demo_pair)
    end.

(** [new Aether("m").state("k", f7)]. *)
Definition demo_state_fn : Result (InstRef * Machine nat) :=
  let (i, m) := new_module "m" (boot 0) in
  state i [VStr "k"; VFun 7] m.

(** [new Aether("m").decorate({ a: f7 }).state("k", f7)]. *)
Definition demo_bulk : Result (InstRef * Machine nat) :=
  let (i, m) := new_module "m" (boot 0) in
  and_then (decorate i [VObj [("a", VFun 7)]] m) (fun '(i1, m) =>
  state i1 [VStr "k"; VFun 7] m).

(** [new Aether("m").decorate("a", 1, { scope: "global" })], to be
    redeclared. *)
Definition demo_declared : Result (InstRef * Machine nat) :=
  let (i, m) := new_module "m" (boot 0) in
  decorate i [VStr "a"; VNum 1; options [("scope", VStr "global")]] m.

(** The context of [r] after [start], or [None] when [start] throws. *)
Definition started_context (r : Result (InstRef * Machine nat))
    : option (Value * list Event) :=
  match r with
  | Throw _ | Unmodelled => None
  | Ok (i, m) =>
      match start demo_call demo_await 10 i m with
      | Some (Ok _, m') =>
          match context i m' with
          | Ok v => Some (v, journal m')
          | _ => None
          end
      | _ => None
      end
  end.

(** A definition heap is acyclic when some rank decreases along every
    edge. *)
Definition acyclic (dh : list ModuleDefinition) : Prop :=
  exists rank : DefRef -> nat,
    forall d u, u ∈ uses (dh !!! d) -> rank (edge_def u) < rank d.

(** A heap built by hand (through the public constructor, which accepts a
    definition): module 0 uses module 1 and module 1 uses module 0. *)
Definition demo_cycle : list ModuleDefinition :=
  [ {| providers := []; loadCallbacks := []; unloadCallbacks := [];
       uses := [{| edge_name := "b"; edge_def := 1;
                   edge_scopeId := Some GLOBAL_SCOPE; edge_transitive := Some true |}] |};
    {| providers := []; loadCallbacks := []; unloadCallbacks := [];
       uses := [{| edge_name := "a"; edge_def := 0;
                   edge_scopeId := Some GLOBAL_SCOPE; edge_transitive := Some true |}] |} ].

Definition demo_cycle_machine : Machine nat :=
  {| defs := demo_cycle;
     insts := [{| name := "a"; def := 0; extensionImpls := [];
                  runtimeTree := None; running := false |}];
     nodes := []; symbols := 0; world := 0; journal := [] |}.

(* ====================================================================== *)
(** ** Visibility of one key *)
(* ====================================================================== *)

(** Whether a key of a kind is in the local, the exported and the
    propagated map. *)
Record Visibility := {
  in_local : bool;
  in_exported : bool;
  in_propagated : bool;
}.

Definition nowhere : Visibility :=
  {| in_local := false; in_exported := false; in_propagated := false |}.

Definition visibility (K : ProviderKind) (k : string) (t : Tables) : Visibility :=
  {| in_local := has k (pm_get (t_local t) K);
     in_exported := has k (pm_get (t_exported t) K);
     in_propagated := has k (pm_get (t_propagated t) K) |}.

Definition node_visibility (K : ProviderKind) (k : string)
    (n : ModuleRuntimeContext) : Visibility :=
  {| in_local := has k (pm_get (ctx_providers n) K);
     in_exported := has k (pm_get (exportedProviders n) K);
     in_propagated := has k (pm_get (propagatedProviders n) K) |}.

Definition declares (K : ProviderKind) (k : string) (e : ProviderEntry) : bool :=
  kind_eqb (kind e) K && String.eqb (key e) k.

Definition keeps (e : ProviderEntry) : bool :=
  match mode_of e with override => false | append => true end.

(** What applying one own entry does to the visibility of the key. *)
Definition declare_step (K : ProviderKind) (k : string) (v : Visibility)
    (e : ProviderEntry) : Visibility :=
  if declares K k e then
    {| in_local := true;
       in_exported := export e || keeps e && in_exported v;
       in_propagated := export e && is_true (transitive e) || keeps e && in_propagated v |}
  else v.

Definition passes_on (edge : UseEdge) : bool :=
  match edge_transitive edge with Some false => false | _ => true end.

(** What importing one child does to the visibility of the key. *)
Definition import_step (through : bool) (child v : Visibility) : Visibility :=
  {| in_local := in_exported child || in_local v;
     in_exported := if through then in_propagated child || in_exported v
                    else in_exported v;
     in_propagated := if through then in_propagated child || in_propagated v
                      else in_propagated v |}.

(** A chain of definitions, root first: every module uses exactly the
    next one, the last uses none. *)
Inductive chain (dh : list ModuleDefinition) : list DefRef -> Prop :=
| chain_leaf d :
    uses (dh !!! d) = [] -> chain dh [d]
| chain_link d e d' rest :
    uses (dh !!! d) = [e] -> edge_def e = d' -> chain dh (d' :: rest) ->
    chain dh (d :: d' :: rest).

Definition first_edge_passes (dh : list ModuleDefinition) (d : DefRef) : bool :=
  match uses (dh !!! d) with e :: _ => passes_on e | [] => true end.

(** The visibility of the key at the head of a chain, computed from the
    definitions alone. *)
Fixpoint chain_visibility (dh : list ModuleDefinition) (K : ProviderKind)
    (k : string) (ds : list DefRef) : Visibility :=
  match ds with
  | [] => nowhere
  | d :: rest =>
      fold_left (declare_step K k) (providers (dh !!! d))
        (import_step (first_edge_passes dh d) (chain_visibility dh K k rest) nowhere)
  end.

(** The nodes of a chain in a node heap, as the builder leaves them: the
    node of the head of [ds] is at [base + length rest], its only child
    just below. *)
Fixpoint fresh_chain (heap : list ModuleRuntimeContext) (base : nat)
    (ds : list DefRef) : Prop :=
  match ds with
  | [] => True
  | d :: rest =>
      (base + length rest < length heap
       /\ exists nm,
            heap !!! (base + length rest)
            = fresh_node nm d (match rest with [] => [] | _ => [base + length rest - 1] end))
      /\ fresh_chain heap base rest
  end.

(** After the load phase: every node of the chain is initialised and
    shows the visibility computed from the definitions. *)
Fixpoint loaded_chain (dh : list ModuleDefinition) (K : ProviderKind) (k : string)
    (heap : list ModuleRuntimeContext) (base : nat) (ds : list DefRef) : Prop :=
  match ds with
  | [] => True
  | d :: rest =>
      (node_visibility K k (heap !!! (base + length rest)) = chain_visibility dh K k ds
       /\ ctx_def (heap !!! (base + length rest)) = d
       /\ callbackCtx (heap !!! (base + length rest))
          = merged_context (ctx_providers (heap !!! (base + length rest))))
      /\ loaded_chain dh K k heap base rest
  end.

Definition no_tables : Tables :=
  {| t_local := pm_empty; t_exported := pm_empty; t_propagated := pm_empty;
     t_origins := [] |}.

(** A chain of three modules: [a] uses [b], [b] uses [c]; [c] declares a
    global, a scoped and a local decorator.  [how] is the option [as] of
    the composition of [c] into [b]. *)
Definition demo_chain_with (how : option UseAs) : Result (InstRef * Machine nat) :=
  let (c0, m) := new_module "c" (boot 0) in
  and_then (decorate c0 [VStr "g"; VNum 1; options [("scope", VStr "global")]] m) (fun '(c1, m) =>
  and_then (decorate c1 [VStr "s"; VNum 2; options [("scope", VStr "scoped")]] m) (fun '(c2, m) =>
  and_then (decorate c2 [VStr "l"; VNum 3] m) (fun '(c3, m) =>
  and_then (onLoad c3 1 m) (fun '(c, m) =>
  let (b0, m) := new_module "b" m in
  and_then (use (PluginAether c) {| use_scope := None; use_as := how |} b0 m) (fun '(b1, m) =>
  and_then (onLoad b1 2 m) (fun '(b, m) =>
  let (a0, m) := new_module "a" m in
  and_then (use (PluginAether b) no_options a0 m) (fun '(a1, m) =>
  and_then (onLoad a1 3 m) (fun '(a2, m) =>
  onUnload a2 4 m)))))))).

Definition demo_chain : InstRef * Machine nat :=
  Eval vm_compute in
    match demo_chain_with None with Ok x => x | _ => (0, boot 0) end.

Definition demo_scoped_chain : InstRef * Machine nat :=
  Eval vm_compute in
    match demo_chain_with (Some as_scoped) with Ok x => x | _ => (0, boot 0) end.

(* ====================================================================== *)
(** ** Vocabulary for the builder *)
(* ====================================================================== *)

(** The definition an instance holds. *)
Definition def_of {W} (i : InstRef) (m : Machine W) : ModuleDefinition :=
  defs m !!! def (insts m !!! i).

(** [decorate] for the kind [decorator], [state] for the kind [store]. *)
Definition declare {W} (K : ProviderKind) (this : InstRef) (args : list Value)
    (m : Machine W) : Result (InstRef * Machine W) :=
  match K with decorator => decorate this args m | store => state this args m end.

Definition scope_name (s : LifeCycleType) : string :=
  match s with global => "global" | scoped => "scoped" | local => "local" end.

Definition mode_name (md : ContextAppendType) : string :=
  match md with append => "append" | override => "override" end.

(** The entry a declaration of [k] pushes. *)
Definition declared_entry (K : ProviderKind) (k : string) (v : Value)
    (s : LifeCycleType) (md : ContextAppendType) (static : bool) : ProviderEntry :=
  {| kind := K; key := k; value := v;
     export := match s with local => false | _ => true end;
     transitive := Some (match s with global => true | _ => false end);
     isFactory := Some (if static then false else is_function v);
     mode := Some md |}.

(** Whether a definition already declares the key for the kind. *)
Definition declared_in (K : ProviderKind) (k : string) (d : ModuleDefinition) : bool :=
  existsb (fun p => kind_eqb (kind p) K && String.eqb (key p) k) (providers d).

(** [m'] is [m] with one more definition [d'] and one more instance [i'],
    which holds [d'] and has the name and the extensions of [this];
    nothing else differs. *)
Definition derived {W} (this : InstRef) (m : Machine W) (i' : InstRef)
    (m' : Machine W) (d' : ModuleDefinition) (ext : list (string * nat)) : Prop :=
  i' = length (insts m)
  /\ defs m' = defs m ++ [d']
  /\ insts m' = insts m ++ [{| name := name (insts m !!! this);
                               def := length (defs m);
                               extensionImpls := ext;
                               runtimeTree := None; running := false |}]
  /\ nodes m' = nodes m /\ symbols m' = symbols m
  /\ world m' = world m /\ journal m' = journal m.

Definition with_providers (d : ModuleDefinition) (ps : list ProviderEntry)
    : ModuleDefinition :=
  {| providers := ps; loadCallbacks := loadCallbacks d;
     unloadCallbacks := unloadCallbacks d; uses := uses d |}.

Definition demo_declared_machine : Machine nat :=
  Eval vm_compute in
    match demo_declared with Ok (_, m) => m | _ => boot 0 end.
Definition demo_declared_root : InstRef :=
  Eval vm_compute in
    match demo_declared with Ok (i, _) => i | _ => 0 end.

(** [Map.get] on the extension registry. *)
Fixpoint ext_get (nm : string) (e : list (string * nat)) : option nat :=
  match e with
  | [] => None
  | (n', f) :: e' => if String.eqb nm n' then Some f else ext_get nm e'
  end.

(** One call of a builder method on module instances, for statements
    about all of them. *)
Inductive BuilderCall :=
| CallDecorate (args : list Value)
| CallState (args : list Value)
| CallProvide (args : list Value)
| CallOnLoad (callback : nat)
| CallOnUnload (callback : nat)
| CallExtend (nm : string) (fn : option nat)
| CallExtendAll (fns : list (string * nat))
| CallUse (plugins : list InstRef) (options : UseOptions).

Definition run_call {W} (c : BuilderCall) (this : InstRef) (m : Machine W)
    : Result (InstRef * Machine W) :=
  match c with
  | CallDecorate args => decorate this args m
  | CallState args => state this args m
  | CallProvide args => provide this args m
  | CallOnLoad cb => onLoad this cb m
  | CallOnUnload cb => onUnload this cb m
  | CallExtend nm fn => extend this nm fn m
  | CallExtendAll fns => extend_all this fns m
  | CallUse ps options => use (PluginArray (map PluginAether ps)) options this m
  end.

(** [m'] has every definition and every instance of [m] at the same
    address, unchanged, and the same nodes, world and journal. *)
Definition preserves {W} (m m' : Machine W) : Prop :=
  (exists ds, defs m' = defs m ++ ds)
  /\ (exists ins, insts m' = insts m ++ ins
                 /\ Forall (fun a => running a = false /\ runtimeTree a = None) ins)
  /\ nodes m' = nodes m /\ world m' = world m /\ journal m' = journal m
  /\ symbols m <= symbols m'.

(** Two modules that both carry an extension named "register", and a
    third with an extension of another name. *)
Definition demo_extended : (InstRef * InstRef * InstRef) * Machine nat :=
  Eval vm_compute in
    let (p0, m) := new_module "p" (boot 0) in
    match extend p0 "register" (Some 1) m with
    | Ok (p, m) =>
        let (q0, m) := new_module "q" m in
        match extend q0 "register" (Some 2) m with
        | Ok (q, m) =>
            let (r0, m) := new_module "r" m in
            match extend r0 "other" (Some 3) m with
            | Ok (r, m) => ((p, q, r), m)
            | _ => ((0, 0, 0), m)
            end
        | _ => ((0, 0, 0), m)
        end
    | _ => ((0, 0, 0), m)
    end.

(** The scope identity of a [use] whose scope is not "local". *)
Definition shared_scope_id (scope : option ScopeId) : ScopeId :=
  match scope with
  | None => GLOBAL_SCOPE
  | Some (IdStr s) =>
      if String.eqb s "" || String.eqb s "global" then GLOBAL_SCOPE else IdStr s
  | Some (IdSym y) => IdSym y
  end.

(** The edge that [use] appends. *)
Definition use_edge {W} (plugin : InstRef) (sid : ScopeId) (options : UseOptions)
    (m : Machine W) : UseEdge :=
  {| edge_name := name (insts m !!! plugin);
     edge_def := def (insts m !!! plugin);
     edge_scopeId := Some sid;
     edge_transitive :=
       Some (match use_as options with Some as_scoped => false | _ => true end) |}.

Definition with_uses (d : ModuleDefinition) (us : list UseEdge) : ModuleDefinition :=
  {| providers := providers d; loadCallbacks := loadCallbacks d;
     unloadCallbacks := unloadCallbacks d; uses := us |}.

(** [ctx[k]] on a context object. *)
Definition context_field (k : string) (ctx : Value) : option Value :=
  match ctx with VObj o => obj_get k o | _ => None end.

(** The argument a factory of an entry is called with. *)
Definition factory_context (K : ProviderKind) (p : ProviderMaps) : Value :=
  match K with
  | decorator => merged_context p
  | store => VObj (pm_get p store)
  end.

(** [new Aether("m").decorate("toString", 1)]: the builder accepts it. *)
Definition demo_inherited : InstRef * Machine nat :=
  Eval vm_compute in
    let (i, m) := new_module "m" (boot 0) in
    match decorate i [VStr "toString"; VNum 1] m with
    | Ok x => x
    | _ => (0, boot 0)
    end.

(** Tables in which the decorator "a" is local, exported and propagated. *)
Definition demo_tables : Tables :=
  {| t_local := {| of_decorator := [("a", VNum 1)]; of_store := [] |};
     t_exported := {| of_decorator := [("a", VNum 1)]; of_store := [] |};
     t_propagated := {| of_decorator := [("a", VNum 1)]; of_store := [] |};
     t_origins := [] |}.

(** The machine after [start] of the three-module chain. *)
Definition demo_chain_started : Machine nat :=
  Eval vm_compute in
    match start demo_call demo_await 3 demo_chain.1 demo_chain.2 with
    | Some (_, m') => m'
    | None => boot 0
    end.

(** One lifecycle callback run to completion: [await cb(ctx)]. *)
Definition settle {W} (call : nat -> Value -> W -> Result Value * W)
    (await : Value -> W -> Result Value * W) (cb : nat) (ctx : Value) (w : W)
    : Result Value * W :=
  match call cb ctx w with
  | (Ok v, w1) => await v w1
  | (r, w1) => (r, w1)
  end.

(** The callbacks of the list were run from the world [w], one after the
    other and each to completion, none threw, and they left the world
    [w']. *)
Inductive ran_in_order {W} (call : nat -> Value -> W -> Result Value * W)
    (await : Value -> W -> Result Value * W) (ctx : Value)
    : list nat -> W -> W -> Prop :=
| ran_none w : ran_in_order call await ctx [] w w
| ran_next cb cbs w v w1 w' :
    settle call await cb ctx w = (Ok v, w1) ->
    ran_in_order call await ctx cbs w1 w' ->
    ran_in_order call await ctx (cb :: cbs) w w'.



(** The machine of [demo_declared] with one node just built for its
    definition. *)
Definition demo_fresh_node_machine : Machine nat :=
  set_nodes demo_declared_machine [fresh_node "m" 1 []].

(** The machine after [start] of the README example. *)
Definition demo_started : Machine nat :=
  Eval vm_compute in
    match start demo_call demo_await 10 demo_root demo_machine with
    | Some (_, m') => m'
    | None => boot 0
    end.

(** A node as the builder allocates it. *)
Definition is_fresh_node (x : ModuleRuntimeContext) : Prop :=
  exists nm d cs, x = fresh_node nm d cs.

(** Every node the cache names is in the heap. *)
Definition cache_in_heap (c : Cache) (h : list ModuleRuntimeContext) : Prop :=
  forall d s n, cache_get d s c = Some n -> n < length h.

(** A hand-built heap in which module 0 uses itself. *)
Definition demo_self_use : Machine nat :=
  {| defs := [ {| providers := []; loadCallbacks := []; unloadCallbacks := [];
                  uses := [{| edge_name := "a"; edge_def := 0;
                              edge_scopeId := Some GLOBAL_SCOPE;
                              edge_transitive := Some true |}] |} ];
     insts := [{| name := "a"; def := 0; extensionImpls := [];
                  runtimeTree := None; running := false |}];
     nodes := []; symbols := 0; world := 0; journal := [] |}.

(** What one call of [visit] adds to the visited set and to the order. *)
Definition visit_adds (heap : list ModuleRuntimeContext)
    (st st' : list NodeRef * list NodeRef) (nv no : list NodeRef) : Prop :=
  st'.1 = nv ++ st.1 /\ st'.2 = st.2 ++ no
  /\ nv ≡ₚ no /\ NoDup nv /\ (forall x, x ∈ nv -> x ∉ st.1)
  /\ (forall x c, x ∈ nv -> c ∈ children (heap !!! x) -> c ∈ st'.1).

(* ====================================================================== *)
(** ** The machines a program can produce *)
(* ====================================================================== *)







(* ====================================================================== *)
(** ** Dictionaries: basic facts *)
(* ====================================================================== *)

Lemma obj_get_update_eq k v o :
  has k o = true -> obj_get k (obj_update k v o) = Some v.
Proof.
  unfold has. induction o as [|[k' v'] o IH]; simpl; [done|].
  destruct (String.eqb k k') eqn:E; simpl; rewrite ?String.eqb_refl ?E; auto.
Qed.

Lemma obj_get_update_ne k k' v o :
  k <> k' -> obj_get k (obj_update k' v o) = obj_get k o.
Proof.
  intros Hne. induction o as [|[k2 v2] o IH]; simpl; [done|].
  destruct (String.eqb_spec k' k2) as [->|Hn]; simpl.
  - destruct (String.eqb_spec k k2); congruence.
  - destruct (String.eqb_spec k k2); auto.
Qed.

Lemma obj_get_insert_index_eq n k v o :
  has k o = false -> obj_get k (obj_insert_index n k v o) = Some v.
Proof.
  unfold has. induction o as [|[k' v'] o IH]; simpl.
  - by rewrite String.eqb_refl.
  - destruct (String.eqb k k') eqn:E; [done|]. intros Hn.
    destruct (array_index k') as [n'|]; [destruct (n' <? n)%N|]; simpl;
      rewrite ?E ?String.eqb_refl; auto.
Qed.

Lemma obj_get_insert_index_ne n k k' v o :
  k <> k' -> obj_get k (obj_insert_index n k' v o) = obj_get k o.
Proof.
  intros Hne. induction o as [|[k2 v2] o IH]; simpl.
  - destruct (String.eqb_spec k k'); congruence.
  - destruct (array_index k2) as [n'|]; [destruct (n' <? n)%N|]; simpl;
      destruct (String.eqb_spec k k2); destruct (String.eqb_spec k k'); congruence.
Qed.

Lemma obj_get_app k o1 o2 :
  obj_get k (o1 ++ o2) = match obj_get k o1 with Some v => Some v | None => obj_get k o2 end.
Proof.
  induction o1 as [|[k' v'] o1 IH]; simpl; [done|]. by destruct (String.eqb k k').
Qed.

Lemma obj_get_set_eq k v o : obj_get k (obj_set k v o) = Some v.
Proof.
  unfold obj_set. destruct (has k o) eqn:Hh.
  - by apply obj_get_update_eq.
  - destruct (array_index k).
    + by apply obj_get_insert_index_eq.
    + rewrite obj_get_app. unfold has in Hh. destruct (obj_get k o); [done|].
      simpl. by rewrite String.eqb_refl.
Qed.

Lemma obj_get_set_ne k k' v o :
  k <> k' -> obj_get k (obj_set k' v o) = obj_get k o.
Proof.
  intros Hne. unfold obj_set. destruct (has k' o).
  - by apply obj_get_update_ne.
  - destruct (array_index k').
    + by apply obj_get_insert_index_ne.
    + rewrite obj_get_app. destruct (obj_get k o); [done|]. simpl.
      destruct (String.eqb_spec k k'); congruence.
Qed.

Lemma obj_get_delete_eq k o : obj_get k (obj_delete k o) = None.
Proof.
  induction o as [|[k' v'] o IH]; simpl; auto.
  destruct (String.eqb k k') eqn:E; simpl; rewrite ?E; auto.
Qed.

Lemma obj_get_delete_ne k k' o :
  k <> k' -> obj_get k (obj_delete k' o) = obj_get k o.
Proof.
  intros Hne. induction o as [|[k2 v2] o IH]; simpl; auto.
  destruct (String.eqb_spec k' k2) as [->|Hn]; simpl.
  - destruct (String.eqb_spec k k2); congruence.
  - destruct (String.eqb_spec k k2); auto.
Qed.

Lemma has_set k k' v o : has k (obj_set k' v o) = String.eqb k k' || has k o.
Proof.
  unfold has. destruct (String.eqb_spec k k') as [->|Hne].
  - by rewrite obj_get_set_eq.
  - by rewrite obj_get_set_ne.
Qed.

Lemma has_delete k k' o : has k (obj_delete k' o) = negb (String.eqb k k') && has k o.
Proof.
  unfold has. destruct (String.eqb_spec k k') as [->|Hne].
  - by rewrite obj_get_delete_eq.
  - by rewrite obj_get_delete_ne.
Qed.

(** An assignment that does not reach the setter of [__proto__] defines
    the own property. *)
Lemma obj_assign_plain k v o :
  k <> "__proto__" -> obj_assign k v o = Some (obj_set k v o).
Proof.
  intros Hne. unfold obj_assign. destruct (has k o); [done|].
  destruct (String.eqb_spec k "__proto__"); [done|done].
Qed.

Lemma inherited_proto : inherited "__proto__" = true.
Proof. reflexivity. Qed.

Lemma obj_assign_not_in k v o :
  obj_in k o = false -> obj_assign k v o = Some (obj_set k v o).
Proof.
  intros Hin. apply obj_assign_plain. intros ->. by rewrite /obj_in inherited_proto in Hin.
Qed.

(** Whatever is assigned, the other names keep their own values. *)
Lemma obj_assign_other k k' v o o' :
  obj_assign k' v o = Some o' -> k <> k' -> obj_get k o' = obj_get k o.
Proof.
  unfold obj_assign. intros H Hne.
  destruct (has k' o).
  { inversion H; subst. by apply obj_get_set_ne. }
  destruct (String.eqb k' "__proto__").
  - destruct (is_object_or_null v); inversion H; subst; done.
  - inversion H; subst. by apply obj_get_set_ne.
Qed.

Lemma Object_assign_plain k t s t' :
  k <> "__proto__" ->
  Object_assign t s = Some t' -> has k t' = has k s || has k t.
Proof.
  intros Hk. revert t. induction s as [|[k' v'] s IH]; intros t H; simpl in H.
  - by inversion H; subst.
  - destruct (obj_assign k' v' t) as [t1|] eqn:Ha; [|done].
    rewrite (IH _ H). unfold has at 3. simpl.
    destruct (String.eqb_spec k k') as [->|Hne].
    + rewrite obj_assign_plain in Ha; [done|]. inversion Ha; subst.
      by rewrite has_set String.eqb_refl orb_true_r.
    + unfold has at 2. by rewrite (obj_assign_other _ _ _ _ _ Ha Hne).
Qed.

Lemma obj_in_has k o : obj_in k o = inherited k || has k o.
Proof. reflexivity. Qed.

Lemma pm_get_put_eq m k o : pm_get (pm_put m k o) k = o.
Proof. by destruct k. Qed.

Lemma pm_get_put_ne m k k' o : k <> k' -> pm_get (pm_put m k' o) k = pm_get m k.
Proof. by destruct k, k'. Qed.

Lemma kind_eqb_spec a b : reflect (a = b) (kind_eqb a b).
Proof. destruct a, b; simpl; constructor; congruence. Qed.

Lemma sym_eqb_spec a b : reflect (a = b) (sym_eqb a b).
Proof.
  destruct a, b; simpl; try (constructor; congruence);
    destruct (Nat.eqb_spec n n0); constructor; congruence.
Qed.

Lemma scope_eqb_spec a b : reflect (a = b) (scope_eqb a b).
Proof.
  destruct a, b; simpl; try (constructor; congruence).
  - destruct (String.eqb_spec s s0); constructor; congruence.
  - destruct (sym_eqb_spec y y0); constructor; congruence.
Qed.

Lemma context_get_merged k ky p :
  context_get k ky (merged_context p) = obj_get ky (pm_get p k).
Proof.
  unfold context_get, merged_context. destruct k; simpl.
  - rewrite obj_get_set_ne; [discriminate|]. by rewrite obj_get_set_eq.
  - by rewrite obj_get_set_eq.
Qed.

Lemma in_context_merged k ky p :
  in_context k ky (merged_context p) = has ky (pm_get p k).
Proof.
  unfold in_context, merged_context. destruct k; simpl.
  - rewrite obj_get_set_ne; [discriminate|]. by rewrite obj_get_set_eq.
  - by rewrite obj_get_set_eq.
Qed.

(* ====================================================================== *)
(** ** What user code and provider resolution leave alone *)
(* ====================================================================== *)

Section Frame.
Context {W : Type}.
Variable call : nat -> Value -> W -> Result Value * W.
Variable await : Value -> W -> Result Value * W.

Lemma same_static_refl (m : Machine W) : same_static m m.
Proof. repeat split. exists []. by rewrite app_nil_r. Qed.

Lemma same_static_trans (m1 m2 m3 : Machine W) :
  same_static m1 m2 -> same_static m2 m3 -> same_static m1 m3.
Proof.
  intros (A1 & B1 & C1 & e1 & D1) (A2 & B2 & C2 & e2 & D2).
  repeat split; try congruence.
  exists (e1 ++ e2). by rewrite D2 D1 app_assoc.
Qed.

Lemma applyEntry_frame e nm t m r m' :
  applyEntry call e nm t m = (r, m') ->
  same_static m m' /\ nodes m' = nodes m.
Proof.
  unfold applyEntry. intros H.
  destruct (_ && obj_in _ _).
  { inversion H; subst. split; [apply same_static_refl|done]. }
  destruct (is_true (isFactory e)).
  - destruct (value e);
      try (inversion H; subst; split; [apply same_static_refl|done]).
    destruct (call f _ (world m)) as [rv w'] eqn:Hc.
    assert (Hs : same_static m (set_journal (set_world m w')
                                  (journal m ++ [EvFactory nm (kind e) (key e) f]))).
    { repeat split. by eexists. }
    destruct rv; [destruct (storeEntry _ _ _ _ _) as [[[? ?] ?]|]|..];
      inversion H; subst; split; auto.
  - destruct (storeEntry _ _ _ _ _) as [[[? ?] ?]|];
      inversion H; subst; split; by [apply same_static_refl|].
Qed.

Lemma applyEntries_frame es nm t m r m' :
  applyEntries call es nm t m = (r, m') ->
  same_static m m' /\ nodes m' = nodes m.
Proof.
  revert t m. induction es as [|e es IH]; intros t m H; simpl in H.
  - inversion H; subst. split; [apply same_static_refl|done].
  - destruct (applyEntry call e nm t m) as [[t1|err|] m1] eqn:He.
    + apply applyEntry_frame in He as [S1 N1].
      apply IH in H as [S2 N2].
      split; [eapply same_static_trans; eauto|congruence].
    + apply applyEntry_frame in He as [S1 N1]. inversion H; subst. auto.
    + apply applyEntry_frame in He as [S1 N1]. inversion H; subst. auto.
Qed.

Lemma initModule_frame n m r m' :
  initModule call n m = (r, m') ->
  same_static m m'
  /\ length (nodes m') = length (nodes m)
  /\ (forall k, k <> n -> nodes m' !!! k = nodes m !!! k)
  /\ ctx_def (nodes m' !!! n) = ctx_def (nodes m !!! n)
  /\ children (nodes m' !!! n) = children (nodes m !!! n).
Proof.
  unfold initModule. intros H.
  destruct (initialized (nodes m !!! n)).
  { inversion H; subst. split; [apply same_static_refl|done]. }
  destruct (importChildren _ _ _ _) as [t1|err|].
  2,3: inversion H; subst; split; by [apply same_static_refl|].
  destruct (applyEntries call _ _ t1 m) as [[t2|err|] m1] eqn:Ha;
    apply applyEntries_frame in Ha as [S1 N1]; inversion H; subst; clear H.
  2,3: split; [done|]; rewrite N1; done.
  split; [destruct S1 as (?&?&?&?); by repeat split|].
  simpl. rewrite length_insert N1. split; [done|].
  split; [intros k Hk; by rewrite list_lookup_total_insert_ne|].
  destruct (decide (n < length (nodes m))) as [Hlt|Hge].
  - by rewrite list_lookup_total_insert_eq.
  - rewrite list_insert_ge; [lia|]. done.
Qed.

Lemma run_callbacks_frame ev node cbs m r m' :
  run_callbacks call await ev node cbs m = (r, m') ->
  same_static m m' /\ nodes m' = nodes m.
Proof.
  revert m. induction cbs as [|cb cbs IH]; intros m H; simpl in H.
  - inversion H; subst. split; [apply same_static_refl|done].
  - destruct (call cb _ (world m)) as [rv w1] eqn:Hc.
    set (m1 := set_journal (set_world m w1) (journal m ++ [ev node cb])) in *.
    assert (Hs1 : same_static m m1) by (repeat split; by eexists).
    destruct rv as [v|err|].
    2,3: inversion H; subst; auto.
    change (world m1) with w1 in H.
    destruct (await v w1) as [r2 w2] eqn:Hw.
    assert (Hs2 : same_static m (set_world m1 w2)).
    { destruct Hs1 as (?&?&?&?). repeat split; auto. }
    destruct r2 as [v2|err|].
    2,3: inversion H; subst; auto.
    apply IH in H as [S N]. split; [eapply same_static_trans; eauto|].
    rewrite N. done.
Qed.

Lemma load_all_frame order m r m' :
  load_all call await order m = (r, m') ->
  same_static m m'
  /\ length (nodes m') = length (nodes m)
  /\ (forall k, k ∉ order -> nodes m' !!! k = nodes m !!! k)
  /\ (forall k, ctx_def (nodes m' !!! k) = ctx_def (nodes m !!! k))
  /\ (forall k, children (nodes m' !!! k) = children (nodes m !!! k)).
Proof.
  revert m. induction order as [|n order IH]; intros m H; simpl in H.
  - inversion H; subst. split; [apply same_static_refl|done].
  - destruct (initModule call n m) as [[[]|err|] m1] eqn:Hi;
      apply initModule_frame in Hi as (S1 & L1 & N1 & D1 & C1).
    all: assert (D1' : forall k, ctx_def (nodes m1 !!! k) = ctx_def (nodes m !!! k))
      by (intros k; destruct (decide (k = n)) as [->|]; auto; by rewrite N1).
    all: assert (C1' : forall k, children (nodes m1 !!! k) = children (nodes m !!! k))
      by (intros k; destruct (decide (k = n)) as [->|]; auto; by rewrite N1).
    2,3: inversion H; subst; split_and!; auto;
         intros k Hk; apply N1; intros ->; apply Hk; left.
    destruct (run_callbacks call await EvLoad n _ m1) as [[[]|err|] m2] eqn:Hr;
      apply run_callbacks_frame in Hr as [S2 N2].
    2,3: inversion H; subst; rewrite N2; split_and!; auto;
         [eapply same_static_trans; eauto
         |intros k Hk; apply N1; intros ->; apply Hk; left].
    apply IH in H as (S3 & L3 & N3 & D3 & C3).
    split_and!.
    + eapply same_static_trans; [|eauto]. eapply same_static_trans; eauto.
    + by rewrite L3 N2 L1.
    + intros k Hk. rewrite N3.
      * intros Hin. apply Hk. by right.
      * rewrite N2. apply N1. intros ->. apply Hk. left.
    + intros k. by rewrite D3 N2 D1'.
    + intros k. by rewrite C3 N2 C1'.
Qed.

Lemma unload_all_frame order m r m' :
  unload_all call await order m = (r, m') ->
  same_static m m' /\ nodes m' = nodes m.
Proof.
  revert m. induction order as [|n order IH]; intros m H; simpl in H.
  - inversion H; subst. split; [apply same_static_refl|done].
  - destruct (run_callbacks call await EvUnload n _ m) as [[[]|err|] m1] eqn:Hr;
      apply run_callbacks_frame in Hr as [S1 N1].
    + apply IH in H as [S2 N2]. split; [eapply same_static_trans; eauto|congruence].
    + inversion H; subst. auto.
    + inversion H; subst. auto.
Qed.

End Frame.

(* ====================================================================== *)
(** ** The lifecycle state of an instance *)
(* ====================================================================== *)

Section Lifecycle.
Context {W : Type}.
Variable call : nat -> Value -> W -> Result Value * W.
Variable await : Value -> W -> Result Value * W.

Lemma set_lifecycle_other this tree r (m : Machine W) i :
  i <> this -> insts (set_lifecycle this tree r m) !!! i = insts m !!! i.
Proof. intros Hi. simpl. by rewrite list_lookup_total_insert_ne. Qed.

Lemma set_lifecycle_same this tree r (m : Machine W) :
  this < length (insts m) ->
  insts (set_lifecycle this tree r m) !!! this =
    {| name := name (insts m !!! this); def := def (insts m !!! this);
       extensionImpls := extensionImpls (insts m !!! this);
       runtimeTree := tree; running := r |}.
Proof. intros Hlt. simpl. by rewrite list_lookup_total_insert_eq. Qed.

Lemma set_lifecycle_static this tree r (m : Machine W) :
  defs (set_lifecycle this tree r m) = defs m
  /\ nodes (set_lifecycle this tree r m) = nodes m
  /\ world (set_lifecycle this tree r m) = world m
  /\ journal (set_lifecycle this tree r m) = journal m
  /\ length (insts (set_lifecycle this tree r m)) = length (insts m).
Proof. simpl. by rewrite length_insert. Qed.


Lemma reset_not_running this (m : Machine W) :
  running (insts (set_lifecycle this None false m) !!! this) = false
  /\ runtimeTree (insts (set_lifecycle this None false m) !!! this) = None
     \/ ~ this < length (insts m).
Proof.
  destruct (decide (this < length (insts m))) as [Hlt|]; [left|by right].
  by rewrite set_lifecycle_same.
Qed.

Lemma context_after_reset this (m : Machine W) :
  context this (set_lifecycle this None false m)
  = Throw (NotStarted (name (insts m !!! this)))
  /\ isRunning this (set_lifecycle this None false m) = false.
Proof.
  unfold context, isRunning.
  destruct (decide (this < length (insts m))) as [Hlt|Hge].
  - by rewrite set_lifecycle_same.
  - simpl. rewrite list_insert_ge; [lia|].
    rewrite list_lookup_total_alt lookup_ge_None_2; [lia|]. done.
Qed.

(** The shape of every run of [start] from an instance that is not
    running. *)
Lemma start_inv fuel this (m : Machine W) r m' :
  start call await fuel this m = Some (r, m') ->
  running (insts m !!! this) = false ->
  exists tree cache heap order m2 r2,
    buildTree fuel (defs m) (name (insts m !!! this)) (def (insts m !!! this))
      (IdSym (SymFresh (symbols m))) ([], nodes m) = Some (tree, (cache, heap))
    /\ lifecycleOrder fuel heap tree = Some order
    /\ load_all call await order
         (set_lifecycle this (Some tree) true
            (set_nodes (set_symbols m (S (symbols m))) heap)) = (r2, m2)
    /\ match r2 with
       | Ok _ => r = Ok this /\ m' = m2
       | Throw e => r = Throw e /\ m' = set_lifecycle this None false m2
       | Unmodelled => r = Unmodelled /\ m' = m2
       end.
Proof.
  unfold start. intros H Hr. rewrite Hr in H. simpl in H.
  destruct (buildTree _ _ _ _ _ _) as [[tree [cache heap]]|] eqn:Hb; [|done].
  destruct (lifecycleOrder fuel heap tree) as [order|] eqn:Ho; [|done].
  destruct (load_all _ _ _ _) as [r2 m2] eqn:Hl.
  exists tree, cache, heap, order, m2, r2. split_and!; auto.
  destruct r2; inversion H; subst; auto.
Qed.

Lemma start_insts fuel this (m : Machine W) r m' :
  start call await fuel this m = Some (r, m') ->
  length (insts m') = length (insts m)
  /\ forall i, i <> this -> insts m' !!! i = insts m !!! i.
Proof.
  intros H. destruct (running (insts m !!! this)) eqn:Hr.
  { unfold start in H. rewrite Hr in H. by inversion H; subst. }
  destruct (start_inv _ _ _ _ _ H Hr)
    as (tree & cache & heap & order & m2 & r2 & Hb & Ho & Hl & Hres).
  apply load_all_frame in Hl as ((_ & Hi & _) & _).
  destruct r2; destruct Hres as [-> ->].
  - rewrite Hi. split.
    + simpl. by rewrite length_insert.
    + intros i Hne. by rewrite set_lifecycle_other.
  - split.
    + simpl. rewrite length_insert Hi. simpl. by rewrite length_insert.
    + intros i Hne. rewrite set_lifecycle_other; [done|].
      rewrite Hi. by rewrite set_lifecycle_other.
  - rewrite Hi. split.
    + simpl. by rewrite length_insert.
    + intros i Hne. by rewrite set_lifecycle_other.
Qed.

Lemma start_ok_running fuel this (m : Machine W) m' :
  this < length (insts m) ->
  lifecycle_ok this m ->
  start call await fuel this m = Some (Ok this, m') ->
  running (insts m' !!! this) = true
  /\ exists tree, runtimeTree (insts m' !!! this) = Some tree.
Proof.
  intros Hlt Hok H. destruct (running (insts m !!! this)) eqn:Hr.
  { unfold start in H. rewrite Hr in H. inversion H; subst.
    split; [done|]. by apply Hok. }
  destruct (start_inv _ _ _ _ _ H Hr)
    as (tree & cache & heap & order & m2 & r2 & Hb & Ho & Hl & Hres).
  apply load_all_frame in Hl as ((_ & Hi & _) & _).
  destruct r2; destruct Hres as [Heq ->]; [|done|done].
  rewrite Hi set_lifecycle_same; [done|]. simpl. eauto.
Qed.

Lemma stop_inv fuel this (m : Machine W) r m' :
  stop call await fuel this m = Some (r, m') ->
  (r = Ok tt /\ m' = m
   /\ (running (insts m !!! this) = false \/ runtimeTree (insts m !!! this) = None))
  \/ exists tree order m1,
       running (insts m !!! this) = true
       /\ runtimeTree (insts m !!! this) = Some tree
       /\ lifecycleOrder fuel (nodes m) tree = Some order
       /\ unload_all call await (rev order) m = (r, m1)
       /\ m' = set_lifecycle this None false m1.
Proof.
  unfold stop. intros H.
  destruct (running (insts m !!! this)) eqn:Hr.
  2:{ inversion H; subst. left. auto. }
  destruct (runtimeTree (insts m !!! this)) as [tree|] eqn:Ht.
  2:{ inversion H; subst. left. auto. }
  destruct (lifecycleOrder fuel (nodes m) tree) as [order|] eqn:Ho; [|done].
  destruct (unload_all _ _ _ _) as [r1 m1] eqn:Hu.
  inversion H; subst. right. exists tree, order, m1. auto.
Qed.


Lemma stop_not_running fuel this (m : Machine W) r m' :
  lifecycle_ok this m ->
  stop call await fuel this m = Some (r, m') ->
  isRunning this m' = false.
Proof.
  intros Hok H.
  apply stop_inv in H as [(-> & -> & Hc)|(tree & order & m1 & Hr & Ht & Ho & Hu & ->)].
  - unfold isRunning. destruct Hc as [Hc|Hc]; [done|].
    destruct (running (insts m !!! this)) eqn:Hr; [|done].
    destruct (Hok Hr) as [t Ht]. congruence.
  - by destruct (context_after_reset this m1) as [_ ->].
Qed.

Lemma stop_insts fuel this (m : Machine W) r m' :
  stop call await fuel this m = Some (r, m') ->
  forall i, i <> this -> insts m' !!! i = insts m !!! i.
Proof.
  intros H i Hne.
  apply stop_inv in H as [(-> & -> & Hc)|(tree & order & m1 & Hr & Ht & Ho & Hu & ->)].
  - done.
  - apply unload_all_frame in Hu as ((_ & Hi & _) & _).
    rewrite set_lifecycle_other; [done|]. by rewrite Hi.
Qed.

(** [lifecycle_ok] holds of every new instance and is kept by [start]
    and [stop], for the receiver and for every other instance. *)
Lemma lifecycle_ok_new nm d ext (m : Machine W) :
  lifecycle_ok (new_Aether nm d ext m).1 (new_Aether nm d ext m).2.
Proof.
  unfold lifecycle_ok, new_Aether. simpl.
  rewrite list_lookup_total_middle; [done|]. simpl. done.
Qed.

Lemma lifecycle_ok_start fuel this (m : Machine W) r m' i :
  lifecycle_ok i m ->
  start call await fuel this m = Some (r, m') ->
  lifecycle_ok i m'.
Proof.
  intros Hok H. destruct (decide (i = this)) as [->|Hne].
  2:{ unfold lifecycle_ok. destruct (start_insts _ _ _ _ _ H) as [_ Hi].
      by rewrite Hi. }
  destruct (running (insts m !!! this)) eqn:Hr.
  { unfold start in H. rewrite Hr in H. by inversion H; subst. }
  destruct (start_inv _ _ _ _ _ H Hr)
    as (tree & cache & heap & order & m2 & r2 & Hb & Ho & Hl & Hres).
  apply load_all_frame in Hl as ((_ & Hi & _) & _).
  unfold lifecycle_ok.
  destruct r2; destruct Hres as [-> ->].
  - rewrite Hi. simpl.
    destruct (decide (this < length (insts m))) as [Hlt|Hge].
    + rewrite list_lookup_total_insert_eq; [done|]. simpl. eauto.
    + rewrite list_insert_ge; [lia|]. rewrite Hr. done.
  - destruct (context_after_reset this m2) as [_ Hrun].
    unfold isRunning in Hrun. rewrite Hrun. done.
  - rewrite Hi. simpl.
    destruct (decide (this < length (insts m))) as [Hlt|Hge].
    + rewrite list_lookup_total_insert_eq; [done|]. simpl. eauto.
    + rewrite list_insert_ge; [lia|]. rewrite Hr. done.
Qed.

Lemma lifecycle_ok_stop fuel this (m : Machine W) r m' i :
  lifecycle_ok i m ->
  stop call await fuel this m = Some (r, m') ->
  lifecycle_ok i m'.
Proof.
  intros Hok H. destruct (decide (i = this)) as [->|Hne].
  - pose proof (stop_not_running _ _ _ _ _ Hok H) as Hrun.
    unfold lifecycle_ok. unfold isRunning in Hrun. by rewrite Hrun.
  - unfold lifecycle_ok. by rewrite (stop_insts _ _ _ _ _ H i Hne).
Qed.

End Lifecycle.

(** [use] of a module instance leaves an edge to the plugin's definition
    in the definition of the instance it returns. *)
Lemma use_module_edge {W} this plugin options (m0 m : Machine W) p :
  use_module this plugin options m0 = Ok (p, m) ->
  exists u, u ∈ uses (defs m !!! def (insts m !!! p))
            /\ edge_def u = def (insts m0 !!! plugin).
Proof.
  unfold use_module. intros Hu.
  destruct (useScopeId (use_scope options) m0) as [scopeId m1] eqn:Hsc.
  assert (Hm1 : defs m1 = defs m0 /\ insts m1 = insts m0).
  { unfold useScopeId in Hsc. destruct (use_scope options) as [[s|y]|];
      try (inversion Hsc; subst; done).
    destruct (_ || _); [by inversion Hsc; subst|].
    destruct (String.eqb s "local"); by inversion Hsc; subst. }
  destruct Hm1 as [Hd1 Hi1].
  destruct (existsb _ _) eqn:Hex.
  - inversion Hu; subst p m. apply existsb_exists in Hex as (u & Hin & Hu').
    apply andb_true_iff in Hu' as [Hd _]. apply Nat.eqb_eq in Hd.
    exists u. rewrite Hd1 in Hin. rewrite Hd1 Hi1. split; [|done].
    by apply list_elem_of_In.
  - destruct (merge_extensions _ _ _ _) as [merged| |]; [|done|done].
    inversion Hu; subst p m; clear Hu.
    cbn [new_Aether fst snd insts defs set_defs set_insts].
    rewrite list_lookup_total_middle //.
    cbn [def]. rewrite list_lookup_total_middle //.
    cbn [uses]. eexists. split.
    + apply elem_of_app. right. apply list_elem_of_singleton. reflexivity.
    + done.
Qed.

(* ====================================================================== *)
(** ** Claims about the lifecycle state machine *)
(* ====================================================================== *)

Section LifecycleClaims.
Context {W : Type}.
Variable call : nat -> Value -> W -> Result Value * W.
Variable await : Value -> W -> Result Value * W.

(** C5.  When the load phase of [start] throws, [start] throws the same
    error, the instance is not running, it holds no runtime tree, and
    [context] throws again; a later [start] is not short-circuited: when it
    succeeds the instance is running with a runtime tree. *)
Theorem failed_start_resets fuel this (m : Machine W) e m' :
  start call await fuel this m = Some (Throw e, m') ->
  isRunning this m' = false
  /\ runtimeTree (insts m' !!! this) = None
  /\ context this m' = Throw (NotStarted (name (insts m !!! this)))
  /\ (exists tree cache heap order m2,
        buildTree fuel (defs m) (name (insts m !!! this)) (def (insts m !!! this))
          (IdSym (SymFresh (symbols m))) ([], nodes m) = Some (tree, (cache, heap))
        /\ lifecycleOrder fuel heap tree = Some order
        /\ load_all call await order
             (set_lifecycle this (Some tree) true
                (set_nodes (set_symbols m (S (symbols m))) heap)) = (Throw e, m2)
        /\ m' = set_lifecycle this None false m2)
  /\ (forall fuel2 m'', this < length (insts m) ->
        start call await fuel2 this m' = Some (Ok this, m'') ->
        isRunning this m'' = true
        /\ exists tree, runtimeTree (insts m'' !!! this) = Some tree
                        /\ context this m'' = Ok (callbackCtx (nodes m'' !!! tree))).
Proof.
  intros H.
  assert (Hr : running (insts m !!! this) = false).
  { destruct (running (insts m !!! this)) eqn:Hr; [|done].
    unfold start in H. rewrite Hr in H. done. }
  destruct (start_inv _ _ _ _ _ _ _ H Hr)
    as (tree & cache & heap & order & m2 & r2 & Hb & Ho & Hl & Hres).
  destruct r2 as [[]|e2|]; destruct Hres as [Heq ->]; [done| |done].
  inversion Heq; subst e2; clear Heq.
  pose proof Hl as Hfr. apply load_all_frame in Hfr as ((_ & Hi & _) & _).
  destruct (context_after_reset this m2) as [Hc Hrun].
  assert (Hname : name (insts m2 !!! this) = name (insts m !!! this)).
  { rewrite Hi. simpl. destruct (decide (this < length (insts m))) as [Hlt|Hge].
    - by rewrite list_lookup_total_insert_eq.
    - by rewrite list_insert_ge; [lia|]. }
  assert (Htree : runtimeTree (insts (set_lifecycle this None false m2) !!! this) = None).
  { destruct (decide (this < length (insts m2))) as [Hlt|Hge].
    - by rewrite set_lifecycle_same.
    - simpl. rewrite list_insert_ge; [lia|].
      rewrite list_lookup_total_alt lookup_ge_None_2; [lia|]. done. }
  split_and!; auto.
  - by rewrite Hc Hname.
  - exists tree, cache, heap, order, m2. auto.
  - intros fuel2 m'' Hlt Hs.
    assert (Hlen : this < length (insts (set_lifecycle this None false m2))).
    { simpl. rewrite length_insert Hi. simpl. by rewrite length_insert. }
    assert (Hok : lifecycle_ok this (set_lifecycle this None false m2)).
    { unfold lifecycle_ok. unfold isRunning in Hrun. by rewrite Hrun. }
    destruct (start_ok_running _ _ _ _ _ _ Hlen Hok Hs) as [Hr2 [t2 Ht2]].
    split; [done|]. exists t2. split; [done|].
    unfold context. by rewrite Hr2 Ht2.
Qed.

(** C10.  [start] on a parent changes no other instance: a child instance
    [c] that was composed into the parent [p] with [use] and is not running
    is still not running afterwards, and reading its [context] still
    throws.  The edge that [use] added points to the child's definition. *)
Theorem start_changes_only_the_receiver fuel (p0 c p : InstRef) options
    (m0 m m' : Machine W) r :
  use (PluginAether c) options p0 m0 = Ok (p, m) ->
  c <> p ->
  isRunning c m = false ->
  start call await fuel p m = Some (r, m') ->
  isRunning c m' = false
  /\ context c m' = Throw (NotStarted (name (insts m !!! c)))
  /\ (forall i, i <> p -> insts m' !!! i = insts m !!! i)
  /\ (exists u, u ∈ uses (defs m !!! def (insts m !!! p))
                /\ edge_def u = def (insts m0 !!! c)).
Proof.
  intros Hu Hne Hrun Hs.
  destruct (start_insts _ _ _ _ _ _ _ Hs) as [_ Hi].
  split_and!; auto.
  - unfold isRunning. by rewrite Hi.
  - unfold context. rewrite Hi; [done|]. unfold isRunning in Hrun. by rewrite Hrun.
  - simpl in Hu. eapply use_module_edge; eauto.
Qed.

End LifecycleClaims.

Lemma failed_start_resets_witness :
  exists m', start demo_call demo_await 5 demo_faulty_root demo_faulty_machine
             = Some (Throw (Thrown (VStr "boom")), m')
             /\ isRunning demo_faulty_root m' = false.
Proof.
  eexists. split; [vm_compute; reflexivity|].
  refine (proj1 (failed_start_resets demo_call demo_await 5 demo_faulty_root
                   demo_faulty_machine (Thrown (VStr "boom")) _ _)).
  vm_compute; reflexivity.
Defined.

Lemma start_changes_only_the_receiver_witness :
  use (PluginAether demo_child) no_options demo_parent demo_pair = Ok demo_composed
  /\ demo_child <> demo_composed.1
  /\ isRunning demo_child demo_composed.2 = false
  /\ exists r m',
       start demo_call demo_await 5 demo_composed.1 demo_composed.2 = Some (r, m')
       /\ isRunning demo_composed.1 m' = true
       /\ isRunning demo_child m' = false.
Proof.
  assert (Hu : use (PluginAether demo_child) no_options demo_parent demo_pair
               = Ok (demo_composed.1, demo_composed.2)) by (vm_compute; reflexivity).
  assert (Hne : demo_child <> demo_composed.1) by discriminate.
  assert (Hr : isRunning demo_child demo_composed.2 = false) by reflexivity.
  split; [exact Hu|]. split; [exact Hne|]. split; [exact Hr|].
  destruct (start demo_call demo_await 5 demo_composed.1 demo_composed.2)
    as [[r m']|] eqn:Hs.
  - exists r, m'. split; [reflexivity|]. split.
    + revert Hs. vm_compute. intros Hs. inversion Hs. reflexivity.
    + exact (proj1 (start_changes_only_the_receiver demo_call demo_await 5
                      demo_parent demo_child demo_composed.1 no_options demo_pair
                      demo_composed.2 m' r Hu Hne Hr Hs)).
  - vm_compute in Hs. discriminate.
Defined.

(* ====================================================================== *)
(** ** Claims about declarations: factories and redeclaration *)
(* ====================================================================== *)

(** The entry that a declaration in the [(key, value)] form pushes is a
    factory exactly when the value is a function, whatever the kind. *)
Lemma pushEntry_isFactory this_def d k v cfg forceStatic d' :
  pushEntry this_def d k v cfg forceStatic = Ok d' ->
  exists e, providers d' = providers d ++ [e]
            /\ kind e = cfg_kind cfg /\ key e = k /\ value e = v
            /\ isFactory e = Some (if forceStatic then false else is_function v)
            /\ mode e = Some (cfg_mode cfg).
Proof.
  unfold pushEntry. intros H.
  destruct (String.eqb k _); [done|].
  destruct (_ && _); [done|].
  inversion H; subst; clear H. simpl. eexists. split; [reflexivity|]. done.
Qed.

(** Every entry of a declaration in the object form is static. *)
Lemma pushEntries_object_form this_def d es cfg d' :
  pushEntries this_def d es cfg true = Ok d' ->
  exists new, providers d' = providers d ++ new
              /\ Forall (fun e => isFactory e = Some false) new
              /\ map (fun e => (key e, value e)) new = es.
Proof.
  revert d. induction es as [|[k v] es IH]; intros d H; simpl in H.
  - inversion H; subst. exists []. by rewrite app_nil_r.
  - destruct (pushEntry this_def d k v cfg true) as [d1| |] eqn:Hp; [|done|done].
    apply pushEntry_isFactory in Hp as (e & Hpe & Hk & Hky & Hv & Hf & _).
    apply IH in H as (new & Hn & Hall & Hmap).
    exists (e :: new). rewrite Hn Hpe -app_assoc. split; [done|].
    split; [by constructor|]. simpl. by rewrite Hky Hv Hmap.
Qed.

(** What the three assignments of an entry store, when the key is not
    [__proto__]. *)
Lemma storeEntry_plain e resolved l x p :
  key e <> "__proto__" ->
  storeEntry e resolved l x p
  = Some (pm_put l (kind e) (obj_set (key e) resolved (pm_get l (kind e))),
          (if export e
           then pm_put x (kind e) (obj_set (key e) resolved (pm_get x (kind e)))
           else x),
          (if export e && is_true (transitive e)
           then pm_put p (kind e) (obj_set (key e) resolved (pm_get p (kind e)))
           else p)).
Proof.
  intros Hk. unfold storeEntry. rewrite !obj_assign_plain //.
  destruct (export e); [|done]. by destruct (is_true (transitive e)).
Qed.

(** Whatever the key, the three assignments leave the other names and
    the other kind alone. *)
Lemma storeEntry_other e resolved l x p l' x' p' K k :
  storeEntry e resolved l x p = Some (l', x', p') ->
  K <> kind e \/ k <> key e ->
  obj_get k (pm_get l' K) = obj_get k (pm_get l K)
  /\ obj_get k (pm_get x' K) = obj_get k (pm_get x K)
  /\ obj_get k (pm_get p' K) = obj_get k (pm_get p K).
Proof.
  unfold storeEntry. intros H Hne.
  assert (Hput : forall (q : ProviderMaps) o,
            obj_assign (key e) resolved (pm_get q (kind e)) = Some o ->
            obj_get k (pm_get (pm_put q (kind e) o) K) = obj_get k (pm_get q K)).
  { intros q o Ho. destruct (kind_eqb_spec K (kind e)) as [->|HK].
    - rewrite pm_get_put_eq. destruct Hne as [|Hne]; [done|].
      by apply (obj_assign_other _ _ _ _ _ Ho).
    - by rewrite pm_get_put_ne. }
  destruct (obj_assign _ _ (pm_get l _)) as [l1|] eqn:Hl; [|done].
  destruct (export e).
  2:{ inversion H; subst. split_and!; auto. }
  destruct (obj_assign _ _ (pm_get x _)) as [x1|] eqn:Hx; [|done].
  destruct (is_true (transitive e)).
  2:{ inversion H; subst. split_and!; auto. }
  destruct (obj_assign _ _ (pm_get p _)) as [p1|] eqn:Hp; [|done].
  inversion H; subst. split_and!; auto.
Qed.

(** An entry that is not a factory is stored as it is, and no user
    function runs. *)
Lemma applyEntry_static {W} (call : nat -> Value -> W -> Result Value * W)
    e nm t (m : Machine W) t' m' :
  is_true (isFactory e) = false ->
  key e <> "__proto__" ->
  applyEntry call e nm t m = (Ok t', m') ->
  m' = m /\ obj_get (key e) (pm_get (t_local t') (kind e)) = Some (value e).
Proof.
  unfold applyEntry. intros Hf Hk H. rewrite Hf in H.
  destruct (_ && obj_in _ _); [done|].
  rewrite storeEntry_plain // in H.
  inversion H; subst; clear H. split; [done|].
  simpl. by rewrite pm_get_put_eq obj_get_set_eq.
Qed.

(** Evaluation: [state("k", f)] with a function [f].  The entry is marked
    as a factory, [start] calls [f], and [context.store.k] is what [f]
    returned, not [f]. *)
Lemma state_function_is_invoked :
  started_context demo_state_fn
  = Some (VObj [("decorator", VObj []); ("store", VObj [("k", VNum 42)])],
          [EvFactory "m" store "k" 7]).
Proof. vm_compute. reflexivity. Qed.

(** Evaluation: in [decorate({ a: f })] the function is stored as it is;
    in [state("k", f)] the function is called. *)
Lemma factory_called_outside_decorate_and_provide :
  started_context demo_bulk
  = Some (VObj [("a", VFun 7); ("decorator", VObj [("a", VFun 7)]);
                ("store", VObj [("k", VNum 42)])],
          [EvFactory "m" store "k" 7]).
Proof. vm_compute. reflexivity. Qed.

(** Evaluation: redeclaring with the options [{ mode: "override" }] alone.
    The object has neither [scope] nor [kind], so it is not taken for
    options, the mode stays [append], and the call throws the collision
    error. *)
Lemma override_alone_is_not_recognised :
  isOpts (options [("mode", VStr "override")]) = false
  /\ and_then demo_declared
       (fun '(i, m) =>
          decorate i [VStr "a"; VNum 2; options [("mode", VStr "override")]] m)
     = Throw (AlreadyDefined decorator "a").
Proof. split; vm_compute; reflexivity. Qed.

(* ====================================================================== *)
(** ** The tree builder *)
(* ====================================================================== *)

Section Traversals.
Context {A B S : Type}.

Lemma map_st_mono (f g : A -> S -> option (B * S)) xs st r :
  (forall x st r, x ∈ xs -> f x st = Some r -> g x st = Some r) ->
  map_st f xs st = Some r -> map_st g xs st = Some r.
Proof.
  revert st r. induction xs as [|x xs IH]; intros st r Hfg H; simpl in *; [done|].
  destruct (f x st) as [[y st1]|] eqn:Hf; [|done].
  rewrite (Hfg x st (y, st1)); [left|done|].
  destruct (map_st f xs st1) as [[ys st2]|] eqn:Hm; [|done].
  rewrite (IH st1 (ys, st2)); [|done|done].
  intros x' st' r' Hin. apply Hfg. by right.
Qed.

Lemma map_st_total (f : A -> S -> option (B * S)) xs st :
  (forall x st, x ∈ xs -> is_Some (f x st)) -> is_Some (map_st f xs st).
Proof.
  revert st. induction xs as [|x xs IH]; intros st Hf; simpl; [done|].
  destruct (Hf x st) as [[y st1] ->]; [left|].
  destruct (IH st1) as [[ys st2] ->]; [|done].
  intros x' st' Hin. apply Hf. by right.
Qed.

Lemma each_st_mono (f g : A -> S -> option S) xs st r :
  (forall x st r, x ∈ xs -> f x st = Some r -> g x st = Some r) ->
  each_st f xs st = Some r -> each_st g xs st = Some r.
Proof.
  revert st r. induction xs as [|x xs IH]; intros st r Hfg H; simpl in *; [done|].
  destruct (f x st) as [st1|] eqn:Hf; [|done].
  rewrite (Hfg x st st1); [left|done|].
  apply IH; [|done]. intros x' st' r' Hin. apply Hfg. by right.
Qed.

End Traversals.

Lemma cache_get_set_eq d s n c : cache_get d s (cache_set d s n c) = Some n.
Proof.
  assert (Hrefl : Nat.eqb d d && scope_eqb s s = true).
  { rewrite Nat.eqb_refl. by destruct (scope_eqb_spec s s). }
  induction c as [|[[d' s'] n'] c IH]; simpl.
  - by rewrite Hrefl.
  - destruct (Nat.eqb d d' && scope_eqb s s') eqn:E; simpl.
    + by rewrite Hrefl.
    + by rewrite E.
Qed.

Lemma buildTree_mono fuel fuel' dh nm d s st r :
  fuel <= fuel' ->
  buildTree fuel dh nm d s st = Some r -> buildTree fuel' dh nm d s st = Some r.
Proof.
  revert fuel' nm d s st r.
  induction fuel as [|fuel IH]; intros fuel' nm d s st r Hle H; [done|].
  destruct fuel' as [|fuel']; [lia|]. simpl in *.
  destruct (cache_get d s st.1); [done|].
  destruct (map_st _ _ st) as [[cs [c1 h1]]|] eqn:Hm; [|done].
  rewrite (map_st_mono _
             (fun u => buildTree fuel' dh (edge_name u) (edge_def u) (edge_scope u))
             _ _ _ (fun u st' r' _ => IH fuel' _ _ _ st' r' ltac:(lia)) Hm).
  exact H.
Qed.

Lemma visit_mono fuel fuel' heap n st r :
  fuel <= fuel' ->
  visit fuel heap n st = Some r -> visit fuel' heap n st = Some r.
Proof.
  revert fuel' n st r.
  induction fuel as [|fuel IH]; intros fuel' n st r Hle H; [done|].
  destruct fuel' as [|fuel']; [lia|]. simpl in *.
  destruct (existsb _ _); [done|].
  destruct (each_st _ _ _) as [[vis ord]|] eqn:He; [|done].
  rewrite (each_st_mono _ (visit fuel' heap) _ _ _
             (fun c st' r' _ => IH fuel' c st' r' ltac:(lia)) He).
  exact H.
Qed.

Lemma lifecycleOrder_mono fuel fuel' heap n order :
  fuel <= fuel' ->
  lifecycleOrder fuel heap n = Some order -> lifecycleOrder fuel' heap n = Some order.
Proof.
  unfold lifecycleOrder. intros Hle H.
  destruct (visit fuel heap n ([], [])) as [[vis ord]|] eqn:Hv; [|done].
  by rewrite (visit_mono _ _ _ _ _ _ Hle Hv).
Qed.

(** The order depends on the [children] fields only. *)
Lemma visit_ext fuel (h1 h2 : list ModuleRuntimeContext) n st :
  (forall k, children (h1 !!! k) = children (h2 !!! k)) ->
  visit fuel h1 n st = visit fuel h2 n st.
Proof.
  intros Hc. revert n st. induction fuel as [|fuel IH]; intros n st; [done|].
  simpl. destruct (existsb _ _); [done|]. rewrite Hc.
  assert (He : forall cs st', each_st (visit fuel h1) cs st' = each_st (visit fuel h2) cs st').
  { induction cs as [|c cs IHc]; intros st'; simpl; [done|].
    rewrite IH. destruct (visit fuel h2 c st'); [apply IHc|done]. }
  by rewrite He.
Qed.

(** Whenever the builder returns, the node it returns is the one the
    cache holds for the pair it was asked for. *)
Lemma buildTree_cached fuel dh nm d s st n c' h' :
  buildTree fuel dh nm d s st = Some (n, (c', h')) ->
  cache_get d s c' = Some n.
Proof.
  destruct fuel as [|fuel]; [done|]. simpl.
  destruct (cache_get d s st.1) as [ex|] eqn:Hc.
  - intros H. inversion H; subst. done.
  - destruct (map_st _ _ st) as [[cs [c1 h1]]|]; [|done].
    intros H. inversion H; subst. apply cache_get_set_eq.
Qed.

(** On an acyclic heap the builder returns, with fuel above the rank. *)
Lemma buildTree_total dh (rank : DefRef -> nat) :
  (forall d u, u ∈ uses (dh !!! d) -> rank (edge_def u) < rank d) ->
  forall fuel nm d s st, rank d < fuel -> is_Some (buildTree fuel dh nm d s st).
Proof.
  intros Hrank. induction fuel as [|fuel IH]; intros nm d s st Hlt; [lia|].
  simpl. destruct (cache_get d s st.1); [done|].
  destruct (map_st_total
              (fun u => buildTree fuel dh (edge_name u) (edge_def u) (edge_scope u))
              (uses (dh !!! d)) st) as [[cs [c1 h1]] ->]; [|done].
  intros u st' Hin. apply IH. specialize (Hrank d u Hin). lia.
Qed.

(** On the two-module cycle the builder runs out of any fuel. *)
Lemma buildTree_cycle_diverges fuel :
  forall nm d st,
    d < 2 ->
    cache_get 0 GLOBAL_SCOPE st.1 = None ->
    cache_get 1 GLOBAL_SCOPE st.1 = None ->
    buildTree fuel demo_cycle nm d GLOBAL_SCOPE st = None.
Proof.
  induction fuel as [|fuel IH]; intros nm d st Hd H0 H1; [done|].
  simpl. destruct d as [|[|d]]; [| |lia].
  - rewrite H0. simpl. rewrite IH; auto.
  - rewrite H1. simpl. rewrite IH; auto.
Qed.

(** C8 (as amended).  Whenever the builder returns a node, that node is
    in the cache under the pair it was built for; and on every acyclic
    definition heap the builder does return, for every definition, scope
    identity, cache and node heap. *)
Theorem buildTree_caches_and_returns_when_acyclic dh :
  acyclic dh ->
  (forall fuel nm d s st n c' h',
      buildTree fuel dh nm d s st = Some (n, (c', h')) -> cache_get d s c' = Some n)
  /\ (forall nm d s st,
        exists fuel n c' h',
          buildTree fuel dh nm d s st = Some (n, (c', h'))
          /\ cache_get d s c' = Some n).
Proof.
  intros [rank Hrank]. split.
  - intros fuel nm d s st n c' h'. apply buildTree_cached.
  - intros nm d s st.
    destruct (buildTree_total dh rank Hrank (S (rank d)) nm d s st)
      as [[n [c' h']] Hb]; [lia|].
    exists (S (rank d)), n, c', h'. split; [done|].
    eapply buildTree_cached; eauto.
Qed.

Lemma demo_machine_acyclic : acyclic (defs demo_machine).
Proof.
  exists (fun d => d). intros d u H. apply list_elem_of_In in H.
  do 9 (destruct d as [|d]; [simpl in H; intuition (subst; simpl; lia)|]).
  simpl in H. done.
Qed.

Lemma buildTree_caches_and_returns_when_acyclic_witness :
  acyclic (defs demo_machine)
  /\ exists fuel n c' h',
       buildTree fuel (defs demo_machine) "app" 8 (IdSym (SymFresh 0)) ([], [])
       = Some (n, (c', h'))
       /\ cache_get 8 (IdSym (SymFresh 0)) c' = Some n.
Proof.
  split; [exact demo_machine_acyclic|].
  exact (proj2 (buildTree_caches_and_returns_when_acyclic (defs demo_machine)
                  demo_machine_acyclic) "app" 8 (IdSym (SymFresh 0)) ([], [])).
Defined.

(** C8 (counterexample).  On the heap where module 0 uses module 1 and
    module 1 uses module 0, no amount of fuel lets the builder return: the
    pair (module 0, global scope) is entered again before it is cached.
    [start] on an instance of module 0 does not return either. *)
Lemma cyclic_graph_is_reentered :
  (forall fuel st,
      cache_get 0 GLOBAL_SCOPE st.1 = None ->
      cache_get 1 GLOBAL_SCOPE st.1 = None ->
      buildTree (S (S fuel)) demo_cycle "a" 0 GLOBAL_SCOPE st
      = match buildTree fuel demo_cycle "a" 0 GLOBAL_SCOPE st with
        | None => None
        | Some (c, (cache1, heap1)) =>
            Some (S (length heap1),
                  (cache_set 0 GLOBAL_SCOPE (S (length heap1))
                     (cache_set 1 GLOBAL_SCOPE (length heap1) cache1),
                   (heap1 ++ [fresh_node "b" 1 [c]]) ++ [fresh_node "a" 0 [length heap1]]))
        end)
  /\ ~ (exists fuel r,
          buildTree fuel demo_cycle "a" 0 (IdSym (SymFresh 0)) ([], []) = Some r)
  /\ (forall fuel, start demo_call demo_await fuel 0 demo_cycle_machine = None).
Proof.
  assert (Hroot : forall fuel,
             buildTree fuel demo_cycle "a" 0 (IdSym (SymFresh 0)) ([], []) = None).
  { intros [|fuel]; [done|]. simpl.
    rewrite (buildTree_cycle_diverges fuel "b" 1 ([], [])); [lia|done|done|done]. }
  split_and!.
  - intros fuel st H0 H1. simpl. rewrite H0 H1. unfold edge_scope. simpl.
    destruct (buildTree fuel demo_cycle "a" 0 GLOBAL_SCOPE st) as [[c [c1 h1]]|]; [|done].
    simpl. by rewrite length_app Nat.add_1_r.
  - intros (fuel & r & H). by rewrite Hroot in H.
  - intros fuel. unfold start. simpl. by rewrite Hroot.
Qed.

(* ====================================================================== *)
(** ** Visibility of a key through provider resolution *)
(* ====================================================================== *)

Section Visibility.
Context {W : Type}.
Variable call : nat -> Value -> W -> Result Value * W.
Variable K : ProviderKind.
Variable k : string.

Lemma declares_spec e : declares K k e = true <-> kind e = K /\ key e = k.
Proof.
  unfold declares. rewrite andb_true_iff.
  destruct (kind_eqb_spec (kind e) K), (String.eqb_spec (key e) k); intuition congruence.
Qed.

Lemma has_put_other (p : ProviderMaps) K' o :
  K' <> K -> has k (pm_get (pm_put p K' o) K) = has k (pm_get p K).
Proof. intros Hne. by rewrite pm_get_put_ne. Qed.

Hypothesis k_plain : k <> "__proto__".

Lemma applyEntry_visibility e nm t (m : Machine W) t' m' :
  applyEntry call e nm t m = (Ok t', m') ->
  visibility K k t' = declare_step K k (visibility K k t) e.
Proof.
  unfold applyEntry. intros H.
  destruct (_ && obj_in _ _); [done|].
  set (exported0 := match mode_of e with
                    | override => pm_put (t_exported t) (kind e)
                                    (obj_delete (key e) (pm_get (t_exported t) (kind e)))
                    | append => t_exported t end) in *.
  set (propagated0 := match mode_of e with
                      | override => pm_put (t_propagated t) (kind e)
                                      (obj_delete (key e) (pm_get (t_propagated t) (kind e)))
                      | append => t_propagated t end) in *.
  assert (Hres : exists resolved l x p,
            storeEntry e resolved (t_local t) exported0 propagated0 = Some (l, x, p)
            /\ t_local t' = l /\ t_exported t' = x /\ t_propagated t' = p).
  { destruct (is_true (isFactory e)).
    - destruct (value e); try done.
      destruct (call f _ (world m)) as [[rv|err|] w']; [|done|done].
      destruct (storeEntry _ _ _ _ _) as [[[l x] p]|] eqn:Hs; [|done].
      inversion H; subst. by exists rv, l, x, p.
    - destruct (storeEntry _ _ _ _ _) as [[[l x] p]|] eqn:Hs; [|done].
      inversion H; subst. by exists (value e), l, x, p. }
  destruct Hres as (resolved & l & x & p & Hs & Hl & Hx & Hp). clear H.
  unfold declare_step, visibility. rewrite Hl Hx Hp.
  destruct (declares K k e) eqn:Hd.
  - apply declares_spec in Hd as [HK Hk].
    rewrite storeEntry_plain in Hs; [by rewrite Hk|].
    inversion Hs; subst l x p; clear Hs. subst exported0 propagated0.
    unfold keeps. rewrite HK Hk. f_equal.
    + by rewrite pm_get_put_eq has_set String.eqb_refl.
    + destruct (mode_of e), (export e);
        rewrite ?pm_get_put_eq ?has_set ?has_delete ?String.eqb_refl //.
    + destruct (mode_of e), (export e), (is_true (transitive e)); simpl;
        rewrite ?pm_get_put_eq ?has_set ?has_delete ?String.eqb_refl //.
  - assert (Hne : K <> kind e \/ k <> key e).
    { destruct (kind_eqb_spec (kind e) K) as [HK|HK]; [|left; congruence].
      destruct (String.eqb_spec (key e) k) as [Hk|Hk]; [|right; congruence].
      exfalso. assert (declares K k e = true) by (by apply declares_spec).
      congruence. }
    destruct (storeEntry_other _ _ _ _ _ _ _ _ K k Hs Hne) as (E1 & E2 & E3).
    unfold has. rewrite E1 E2 E3. subst exported0 propagated0. f_equal.
    + destruct (mode_of e); [done|].
      destruct (kind_eqb_spec K (kind e)) as [->|HK].
      * rewrite pm_get_put_eq obj_get_delete_ne //. by destruct Hne.
      * by rewrite pm_get_put_ne.
    + destruct (mode_of e); [done|].
      destruct (kind_eqb_spec K (kind e)) as [->|HK].
      * rewrite pm_get_put_eq obj_get_delete_ne //. by destruct Hne.
      * by rewrite pm_get_put_ne.
Qed.

Lemma applyEntries_visibility es nm t (m : Machine W) t' m' :
  applyEntries call es nm t m = (Ok t', m') ->
  visibility K k t' = fold_left (declare_step K k) es (visibility K k t).
Proof.
  revert t m. induction es as [|e es IH]; intros t m H; simpl in H.
  - by inversion H; subst.
  - destruct (applyEntry call e nm t m) as [[t1|err|] m1] eqn:He; [|done|done].
    simpl. rewrite -(applyEntry_visibility _ _ _ _ _ _ He). eauto.
Qed.

Lemma importEntries_visibility K' cn es t t' :
  importEntries K' cn es t = Ok t' ->
  visibility K k t'
  = {| in_local := (kind_eqb K' K && has k es) || in_local (visibility K k t);
       in_exported := in_exported (visibility K k t);
       in_propagated := in_propagated (visibility K k t) |}.
Proof.
  revert t. induction es as [|[ky v] es IH]; intros t H; simpl in H.
  - inversion H; subst. by rewrite andb_false_r.
  - destruct (obj_in ky _) eqn:Hin; [done|].
    rewrite (obj_assign_not_in _ _ _ Hin) in H.
    apply IH in H. rewrite H. unfold visibility. simpl. f_equal.
    destruct (kind_eqb_spec K' K) as [->|HK]; simpl.
    + rewrite pm_get_put_eq has_set. unfold has at 3. simpl.
      destruct (String.eqb k ky); simpl; [by rewrite orb_true_r|done].
    + by rewrite pm_get_put_ne.
Qed.

Lemma propagateKind_visibility child t K' t' :
  propagateKind child t K' = Some t' ->
  visibility K k t'
  = if kind_eqb K' K
    then {| in_local := in_local (visibility K k t);
            in_exported := has k (pm_get (propagatedProviders child) K)
                           || in_exported (visibility K k t);
            in_propagated := has k (pm_get (propagatedProviders child) K)
                             || in_propagated (visibility K k t) |}
    else visibility K k t.
Proof.
  unfold propagateKind. intros H.
  destruct (Object_assign (pm_get (t_exported t) K') _) as [x|] eqn:Hx; [|done].
  destruct (Object_assign (pm_get (t_propagated t) K') _) as [p|] eqn:Hp; [|done].
  inversion H; subst; clear H. unfold visibility. simpl.
  destruct (kind_eqb_spec K' K) as [->|HK].
  - rewrite !pm_get_put_eq.
    by rewrite (Object_assign_plain _ _ _ _ k_plain Hx)
               (Object_assign_plain _ _ _ _ k_plain Hp).
  - by rewrite !pm_get_put_ne.
Qed.

Lemma importChild_visibility child edge t t' :
  importChild child edge t = Ok t' ->
  visibility K k t'
  = import_step (passes_on edge) (node_visibility K k child) (visibility K k t).
Proof.
  unfold importChild. intros H.
  destruct (importEntries decorator _ _ t) as [t1| |] eqn:H1; [|done|done].
  destruct (importEntries store _ _ t1) as [t2| |] eqn:H2; [|done|done].
  apply importEntries_visibility in H1, H2.
  assert (Hl : visibility K k t2
               = {| in_local := has k (pm_get (exportedProviders child) K)
                                || in_local (visibility K k t);
                    in_exported := in_exported (visibility K k t);
                    in_propagated := in_propagated (visibility K k t) |}).
  { rewrite H2 H1. destruct K; simpl; f_equal; by rewrite ?orb_false_r. }
  assert (Hprop : forall t3, propagateKinds child PROVIDER_KINDS t2 = Some t3 ->
            visibility K k t3
            = {| in_local := in_local (visibility K k t2);
                 in_exported := has k (pm_get (propagatedProviders child) K)
                                || in_exported (visibility K k t2);
                 in_propagated := has k (pm_get (propagatedProviders child) K)
                                  || in_propagated (visibility K k t2) |}).
  { intros t3. simpl.
    destruct (propagateKind child t2 decorator) as [ta|] eqn:Ha; [|done].
    destruct (propagateKind child ta store) as [tb|] eqn:Hb; [|done].
    intros Heq; inversion Heq; subst tb; clear Heq.
    apply propagateKind_visibility in Ha, Hb. rewrite Hb Ha. by destruct K. }
  unfold import_step, passes_on.
  destruct (edge_transitive edge) as [[|]|].
  - destruct (propagateKinds _ _ _) as [t3|] eqn:Hp; [|done].
    inversion H; subst t3; clear H. rewrite (Hprop _ eq_refl) Hl. done.
  - inversion H; subst. by rewrite Hl.
  - destruct (propagateKinds _ _ _) as [t3|] eqn:Hp; [|done].
    inversion H; subst t3; clear H. rewrite (Hprop _ eq_refl) Hl. done.
Qed.

End Visibility.

(* ====================================================================== *)
(** ** Chains of modules *)
(* ====================================================================== *)

Lemma fresh_chain_cons heap base d rest :
  fresh_chain heap base (d :: rest)
  <-> (base + length rest < length heap
       /\ exists nm,
            heap !!! (base + length rest)
            = fresh_node nm d (match rest with [] => [] | _ => [base + length rest - 1] end))
      /\ fresh_chain heap base rest.
Proof. done. Qed.

Lemma fresh_chain_app heap extra base ds :
  fresh_chain heap base ds -> fresh_chain (heap ++ extra) base ds.
Proof.
  induction ds as [|d rest IH]; simpl; [done|].
  intros [[Hlt [nm Hn]] Hrest]. split; [|by apply IH].
  split; [rewrite length_app; lia|].
  exists nm. by rewrite lookup_total_app_l.
Qed.

(** The builder on a chain, from an empty cache: the nodes are appended
    leaf first and nothing is shared. *)
Lemma buildTree_chain dh ds :
  chain dh ds ->
  forall fuel nm s h,
    length ds <= fuel ->
    exists c' new,
      buildTree fuel dh nm (hd 0 ds) s ([], h)
      = Some (length h + length ds - 1, (c', h ++ new))
      /\ length new = length ds
      /\ fresh_chain (h ++ new) (length h) ds.
Proof.
  induction 1 as [d Hu|d e d' rest Hu He Hch IH]; intros fuel nm s h Hfuel.
  - destruct fuel as [|fuel]; [simpl in Hfuel; lia|].
    simpl. rewrite Hu. simpl.
    exists (cache_set d s (length h) []), [fresh_node nm d []].
    split; [do 3 f_equal; lia|]. split; [done|]. simpl. split; [|done].
    split; [rewrite length_app; simpl; lia|].
    exists nm. rewrite Nat.add_0_r. by rewrite list_lookup_total_middle.
  - destruct fuel as [|fuel]; [simpl in Hfuel; lia|].
    simpl in Hfuel.
    destruct (IH fuel (edge_name e) (edge_scope e) h) as (c1 & new1 & Hb & Hlen & Hfr);
      [simpl; lia|].
    cbn [hd] in Hb. subst d'.
    exists (cache_set d s (length (h ++ new1)) c1),
           (new1 ++ [fresh_node nm d [length h + length rest]]).
    assert (Hl1 : length (h ++ new1) = length h + S (length rest))
      by (rewrite length_app Hlen; done).
    split_and!.
    + cbn [hd buildTree fst cache_get]. rewrite Hu. cbn [map_st]. rewrite Hb.
      rewrite Hl1. simpl length. rewrite app_assoc.
      replace (length h + S (length rest) - 1) with (length h + length rest) by lia.
      replace (length h + S (S (length rest)) - 1) with (length h + S (length rest)) by lia.
      done.
    + rewrite length_app Hlen. simpl. lia.
    + apply fresh_chain_cons. split.
      * split; [rewrite !length_app Hlen; simpl; lia|].
        exists nm. rewrite app_assoc.
        rewrite list_lookup_total_middle; [rewrite Hl1; simpl; lia|].
        do 2 f_equal. simpl. lia.
      * rewrite app_assoc. by apply fresh_chain_app.
Qed.

(** The traversal on a chain: the nodes in heap order, leaf first. *)
Lemma visit_chain heap base ds :
  ds <> [] ->
  fresh_chain heap base ds ->
  forall fuel visited order,
    length ds <= fuel ->
    (forall v, v ∈ visited -> base + length ds <= v) ->
    visit fuel heap (base + length ds - 1) (visited, order)
    = Some (seq base (length ds) ++ visited, order ++ seq base (length ds)).
Proof.
  induction ds as [|d rest IH]; [done|]. intros _ [[Hlt [nm Hn]] Hrest] fuel visited order Hfuel Hvis.
  destruct fuel as [|fuel]; [simpl in Hfuel; lia|].
  simpl length. replace (base + S (length rest) - 1) with (base + length rest) by lia.
  cbn [visit fst snd].
  assert (Hnot : existsb (Nat.eqb (base + length rest)) visited = false).
  { apply not_true_is_false. intros Hex. apply existsb_exists in Hex as (v & Hin & Hv).
    apply Nat.eqb_eq in Hv. subst v. apply list_elem_of_In in Hin.
    specialize (Hvis _ Hin). simpl in Hvis. lia. }
  rewrite Hnot Hn. cbn [children fresh_node].
  destruct rest as [|d' rest'].
  - simpl. rewrite Nat.add_0_r. done.
  - cbn [each_st].
    replace (base + length (d' :: rest') - 1) with (base + length (d' :: rest') - 1) by done.
    rewrite (IH ltac:(done) Hrest fuel (base + length (d' :: rest') :: visited) order).
    + simpl in Hfuel |- *. lia.
    + intros v Hv. apply elem_of_cons in Hv as [->|Hv]; [lia|].
      specialize (Hvis _ Hv). simpl in Hvis |- *. lia.
    + f_equal. f_equal.
      * change (seq base (length (d :: d' :: rest')))
          with (seq base (S (length (d' :: rest')))).
        rewrite seq_S -app_assoc. done.
      * change (seq base (length (d :: d' :: rest')))
          with (seq base (S (length (d' :: rest')))).
        rewrite seq_S -app_assoc. done.
Qed.

Lemma lifecycleOrder_chain heap base ds fuel :
  ds <> [] ->
  fresh_chain heap base ds ->
  length ds <= fuel ->
  lifecycleOrder fuel heap (base + length ds - 1) = Some (seq base (length ds)).
Proof.
  intros Hne Hfr Hfuel. unfold lifecycleOrder.
  rewrite (visit_chain heap base ds Hne Hfr fuel [] [] Hfuel); [|done].
  intros v Hv. by apply elem_of_nil in Hv.
Qed.

Lemma loaded_chain_cons dh K k heap base d rest :
  loaded_chain dh K k heap base (d :: rest)
  <-> (node_visibility K k (heap !!! (base + length rest))
         = chain_visibility dh K k (d :: rest)
       /\ ctx_def (heap !!! (base + length rest)) = d
       /\ callbackCtx (heap !!! (base + length rest))
          = merged_context (ctx_providers (heap !!! (base + length rest))))
      /\ loaded_chain dh K k heap base rest.
Proof. done. Qed.

Lemma loaded_chain_ext dh K k (h1 h2 : list ModuleRuntimeContext) base ds :
  (forall j, j < length ds -> h2 !!! (base + j) = h1 !!! (base + j)) ->
  loaded_chain dh K k h1 base ds -> loaded_chain dh K k h2 base ds.
Proof.
  induction ds as [|d rest IH]; [done|]. intros Hkeep.
  rewrite !loaded_chain_cons. intros [(Hv & Hd & Hc) Hrest]. split.
  - rewrite Hkeep; [simpl; lia|]. done.
  - apply IH; [|done]. intros j Hj. apply Hkeep. simpl. lia.
Qed.

Section ChainLoad.
Context {W : Type}.
Variable call : nat -> Value -> W -> Result Value * W.
Variable await : Value -> W -> Result Value * W.

Lemma load_all_app o1 o2 (m : Machine W) :
  load_all call await (o1 ++ o2) m
  = match load_all call await o1 m with
    | (Ok _, m1) => load_all call await o2 m1
    | (Throw e, m1) => (Throw e, m1)
    | (Unmodelled, m1) => (Unmodelled, m1)
    end.
Proof.
  revert m. induction o1 as [|n o1 IH]; intros m; simpl; [done|].
  destruct (initModule call n m) as [[[]|e|] m1]; [|done|done].
  destruct (run_callbacks call await EvLoad n _ m1) as [[[]|e|] m2]; [|done|done].
  apply IH.
Qed.

(** Initialising a node the builder has just made. *)
Lemma initModule_fresh n nm d cs (m : Machine W) m' :
  n < length (nodes m) ->
  nodes m !!! n = fresh_node nm d cs ->
  initModule call n m = (Ok tt, m') ->
  exists t1 t2 m1,
    importChildren (nodes m) cs (uses (defs m !!! d)) no_tables = Ok t1
    /\ applyEntries call (providers (defs m !!! d)) nm t1 m = (Ok t2, m1)
    /\ nodes m' !!! n
       = {| ctx_name := nm; ctx_def := d; initialized := true;
            ctx_providers := t_local t2; exportedProviders := t_exported t2;
            propagatedProviders := t_propagated t2; providerOrigins := t_origins t2;
            callbackCtx := merged_context (t_local t2); children := cs |}.
Proof.
  intros Hlt Hn. unfold initModule. rewrite Hn. cbn [initialized fresh_node ctx_def
    children ctx_providers exportedProviders propagatedProviders providerOrigins ctx_name].
  fold no_tables.
  destruct (importChildren _ _ _ _) as [t1| |] eqn:Hi; [|done|done].
  destruct (applyEntries call _ nm t1 m) as [[t2| |] m1] eqn:Ha; [|done|done].
  intros H. inversion H; subst; clear H.
  exists t1, t2, m1. split; [done|]. split; [done|].
  apply applyEntries_frame in Ha as [_ Hnodes].
  cbn [nodes set_nodes]. rewrite list_lookup_total_insert_eq; [by rewrite Hnodes|]. done.
Qed.

Lemma visibility_no_tables K k : visibility K k no_tables = nowhere.
Proof. by destruct K. Qed.

Lemma import_step_nowhere through : import_step through nowhere nowhere = nowhere.
Proof. by destruct through. Qed.

(** The load phase on a chain: each node ends with the visibility that
    the definitions give. *)
Lemma load_chain K k dh ds :
  k <> "__proto__" ->
  chain dh ds ->
  forall base (m m' : Machine W),
    defs m = dh ->
    fresh_chain (nodes m) base ds ->
    load_all call await (seq base (length ds)) m = (Ok tt, m') ->
    loaded_chain dh K k (nodes m') base ds.
Proof.
  intros Hk.
  induction 1 as [d Hu|d e d' rest Hu He Hch IH]; intros base m m' Hdefs Hfr Hl.
  - destruct Hfr as [[Hlt [nm Hn]] _]. simpl in Hlt, Hn, Hl |- *.
    rewrite Nat.add_0_r in Hlt Hn |- *.
    destruct (initModule call base m) as [[[]|err|] m1] eqn:Hi; [|done|done].
    destruct (run_callbacks call await EvLoad base _ m1) as [[[]|err|] m2] eqn:Hr;
      [|done|done].
    inversion Hl; subst m2; clear Hl.
    apply run_callbacks_frame in Hr as [_ Hnodes]. rewrite Hnodes.
    destruct (initModule_fresh _ _ _ _ _ _ Hlt Hn Hi) as (t1 & t2 & m0 & Him & Hap & Hnode).
    rewrite Hdefs Hu in Him. simpl in Him. inversion Him; subst t1; clear Him.
    rewrite Hdefs in Hap.
    apply (applyEntries_visibility call K k Hk) in Hap.
    rewrite Hnode. split; [|done]. split; [|done].
    unfold node_visibility. cbn [ctx_providers exportedProviders propagatedProviders].
    change (visibility K k t2 = chain_visibility dh K k [d]).
    rewrite Hap visibility_no_tables. simpl. by rewrite import_step_nowhere.
  - destruct Hfr as [[Hlt [nm Hn]] Hrest].
    change (length (d :: d' :: rest)) with (S (length (d' :: rest))) in Hl.
    rewrite seq_S load_all_app in Hl.
    destruct (load_all call await (seq base (length (d' :: rest))) m)
      as [[[]|err|] m1] eqn:Hl1; [|done|done].
    pose proof (IH base m m1 Hdefs Hrest Hl1) as Hloaded.
    apply load_all_frame in Hl1 as ((Hd1 & _) & Hlen1 & Hsame1 & _).
    assert (Hn1 : nodes m1 !!! (base + length (d' :: rest))
                  = fresh_node nm d [base + length (d' :: rest) - 1]).
    { rewrite Hsame1; [|done]. intros Hin. apply list_elem_of_In, in_seq in Hin. lia. }
    cbn [load_all] in Hl.
    destruct (initModule call (base + length (d' :: rest)) m1)
      as [[[]|err|] m2] eqn:Hi; [|done|done].
    destruct (run_callbacks call await EvLoad _ _ m2) as [[[]|err|] m3] eqn:Hr;
      [|done|done].
    inversion Hl; subst m3; clear Hl.
    apply run_callbacks_frame in Hr as [_ Hnodes]. rewrite Hnodes.
    assert (Hlt1 : base + length (d' :: rest) < length (nodes m1)) by (rewrite Hlen1; done).
    destruct (initModule_fresh _ _ _ _ _ _ Hlt1 Hn1 Hi) as (t1 & t2 & m0 & Him & Hap & Hnode).
    apply initModule_frame in Hi as (_ & _ & Hsame2 & _).
    rewrite Hd1 Hdefs Hu in Him. cbn [importChildren] in Him.
    destruct (importChild _ e no_tables) as [t1'| |] eqn:Hic; [|done|done].
    inversion Him; subst t1'; clear Him.
    apply (importChild_visibility K k Hk) in Hic.
    rewrite Hd1 Hdefs in Hap. apply (applyEntries_visibility call K k Hk) in Hap.
    apply loaded_chain_cons. split.
    + rewrite Hnode. split; [|done].
      unfold node_visibility. cbn [ctx_providers exportedProviders propagatedProviders].
      change (visibility K k t2 = chain_visibility dh K k (d :: d' :: rest)).
      rewrite Hap Hic visibility_no_tables.
      cbn [chain_visibility]. unfold first_edge_passes. rewrite Hu.
      apply loaded_chain_cons in Hloaded as [(Hv & _) _].
      replace (base + length (d' :: rest) - 1) with (base + length rest)
        by (simpl; lia).
      by rewrite Hv.
    + apply (loaded_chain_ext dh K k (nodes m1)); [|done].
      intros j Hj. apply Hsame2. lia.
Qed.

End ChainLoad.

Section ChainStart.
Context {W : Type}.
Variable call : nat -> Value -> W -> Result Value * W.
Variable await : Value -> W -> Result Value * W.

Lemma lifecycleOrder_ext fuel (h1 h2 : list ModuleRuntimeContext) n :
  (forall k, children (h1 !!! k) = children (h2 !!! k)) ->
  lifecycleOrder fuel h1 n = lifecycleOrder fuel h2 n.
Proof. intros Hc. unfold lifecycleOrder. by rewrite (visit_ext fuel h1 h2 n _ Hc). Qed.

(** [start] on the root of a chain, with fuel for its length: the load
    phase runs over the nodes of the chain, leaf first. *)
Lemma start_chain fuel this (m : Machine W) ds :
  chain (defs m) ds ->
  hd 0 ds = def (insts m !!! this) ->
  running (insts m !!! this) = false ->
  length ds <= fuel ->
  exists new r2 m2,
    fresh_chain (nodes m ++ new) (length (nodes m)) ds
    /\ length new = length ds
    /\ lifecycleOrder fuel (nodes m ++ new) (length (nodes m) + length ds - 1)
       = Some (seq (length (nodes m)) (length ds))
    /\ load_all call await (seq (length (nodes m)) (length ds))
         (set_lifecycle this (Some (length (nodes m) + length ds - 1)) true
            (set_nodes (set_symbols m (S (symbols m))) (nodes m ++ new))) = (r2, m2)
    /\ start call await fuel this m
       = Some (match r2 with
               | Ok _ => (Ok this, m2)
               | Throw e => (Throw e, set_lifecycle this None false m2)
               | Unmodelled => (Unmodelled, m2)
               end).
Proof.
  intros Hch Hhd Hrun Hfuel.
  destruct (buildTree_chain _ _ Hch fuel (name (insts m !!! this))
              (IdSym (SymFresh (symbols m))) (nodes m) Hfuel)
    as (c' & new & Hb & Hlen & Hfr).
  assert (Hne : ds <> []) by (inversion Hch; done).
  pose proof (lifecycleOrder_chain _ _ _ fuel Hne Hfr Hfuel) as Ho.
  destruct (load_all call await (seq (length (nodes m)) (length ds))
              (set_lifecycle this (Some (length (nodes m) + length ds - 1)) true
                 (set_nodes (set_symbols m (S (symbols m))) (nodes m ++ new))))
    as [r2 m2] eqn:Hl.
  exists new, r2, m2. split_and!; auto.
  unfold start. rewrite Hrun. cbn [defs set_symbols nodes].
  rewrite -Hhd Hb Ho Hl. by destruct r2.
Qed.

End ChainStart.

(* ====================================================================== *)
(** ** The builder: declarations *)
(* ====================================================================== *)

Section Declarations.
Context {W : Type}.

Lemma derived_def_of this (m : Machine W) i' m' d' ext :
  derived this m i' m' d' ext ->
  def_of i' m' = d'
  /\ name (insts m' !!! i') = name (insts m !!! this)
  /\ extensionImpls (insts m' !!! i') = ext
  /\ running (insts m' !!! i') = false.
Proof.
  intros (-> & Hd & Hi & _). unfold def_of. rewrite Hi Hd.
  assert (Hl : forall (x : Aether), (insts m ++ [x]) !!! length (insts m) = x)
    by (intros x; by apply list_lookup_total_middle).
  rewrite !Hl. cbn [def name extensionImpls running].
  split; [|done]. by apply list_lookup_total_middle.
Qed.

Lemma next_derived this mutate (m : Machine W) d' :
  mutate (def_of this m) (copyDef (def_of this m)) = Ok d' ->
  exists m', next this mutate m = Ok (length (insts m), m')
             /\ derived this m (length (insts m)) m' d'
                  (extensionImpls (insts m !!! this)).
Proof.
  intros Hm. unfold next. fold (def_of this m). rewrite Hm.
  eexists. split; [reflexivity|]. by repeat split.
Qed.

Lemma next_throws this mutate (m : Machine W) e :
  mutate (def_of this m) (copyDef (def_of this m)) = Throw e ->
  next this mutate m = Throw e.
Proof. intros Hm. unfold next. fold (def_of this m). by rewrite Hm. Qed.

Lemma declare_with_args K this args (m : Machine W) :
  declare K this args m = with_args this args (Some K) m.
Proof. by destruct K. Qed.

Lemma copyDef_id d : copyDef d = d.
Proof. by destruct d. Qed.

Lemma pushEntry_ok this_def d k v cfg static :
  k <> kind_name (cfg_kind cfg) ->
  (cfg_mode cfg = append -> declared_in (cfg_kind cfg) k this_def = false) ->
  pushEntry this_def d k v cfg static
  = Ok (with_providers d
          (providers d ++ [declared_entry (cfg_kind cfg) k v (cfg_scope cfg)
                             (cfg_mode cfg) static])).
Proof.
  intros Hk Hnew. unfold pushEntry, RESERVED_KEYS.
  destruct (String.eqb_spec k (kind_name (cfg_kind cfg))); [done|].
  fold (declared_in (cfg_kind cfg) k this_def).
  destruct (cfg_mode cfg) eqn:Hmd.
  - rewrite Hnew //.
  - done.
Qed.

(** X4.  A declaration [(key, value, { scope, mode })] through [decorate]
    or [state] returns a new instance whose definition is the receiver's
    with one entry appended: exported unless the scope is local,
    transitive only for the global scope, and a factory exactly when the
    value is a function, for [state] as for [decorate].  The receiver, its
    definition and the rest of the machine are untouched. *)
Theorem declaration_appends_one_entry K this (m : Machine W) k v s md :
  k <> kind_name K ->
  (md = append -> declared_in K k (def_of this m) = false) ->
  exists m',
    declare K this
      [VStr k; v; VObj [("scope", VStr (scope_name s)); ("mode", VStr (mode_name md))]] m
    = Ok (length (insts m), m')
    /\ derived this m (length (insts m)) m'
         (with_providers (def_of this m)
            (providers (def_of this m) ++ [declared_entry K k v s md false]))
         (extensionImpls (insts m !!! this)).
Proof.
  intros Hk Hnew. rewrite declare_with_args. unfold with_args.
  assert (Hp : parseArgs
                 [VStr k; v; VObj [("scope", VStr (scope_name s)); ("mode", VStr (mode_name md))]]
                 (Some K)
               = Ok {| entries := [(k, v)];
                       config := {| cfg_kind := K; cfg_scope := s; cfg_mode := md |};
                       isObjectForm := false |}).
  { by destruct s, md. }
  rewrite Hp. unfold addProviders.
  cbn [entries config isObjectForm].
  apply next_derived. cbn [pushEntries].
  rewrite pushEntry_ok //.
Qed.

(** X5.  The name of the kind cannot be declared as a key of that kind:
    [decorate("decorator", v)] and [state("store", v)] throw the reserved
    key error. *)
Theorem reserved_key_is_rejected K this (m : Machine W) v :
  isOpts v = false ->
  declare K this [VStr (kind_name K); v] m = Throw (ReservedKey K (kind_name K)).
Proof.
  intros Hv. rewrite declare_with_args. unfold with_args, parseArgs.
  cbn [List.last]. rewrite Hv. cbn [opt_kind opt_scope opt_mode obj_get].
  unfold addProviders. cbn [entries config isObjectForm].
  apply next_throws. cbn [pushEntries]. unfold pushEntry, RESERVED_KEYS.
  cbn [cfg_kind]. by rewrite String.eqb_refl.
Qed.

(** X6.  A key that the receiver's definition already declares for the
    kind cannot be declared again in the default mode: the call throws the
    already-defined error. *)
Theorem redeclaring_in_append_mode_throws K this (m : Machine W) k v :
  isOpts v = false ->
  k <> kind_name K ->
  declared_in K k (def_of this m) = true ->
  declare K this [VStr k; v] m = Throw (AlreadyDefined K k).
Proof.
  intros Hv Hk Hin. rewrite declare_with_args. unfold with_args, parseArgs.
  cbn [List.last]. rewrite Hv. cbn [opt_kind opt_scope opt_mode obj_get].
  unfold addProviders. cbn [entries config isObjectForm].
  apply next_throws. cbn [pushEntries]. unfold pushEntry, RESERVED_KEYS.
  cbn [cfg_kind cfg_mode].
  destruct (String.eqb_spec k (kind_name K)); [done|].
  fold (declared_in K k (def_of this m)). by rewrite Hin.
Qed.

(** X2.  An options object that has a [mode] but neither [scope] nor
    [kind] is not recognised as options: the call behaves as if the third
    argument were absent, so [{ mode: "override" }] alone does not
    override. *)
Theorem mode_only_options_are_ignored K this (m : Machine W) k v md :
  isOpts v = false ->
  declare K this [VStr k; v; VObj [("mode", VStr md)]] m
  = declare K this [VStr k; v] m.
Proof.
  intros Hv. rewrite !declare_with_args. unfold with_args, parseArgs.
  cbn [List.last isOpts obj_get String.eqb Ascii.eqb Bool.eqb]. rewrite Hv.
  done.
Qed.

(** X1.  [provide] throws unless its last argument is an object with a
    string [scope] or a string [kind]. *)
Theorem provide_requires_options this (m : Machine W) args :
  isOpts (List.last args VUndefined) = false ->
  provide this args m = Throw ProvideRequiresOptions.
Proof.
  intros Hl. unfold provide, with_args, parseArgs. by rewrite Hl.
Qed.

End Declarations.

Section MoreDeclarations.
Context {W : Type}.

(** X3.  Leaving the options out is the same as giving the local scope
    and the append mode. *)
Theorem options_default_to_local_append K this (m : Machine W) k v :
  isOpts v = false ->
  declare K this [VStr k; v] m
  = declare K this
      [VStr k; v; VObj [("scope", VStr (scope_name local)); ("mode", VStr (mode_name append))]] m.
Proof.
  intros Hv. rewrite !declare_with_args. unfold with_args, parseArgs.
  cbn [List.last]. rewrite Hv. done.
Qed.

Lemma pushEntries_static this_def d es cfg :
  Forall (fun kv => fst kv <> kind_name (cfg_kind cfg)) es ->
  (cfg_mode cfg = append ->
   Forall (fun kv => declared_in (cfg_kind cfg) (fst kv) this_def = false) es) ->
  pushEntries this_def d es cfg true
  = Ok (with_providers d
          (providers d ++
           map (fun kv => declared_entry (cfg_kind cfg) (fst kv) (snd kv)
                            (cfg_scope cfg) (cfg_mode cfg) true) es)).
Proof.
  revert d. induction es as [|[k v] es IH]; intros d Hres Hnew.
  - simpl. rewrite app_nil_r. by destruct d.
  - apply Forall_cons in Hres as [Hk Hres]. cbn [pushEntries].
    rewrite pushEntry_ok //.
    { intros Hmd. specialize (Hnew Hmd). by apply Forall_cons in Hnew as [? _]. }
    rewrite IH //.
    { intros Hmd. specialize (Hnew Hmd). by apply Forall_cons in Hnew as [_ ?]. }
    unfold with_providers. cbn [providers loadCallbacks unloadCallbacks uses map fst snd].
    by rewrite -app_assoc.
Qed.

(** X7.  The object form [decorate({ ... })] or [state({ ... })] appends
    one entry per property, in the order of the properties, local and in
    append mode, and none of them is a factory even when the value is a
    function.  Keys are checked against the receiver's definition. *)
Theorem object_form_declares_static_entries K this (m : Machine W) props :
  isOpts (VObj props) = false ->
  Forall (fun kv => fst kv <> kind_name K) props ->
  Forall (fun kv => declared_in K (fst kv) (def_of this m) = false) props ->
  exists m',
    declare K this [VObj props] m = Ok (length (insts m), m')
    /\ derived this m (length (insts m)) m'
         (with_providers (def_of this m)
            (providers (def_of this m) ++
             map (fun kv => declared_entry K (fst kv) (snd kv) local append true) props))
         (extensionImpls (insts m !!! this)).
Proof.
  intros Ho Hres Hnew. rewrite declare_with_args. unfold with_args, parseArgs.
  cbn [List.last]. rewrite Ho. cbn [opt_kind opt_scope opt_mode obj_get].
  cbn [truthy typeof_object andb Object_entries].
  unfold addProviders. cbn [entries config isObjectForm].
  apply next_derived. rewrite pushEntries_static //.
Qed.

(** X8.  In the object form one reserved or already declared key makes
    the whole call throw: no entry of the object is declared. *)
Theorem object_form_is_all_or_nothing K this (m : Machine W) props k v :
  isOpts (VObj props) = false ->
  (k, v) ∈ props ->
  k = kind_name K \/ declared_in K k (def_of this m) = true ->
  exists e, declare K this [VObj props] m = Throw e
            /\ classify e <> UserError /\ classify e <> OutsideTypes.
Proof.
  intros Ho Hin Hbad. rewrite declare_with_args. unfold with_args, parseArgs.
  cbn [List.last]. rewrite Ho. cbn [opt_kind opt_scope opt_mode obj_get].
  cbn [truthy typeof_object andb Object_entries].
  unfold addProviders. cbn [entries config isObjectForm]. unfold next.
  fold (def_of this m).
  assert (Hp : forall d, exists e,
             pushEntries (def_of this m) d props
               {| cfg_kind := K; cfg_scope := local; cfg_mode := append |} true = Throw e
             /\ classify e <> UserError /\ classify e <> OutsideTypes).
  { clear Ho. induction props as [|[k' v'] props IH]; intros d.
    { by apply elem_of_nil in Hin. }
    cbn [pushEntries].
    destruct (pushEntry (def_of this m) d k' v' _ true) as [d1|e1|] eqn:Hp.
    3:{ exfalso. revert Hp. unfold pushEntry.
        destruct (String.eqb _ _); [done|]. by destruct (_ && _). }
    - apply elem_of_cons in Hin as [Heq|Hin]; [|by apply IH].
      inversion Heq; subst k' v'. exfalso. revert Hp. unfold pushEntry, RESERVED_KEYS.
      cbn [cfg_kind cfg_mode].
      destruct (String.eqb_spec k (kind_name K)) as [|Hne]; [done|].
      destruct Hbad as [|Hd]; [done|].
      fold (declared_in K k (def_of this m)). by rewrite Hd.
    - exists e1. split; [done|]. revert Hp. unfold pushEntry.
      destruct (String.eqb _ _); [intros H; by inversion H|].
      destruct (_ && _); [intros H; by inversion H|]. done. }
  destruct (Hp (copyDef (def_of this m))) as (e & -> & He). by exists e.
Qed.

End MoreDeclarations.

Lemma declaration_appends_one_entry_witness :
  "b" <> kind_name decorator
  /\ (append = append ->
      declared_in decorator "b" (def_of demo_declared_root demo_declared_machine) = false)
  /\ exists m',
       declare decorator demo_declared_root
         [VStr "b"; VFun 7;
          VObj [("scope", VStr (scope_name scoped)); ("mode", VStr (mode_name append))]]
         demo_declared_machine
       = Ok (length (insts demo_declared_machine), m')
       /\ derived demo_declared_root demo_declared_machine
            (length (insts demo_declared_machine)) m'
            (with_providers (def_of demo_declared_root demo_declared_machine)
               (providers (def_of demo_declared_root demo_declared_machine)
                ++ [declared_entry decorator "b" (VFun 7) scoped append false]))
            (extensionImpls (insts demo_declared_machine !!! demo_declared_root)).
Proof.
  assert (H1 : "b" <> kind_name decorator) by discriminate.
  assert (H2 : append = append ->
               declared_in decorator "b" (def_of demo_declared_root demo_declared_machine)
               = false) by reflexivity.
  split; [exact H1|]. split; [exact H2|].
  exact (declaration_appends_one_entry decorator demo_declared_root demo_declared_machine
           "b" (VFun 7) scoped append H1 H2).
Defined.

Lemma reserved_key_is_rejected_witness :
  isOpts (VNum 1) = false
  /\ declare store demo_declared_root [VStr (kind_name store); VNum 1] demo_declared_machine
     = Throw (ReservedKey store (kind_name store)).
Proof.
  split; [reflexivity|].
  exact (reserved_key_is_rejected store demo_declared_root demo_declared_machine
           (VNum 1) eq_refl).
Defined.

Lemma redeclaring_in_append_mode_throws_witness :
  isOpts (VNum 2) = false
  /\ "a" <> kind_name decorator
  /\ declared_in decorator "a" (def_of demo_declared_root demo_declared_machine) = true
  /\ declare decorator demo_declared_root [VStr "a"; VNum 2] demo_declared_machine
     = Throw (AlreadyDefined decorator "a").
Proof.
  assert (H2 : "a" <> kind_name decorator) by discriminate.
  split; [reflexivity|]. split; [exact H2|]. split; [reflexivity|].
  exact (redeclaring_in_append_mode_throws decorator demo_declared_root
           demo_declared_machine "a" (VNum 2) eq_refl H2 eq_refl).
Defined.

Lemma mode_only_options_are_ignored_witness :
  isOpts (VNum 2) = false
  /\ declare decorator demo_declared_root
       [VStr "a"; VNum 2; VObj [("mode", VStr "override")]] demo_declared_machine
     = declare decorator demo_declared_root [VStr "a"; VNum 2] demo_declared_machine.
Proof.
  split; [reflexivity|].
  exact (mode_only_options_are_ignored decorator demo_declared_root
           demo_declared_machine "a" (VNum 2) "override" eq_refl).
Defined.

Lemma provide_requires_options_witness :
  isOpts (List.last [VStr "a"; VNum 2] VUndefined) = false
  /\ provide demo_declared_root [VStr "a"; VNum 2] demo_declared_machine
     = Throw ProvideRequiresOptions.
Proof.
  split; [reflexivity|].
  exact (provide_requires_options demo_declared_root demo_declared_machine
           [VStr "a"; VNum 2] eq_refl).
Defined.

Lemma options_default_to_local_append_witness :
  isOpts (VNum 2) = false
  /\ declare store demo_declared_root [VStr "n"; VNum 2] demo_declared_machine
     = declare store demo_declared_root
         [VStr "n"; VNum 2;
          VObj [("scope", VStr (scope_name local)); ("mode", VStr (mode_name append))]]
         demo_declared_machine.
Proof.
  split; [reflexivity|].
  exact (options_default_to_local_append store demo_declared_root
           demo_declared_machine "n" (VNum 2) eq_refl).
Defined.

Lemma object_form_declares_static_entries_witness :
  isOpts (VObj [("x", VFun 7); ("y", VNum 1)]) = false
  /\ Forall (fun kv => fst kv <> kind_name decorator) [("x", VFun 7); ("y", VNum 1)]
  /\ Forall (fun kv => declared_in decorator (fst kv)
                         (def_of demo_declared_root demo_declared_machine) = false)
       [("x", VFun 7); ("y", VNum 1)]
  /\ exists m',
       declare decorator demo_declared_root [VObj [("x", VFun 7); ("y", VNum 1)]]
         demo_declared_machine
       = Ok (length (insts demo_declared_machine), m')
       /\ derived demo_declared_root demo_declared_machine
            (length (insts demo_declared_machine)) m'
            (with_providers (def_of demo_declared_root demo_declared_machine)
               (providers (def_of demo_declared_root demo_declared_machine) ++
                map (fun kv => declared_entry decorator (fst kv) (snd kv) local append true)
                    [("x", VFun 7); ("y", VNum 1)]))
            (extensionImpls (insts demo_declared_machine !!! demo_declared_root)).
Proof.
  assert (H2 : Forall (fun kv => fst kv <> kind_name decorator)
                 [("x", VFun 7); ("y", VNum 1)])
    by (repeat constructor; discriminate).
  assert (H3 : Forall (fun kv => declared_in decorator (fst kv)
                         (def_of demo_declared_root demo_declared_machine) = false)
                 [("x", VFun 7); ("y", VNum 1)])
    by (repeat constructor).
  split; [reflexivity|]. split; [exact H2|]. split; [exact H3|].
  exact (object_form_declares_static_entries decorator demo_declared_root
           demo_declared_machine [("x", VFun 7); ("y", VNum 1)] eq_refl H2 H3).
Defined.

Lemma object_form_is_all_or_nothing_witness :
  isOpts (VObj [("x", VNum 1); ("a", VNum 2)]) = false
  /\ ("a", VNum 2) ∈ [("x", VNum 1); ("a", VNum 2)]
  /\ exists e,
       declare decorator demo_declared_root [VObj [("x", VNum 1); ("a", VNum 2)]]
         demo_declared_machine = Throw e
       /\ classify e <> UserError /\ classify e <> OutsideTypes.
Proof.
  assert (H2 : ("a", VNum 2) ∈ [("x", VNum 1); ("a", VNum 2)])
    by (apply elem_of_cons; right; apply elem_of_cons; by left).
  split; [reflexivity|]. split; [exact H2|].
  exact (object_form_is_all_or_nothing decorator demo_declared_root
           demo_declared_machine [("x", VNum 1); ("a", VNum 2)] "a" (VNum 2)
           eq_refl H2 (or_intror eq_refl)).
Defined.

(* ====================================================================== *)
(** ** The builder: persistence, composition, extensions *)
(* ====================================================================== *)

Section Persistence.
Context {W : Type}.

Lemma preserves_refl (m : Machine W) : preserves m m.
Proof.
  split_and!; auto.
  - exists []. by rewrite app_nil_r.
  - exists []. by rewrite app_nil_r.
Qed.

Lemma preserves_trans (m1 m2 m3 : Machine W) :
  preserves m1 m2 -> preserves m2 m3 -> preserves m1 m3.
Proof.
  intros ([d1 D1] & (i1 & I1 & F1) & N1 & W1 & J1 & S1)
         ([d2 D2] & (i2 & I2 & F2) & N2 & W2 & J2 & S2).
  split_and!; try congruence; try lia.
  - exists (d1 ++ d2). by rewrite D2 D1 app_assoc.
  - exists (i1 ++ i2). split; [by rewrite I2 I1 app_assoc|]. by apply Forall_app.
Qed.

Lemma new_Aether_preserves nm d ext (m : Machine W) :
  preserves m (new_Aether nm d ext m).2.
Proof.
  unfold new_Aether. cbn [snd]. split_and!; auto.
  - exists []. by rewrite app_nil_r.
  - eexists. split; [reflexivity|]. by repeat constructor.
Qed.

Lemma set_defs_app_preserves (m : Machine W) d :
  preserves m (set_defs m (defs m ++ [d])).
Proof.
  split_and!; auto.
  - by eexists.
  - exists []. by rewrite app_nil_r.
Qed.

Lemma alloc_preserves (m : Machine W) d nm r ext :
  preserves m (new_Aether nm r ext (set_defs m (defs m ++ [d]))).2.
Proof.
  eapply preserves_trans; [apply set_defs_app_preserves|].
  apply (new_Aether_preserves nm r ext (set_defs m (defs m ++ [d]))).
Qed.

Lemma next_preserves this mutate (m : Machine W) i' m' :
  next this mutate m = Ok (i', m') -> preserves m m'.
Proof.
  unfold next. destruct (mutate _ _) as [d| |]; [|done|done].
  intros H. inversion H; subst; clear H. apply alloc_preserves.
Qed.

Lemma useScopeId_preserves scope (m : Machine W) :
  preserves m (useScopeId scope m).2.
Proof.
  unfold useScopeId. destruct scope as [[s|y]|]; try apply preserves_refl.
  destruct (_ || _); [apply preserves_refl|].
  destruct (String.eqb s "local"); [|apply preserves_refl].
  cbn [snd]. split_and!; auto.
  - exists []. by rewrite app_nil_r.
  - exists []. by rewrite app_nil_r.
  - simpl. lia.
Qed.

Lemma use_module_preserves this plugin options (m : Machine W) i' m' :
  use_module this plugin options m = Ok (i', m') -> preserves m m'.
Proof.
  unfold use_module.
  pose proof (useScopeId_preserves (use_scope options) m) as Hs.
  destruct (useScopeId (use_scope options) m) as [scopeId m1]. cbn [snd] in Hs.
  destruct (existsb _ _).
  { intros H. by inversion H; subst. }
  destruct (merge_extensions _ _ _ _) as [merged| |]; [|done|done].
  intros H. inversion H; subst; clear H.
  eapply preserves_trans; [exact Hs|]. apply alloc_preserves.
Qed.

Lemma use_modules_preserves ps options this (m : Machine W) i' m' :
  use (PluginArray (map PluginAether ps)) options this m = Ok (i', m') ->
  preserves m m'.
Proof.
  revert this m. induction ps as [|p ps IH]; intros this m H.
  - inversion H; subst. apply preserves_refl.
  - cbn [map use] in H.
    destruct (use_module this p options m) as [[i1 m1]| |] eqn:Hu; [|done|done].
    apply use_module_preserves in Hu.
    eapply preserves_trans; [exact Hu|]. by apply (IH i1 m1).
Qed.

Lemma run_call_preserves c this (m : Machine W) i' m' :
  run_call c this m = Ok (i', m') -> preserves m m'.
Proof.
  intros H. destruct c; cbn [run_call] in H.
  - unfold decorate, with_args in H. destruct (parseArgs _ _); [|done|done].
    unfold addProviders in H. by apply next_preserves in H.
  - unfold state, with_args in H. destruct (parseArgs _ _); [|done|done].
    unfold addProviders in H. by apply next_preserves in H.
  - unfold provide, with_args in H. destruct (parseArgs _ _); [|done|done].
    unfold addProviders in H. by apply next_preserves in H.
  - unfold onLoad in H. by apply next_preserves in H.
  - unfold onUnload in H. by apply next_preserves in H.
  - unfold extend in H. destruct fn; [|done]. inversion H; subst.
    apply new_Aether_preserves.
  - unfold extend_all in H. inversion H; subst. apply new_Aether_preserves.
  - by apply use_modules_preserves in H.
Qed.

(** X9.  No builder method changes what exists: after a call that
    returns, every definition and every instance that existed is still at
    its address with the same contents, so earlier builder values stay
    valid; the node heap, the world and the journal are the same.  The
    instances a call creates are not running. *)
Theorem builder_calls_preserve_the_machine c this (m : Machine W) i' m' :
  run_call c this m = Ok (i', m') ->
  preserves m m'
  /\ (forall d, d < length (defs m) -> defs m' !!! d = defs m !!! d)
  /\ (forall i, i < length (insts m) -> insts m' !!! i = insts m !!! i).
Proof.
  intros H. pose proof (run_call_preserves _ _ _ _ _ H) as Hp.
  split; [done|].
  destruct Hp as ([ds Hd] & (ins & Hi & _) & _). split.
  - intros d Hlt. by rewrite Hd lookup_total_app_l.
  - intros i Hlt. by rewrite Hi lookup_total_app_l.
Qed.

End Persistence.

Lemma builder_calls_preserve_the_machine_witness :
  exists i' m',
    run_call (CallUse [demo_child] no_options) demo_parent demo_pair = Ok (i', m')
    /\ preserves demo_pair m'
    /\ (forall d, d < length (defs demo_pair) -> defs m' !!! d = defs demo_pair !!! d)
    /\ (forall i, i < length (insts demo_pair) -> insts m' !!! i = insts demo_pair !!! i).
Proof.
  exists demo_composed.1, demo_composed.2.
  assert (H : run_call (CallUse [demo_child] no_options) demo_parent demo_pair
              = Ok (demo_composed.1, demo_composed.2)) by (vm_compute; reflexivity).
  split; [exact H|].
  exact (builder_calls_preserve_the_machine (CallUse [demo_child] no_options)
           demo_parent demo_pair demo_composed.1 demo_composed.2 H).
Defined.

Section Composition.
Context {W : Type}.

Lemma scope_eqb_refl s : scope_eqb s s = true.
Proof. by destruct (scope_eqb_spec s s). Qed.

Lemma useScopeId_shared scope (m : Machine W) :
  scope <> Some (IdStr "local") ->
  useScopeId scope m = (shared_scope_id scope, m).
Proof.
  intros Hne. unfold useScopeId, shared_scope_id. destruct scope as [[s|y]|]; auto.
  destruct (_ || _); auto.
  destruct (String.eqb_spec s "local") as [->|]; [done|auto].
Qed.

(** What [use] of a module instance returns under a shared scope:
    the receiver itself when the edge is already there, otherwise a new
    instance whose definition has one more edge. *)
Lemma use_module_shared_inv this plugin options (m : Machine W) i1 m1 :
  use_scope options <> Some (IdStr "local") ->
  use_module this plugin options m = Ok (i1, m1) ->
  let sid := shared_scope_id (use_scope options) in
  let has_edge :=
    existsb (fun u => Nat.eqb (edge_def u) (def (insts m !!! plugin))
                      && same_scope (edge_scopeId u) sid) (uses (def_of this m)) in
  (has_edge = true /\ i1 = this /\ m1 = m)
  \/ (has_edge = false
      /\ exists merged,
           merge_extensions (name (insts m !!! this)) (name (insts m !!! plugin))
             (extensionImpls (insts m !!! this)) (extensionImpls (insts m !!! plugin))
           = Ok merged
           /\ derived this m i1 m1
                (with_uses (def_of this m)
                   (uses (def_of this m) ++ [use_edge plugin sid options m]))
                merged).
Proof.
  intros Hsc. unfold use_module. rewrite (useScopeId_shared _ m Hsc).
  fold (def_of this m). cbv zeta.
  destruct (existsb _ (uses (def_of this m))) eqn:Hex.
  - intros H. inversion H; subst. by left.
  - destruct (merge_extensions _ _ _ _) as [merged| |] eqn:Hm; [|done|done].
    intros H. inversion H; subst; clear H. right. split; [done|].
    exists merged. split; [done|]. by repeat split.
Qed.

(** X10.  Composing the same module again under the same shared scope
    (the global scope, or a scope the caller names) is idempotent: the
    second [use] returns the instance it was called on and allocates
    nothing. *)
Theorem use_is_idempotent this plugin options (m : Machine W) i1 m1 :
  plugin < length (insts m) ->
  use_scope options <> Some (IdStr "local") ->
  use (PluginAether plugin) options this m = Ok (i1, m1) ->
  use (PluginAether plugin) options i1 m1 = Ok (i1, m1).
Proof.
  intros Hp Hsc H. cbn [use] in H |- *.
  pose proof H as Hinv. apply (use_module_shared_inv _ _ _ _ _ _ Hsc) in Hinv.
  cbv zeta in Hinv.
  destruct Hinv as [(Hex & -> & ->)|(Hex & merged & Hm & Hder)].
  - done.
  - destruct (derived_def_of _ _ _ _ _ _ Hder) as (Hdef & _).
    destruct Hder as (-> & Hd & Hi & _).
    unfold use_module. rewrite (useScopeId_shared _ m1 Hsc).
    assert (Hpl : insts m1 !!! plugin = insts m !!! plugin)
      by (by rewrite Hi lookup_total_app_l).
    rewrite Hpl. unfold def_of in Hdef. rewrite Hdef.
    cbn [uses with_uses]. rewrite existsb_app.
    cbn [existsb use_edge edge_def edge_scopeId same_scope].
    by rewrite Nat.eqb_refl scope_eqb_refl orb_true_r.
Qed.

Lemma ext_has_set nm n f e : ext_has nm (ext_set n f e) = String.eqb nm n || ext_has nm e.
Proof.
  induction e as [|[n' f'] e IH]; simpl.
  - by rewrite orb_false_r.
  - destruct (String.eqb_spec n n') as [->|Hne]; simpl.
    + by destruct (String.eqb nm n').
    + rewrite IH. by destruct (String.eqb nm n), (String.eqb nm n').
Qed.

Lemma merge_extensions_ok cur plug merged es r :
  merge_extensions cur plug merged es = Ok r ->
  forall nm, ext_has nm r = ext_has nm merged || ext_has nm es.
Proof.
  revert merged. induction es as [|[n f] es IH]; intros merged H nm; simpl in H.
  - inversion H; subst. by rewrite orb_false_r.
  - destruct (ext_has n merged); [done|].
    rewrite (IH _ H) ext_has_set. simpl.
    by destruct (String.eqb nm n), (ext_has nm merged).
Qed.

Lemma merge_extensions_collision cur plug merged es nm :
  ext_has nm merged = true -> ext_has nm es = true ->
  exists nm', merge_extensions cur plug merged es = Throw (ExtensionCollision nm' cur plug).
Proof.
  revert merged. induction es as [|[n f] es IH]; intros merged Hm He; [done|].
  simpl in He |- *. destruct (ext_has n merged) eqn:Hn; [by eexists|].
  apply IH.
  - by rewrite ext_has_set Hm orb_true_r.
  - destruct (String.eqb_spec nm n) as [->|]; [congruence|done].
Qed.

Lemma useScopeId_static scope (m : Machine W) :
  defs (useScopeId scope m).2 = defs m /\ insts (useScopeId scope m).2 = insts m.
Proof.
  unfold useScopeId. destruct scope as [[s|y]|]; try done.
  destruct (_ || _); [done|]. by destruct (String.eqb s "local").
Qed.

(** X11.  [use] of a module that is not yet composed throws the
    extension collision error when the receiver and the plugin both have
    an extension of some name; otherwise the instance it returns has
    exactly the extension names of both. *)
Theorem use_merges_extensions_or_throws this plugin options (m : Machine W) :
  (forall u, u ∈ uses (def_of this m) -> edge_def u <> def (insts m !!! plugin)) ->
  (forall nm, ext_has nm (extensionImpls (insts m !!! this)) = true ->
              ext_has nm (extensionImpls (insts m !!! plugin)) = true ->
              exists nm', use (PluginAether plugin) options this m
                          = Throw (ExtensionCollision nm' (name (insts m !!! this))
                                     (name (insts m !!! plugin))))
  /\ (forall i' m', use (PluginAether plugin) options this m = Ok (i', m') ->
        forall nm, ext_has nm (extensionImpls (insts m' !!! i'))
                   = ext_has nm (extensionImpls (insts m !!! this))
                     || ext_has nm (extensionImpls (insts m !!! plugin))).
Proof.
  intros Hnew. cbn [use]. unfold use_module.
  destruct (useScopeId_static (use_scope options) m) as [Hd1 Hi1].
  destruct (useScopeId (use_scope options) m) as [sid m1]. cbn [snd] in Hd1, Hi1.
  assert (Hex : existsb (fun u => Nat.eqb (edge_def u) (def (insts m !!! plugin))
                                  && same_scope (edge_scopeId u) sid)
                  (uses (defs m1 !!! def (insts m !!! this))) = false).
  { apply not_true_is_false. intros Hex. apply existsb_exists in Hex as (u & Hin & Hu).
    apply andb_true_iff in Hu as [Heq _]. apply Nat.eqb_eq in Heq.
    rewrite Hd1 in Hin. apply (Hnew u); [by apply list_elem_of_In|done]. }
  rewrite Hex. split.
  - intros nm H1 H2.
    destruct (merge_extensions_collision (name (insts m !!! this))
                (name (insts m !!! plugin)) _ _ nm H1 H2) as [nm' ->].
    by exists nm'.
  - intros i' m'.
    destruct (merge_extensions _ _ _ _) as [merged| |] eqn:Hm; [|done|done].
    intros H nm. inversion H; subst i' m'; clear H.
    cbn [new_Aether fst snd insts set_insts set_defs].
    rewrite list_lookup_total_middle //. cbn [extensionImpls].
    by apply (merge_extensions_ok _ _ _ _ _ Hm).
Qed.

Lemma use_array_cons p ps options this (m : Machine W) :
  use (PluginArray (p :: ps)) options this m
  = and_then (use p options this m) (fun im => use (PluginArray ps) options im.1 im.2).
Proof.
  cbn [use]. destruct (use p options this m) as [[i1 m1]| |]; done.
Qed.

(** X12.  [use] of an array composes the plugins from left to right:
    using [ps1 ++ ps2] is using [ps1] and then [ps2] on the result, and
    stops at the first plugin that throws. *)
Theorem use_array_is_a_left_fold ps1 ps2 options this (m : Machine W) :
  use (PluginArray (ps1 ++ ps2)) options this m
  = and_then (use (PluginArray ps1) options this m)
             (fun im => use (PluginArray ps2) options im.1 im.2).
Proof.
  revert this m. induction ps1 as [|p ps1 IH]; intros this m.
  - done.
  - rewrite -app_comm_cons !use_array_cons.
    destruct (use p options this m) as [[i1 m1]| |]; [|done|done].
    cbn [and_then fst snd]. apply IH.
Qed.

Lemma ext_get_set_eq nm f e : ext_get nm (ext_set nm f e) = Some f.
Proof.
  induction e as [|[n' f'] e IH]; simpl.
  - by rewrite String.eqb_refl.
  - destruct (String.eqb nm n') eqn:E; simpl; rewrite ?String.eqb_refl ?E //.
Qed.

Lemma ext_get_set_ne nm n f e : nm <> n -> ext_get nm (ext_set n f e) = ext_get nm e.
Proof.
  intros Hne. induction e as [|[n' f'] e IH]; simpl.
  - destruct (String.eqb_spec nm n); congruence.
  - destruct (String.eqb_spec n n') as [->|Hn]; simpl.
    + destruct (String.eqb_spec nm n'); congruence.
    + destruct (String.eqb_spec nm n'); auto.
Qed.

(** X13.  [extend(name, fn)] returns a new instance that holds the very
    same definition as the receiver (the definition is shared, not
    copied), maps [name] to [fn], replacing an extension of that name, and
    keeps every other extension; without a function it throws. *)
Theorem extend_registers_and_shares_the_definition this nm fn (m : Machine W) :
  extend this nm None m = Throw ExtendRequiresFunction
  /\ exists m',
       extend this nm (Some fn) m = Ok (length (insts m), m')
       /\ def (insts m' !!! length (insts m)) = def (insts m !!! this)
       /\ defs m' = defs m
       /\ ext_get nm (extensionImpls (insts m' !!! length (insts m))) = Some fn
       /\ (forall n, n <> nm ->
             ext_get n (extensionImpls (insts m' !!! length (insts m)))
             = ext_get n (extensionImpls (insts m !!! this))).
Proof.
  split; [done|]. unfold extend. eexists. split; [reflexivity|].
  cbn [new_Aether fst snd insts defs set_insts].
  rewrite list_lookup_total_middle //. cbn [def extensionImpls].
  split_and!; auto.
  - apply ext_get_set_eq.
  - intros n Hn. by apply ext_get_set_ne.
Qed.

End Composition.

Lemma use_is_idempotent_witness :
  demo_child < length (insts demo_pair)
  /\ use_scope no_options <> Some (IdStr "local")
  /\ use (PluginAether demo_child) no_options demo_parent demo_pair
     = Ok (demo_composed.1, demo_composed.2)
  /\ use (PluginAether demo_child) no_options demo_composed.1 demo_composed.2
     = Ok (demo_composed.1, demo_composed.2).
Proof.
  assert (H1 : demo_child < length (insts demo_pair)) by (vm_compute; lia).
  assert (H2 : use_scope no_options <> Some (IdStr "local")) by discriminate.
  assert (H3 : use (PluginAether demo_child) no_options demo_parent demo_pair
               = Ok (demo_composed.1, demo_composed.2)) by (vm_compute; reflexivity).
  split; [exact H1|]. split; [exact H2|]. split; [exact H3|].
  exact (use_is_idempotent demo_parent demo_child no_options demo_pair
           demo_composed.1 demo_composed.2 H1 H2 H3).
Defined.

Lemma use_merges_extensions_or_throws_witness :
  (forall u, u ∈ uses (def_of demo_extended.1.1.2 demo_extended.2) ->
             edge_def u <> def (insts demo_extended.2 !!! demo_extended.1.1.1))
  /\ exists nm',
       use (PluginAether demo_extended.1.1.1) no_options demo_extended.1.1.2 demo_extended.2
       = Throw (ExtensionCollision nm' "q" "p").
Proof.
  assert (H1 : forall u, u ∈ uses (def_of demo_extended.1.1.2 demo_extended.2) ->
                         edge_def u <> def (insts demo_extended.2 !!! demo_extended.1.1.1)).
  { intros u Hu. vm_compute in Hu. by apply elem_of_nil in Hu. }
  split; [exact H1|].
  exact (proj1 (use_merges_extensions_or_throws demo_extended.1.1.2 demo_extended.1.1.1
                  no_options demo_extended.2 H1) "register" eq_refl eq_refl).
Defined.

(* ====================================================================== *)
(** ** Provider resolution: one entry, one child *)
(* ====================================================================== *)

Section Resolution.
Context {W : Type}.
Variable call : nat -> Value -> W -> Result Value * W.
Variable await : Value -> W -> Result Value * W.

(** The tables after [applyEntry] returns, in terms of the resolved
    value. *)
Lemma applyEntry_ok_inv e nm t (m : Machine W) t' m' :
  applyEntry call e nm t m = (Ok t', m') ->
  exists resolved,
    (if is_true (isFactory e)
     then exists f w', value e = VFun f
            /\ call f (factory_context (kind e) (t_local t)) (world m) = (Ok resolved, w')
            /\ m' = set_journal (set_world m w')
                      (journal m ++ [EvFactory nm (kind e) (key e) f])
     else resolved = value e /\ m' = m)
    /\ (mode_of e = append -> obj_in (key e) (pm_get (t_local t) (kind e)) = false)
    /\ storeEntry e resolved (t_local t)
         (match mode_of e with
          | override => pm_put (t_exported t) (kind e)
                          (obj_delete (key e) (pm_get (t_exported t) (kind e)))
          | append => t_exported t end)
         (match mode_of e with
          | override => pm_put (t_propagated t) (kind e)
                          (obj_delete (key e) (pm_get (t_propagated t) (kind e)))
          | append => t_propagated t end)
       = Some (t_local t', t_exported t', t_propagated t').
Proof.
  unfold applyEntry. intros H.
  assert (Hctx : match kind e with
                 | decorator => merged_context (t_local t)
                 | store => VObj (pm_get (t_local t) (kind e))
                 end = factory_context (kind e) (t_local t)) by (by destruct (kind e)).
  rewrite Hctx in H.
  assert (Hin : mode_of e = append -> obj_in (key e) (pm_get (t_local t) (kind e)) = false).
  { intros Hmd. rewrite Hmd in H. cbn [andb] in H.
    by destruct (obj_in (key e) _). }
  destruct (_ && obj_in _ _); [done|].
  destruct (is_true (isFactory e)).
  - destruct (value e) eqn:Hv; try done.
    destruct (call f _ (world m)) as [[rv|err|] w'] eqn:Hc; [|done|done].
    destruct (storeEntry _ _ _ _ _) as [[[l x] p]|] eqn:Hs; [|done].
    inversion H; subst; clear H. exists rv. split; [by exists f, w'|]. done.
  - destruct (storeEntry _ _ _ _ _) as [[[l x] p]|] eqn:Hs; [|done].
    inversion H; subst; clear H. by exists (value e).
Qed.

(** X14.  An entry in override mode, under any key but [__proto__],
    replaces the key: afterwards the local map holds the resolved value
    under the key; the exported map holds it exactly when the entry is
    exported, and the propagated map exactly when the entry is exported
    and transitive, whatever these maps held for the key before.  The
    resolved value of an entry that is not a factory is its value.  (An
    assignment to [__proto__] does not define a property: it reaches the
    setter inherited from [Object.prototype].) *)
Theorem override_entry_replaces_the_key e nm t (m : Machine W) t' m' :
  mode_of e = override ->
  key e <> "__proto__" ->
  applyEntry call e nm t m = (Ok t', m') ->
  exists resolved,
    (is_true (isFactory e) = false -> resolved = value e)
    /\ obj_get (key e) (pm_get (t_local t') (kind e)) = Some resolved
    /\ obj_get (key e) (pm_get (t_exported t') (kind e))
       = (if export e then Some resolved else None)
    /\ obj_get (key e) (pm_get (t_propagated t') (kind e))
       = (if export e && is_true (transitive e) then Some resolved else None).
Proof.
  intros Hmd Hk H.
  destruct (applyEntry_ok_inv _ _ _ _ _ _ H) as (resolved & Hres & _ & Hs).
  rewrite storeEntry_plain // Hmd in Hs. inversion Hs as [[Hl Hx Hp]]; clear Hs.
  exists resolved. split_and!.
  - intros Hf. rewrite Hf in Hres. by destruct Hres.
  - by rewrite pm_get_put_eq obj_get_set_eq.
  - destruct (export e); rewrite !pm_get_put_eq ?obj_get_set_eq ?obj_get_delete_eq //.
  - destruct (export e && is_true (transitive e));
      rewrite !pm_get_put_eq ?obj_get_set_eq ?obj_get_delete_eq //.
Qed.

(** X15.  An entry touches its own key only: every other key of its
    kind, and every key of the other kind, reads the same in the local,
    the exported and the propagated map before and after. *)
Theorem entry_leaves_other_keys_alone e nm t (m : Machine W) t' m' K k :
  applyEntry call e nm t m = (Ok t', m') ->
  K <> kind e \/ k <> key e ->
  obj_get k (pm_get (t_local t') K) = obj_get k (pm_get (t_local t) K)
  /\ obj_get k (pm_get (t_exported t') K) = obj_get k (pm_get (t_exported t) K)
  /\ obj_get k (pm_get (t_propagated t') K) = obj_get k (pm_get (t_propagated t) K).
Proof.
  intros H Hother.
  destruct (applyEntry_ok_inv _ _ _ _ _ _ H) as (resolved & _ & _ & Hs).
  destruct (storeEntry_other _ _ _ _ _ _ _ _ K k Hs Hother) as (E1 & E2 & E3).
  rewrite E1 E2 E3. split; [done|].
  destruct (mode_of e); [done|].
  destruct (kind_eqb_spec K (kind e)) as [->|HK].
  - destruct Hother as [|Hk]; [done|].
    by rewrite !pm_get_put_eq !obj_get_delete_ne.
  - by rewrite !pm_get_put_ne.
Qed.

(** X16.  A factory entry is called once with the context accumulated so
    far: for a decorator the merged context of the local maps, for a store
    entry the local store map.  The call is the only change to the world,
    and what it returns is stored under the key, unless the key is
    [__proto__]. *)
Theorem factory_entry_is_called_with_the_accumulated_context
    e nm t (m : Machine W) t' m' f :
  isFactory e = Some true ->
  value e = VFun f ->
  applyEntry call e nm t m = (Ok t', m') ->
  exists resolved w',
    call f (factory_context (kind e) (t_local t)) (world m) = (Ok resolved, w')
    /\ world m' = w'
    /\ journal m' = journal m ++ [EvFactory nm (kind e) (key e) f]
    /\ (key e <> "__proto__" ->
        obj_get (key e) (pm_get (t_local t') (kind e)) = Some resolved).
Proof.
  intros Hf Hv H.
  destruct (applyEntry_ok_inv _ _ _ _ _ _ H) as (resolved & Hres & _ & Hs).
  rewrite Hf in Hres. cbn [is_true] in Hres.
  destruct Hres as (f' & w' & Hv' & Hc & ->).
  rewrite Hv in Hv'. inversion Hv'; subst f'.
  exists resolved, w'. split_and!; auto.
  intros Hk. rewrite storeEntry_plain // in Hs. inversion Hs as [[Hl Hx Hp]].
  by rewrite pm_get_put_eq obj_get_set_eq.
Qed.

Lemma applyEntry_collision e nm t (m : Machine W) :
  mode_of e = append ->
  has (key e) (pm_get (t_local t) (kind e)) = true \/ inherited (key e) = true ->
  applyEntry call e nm t m
  = (Throw (OwnCollision (kind e) (key e)
              (option_map moduleName
                 (origins_get (originKey (kind e) (key e)) (t_origins t)))), m).
Proof.
  intros Hmd Hin. unfold applyEntry. rewrite Hmd. cbn [andb].
  assert (Ho : obj_in (key e) (pm_get (t_local t) (kind e)) = true).
  { rewrite obj_in_has. destruct Hin as [-> | ->]; [by rewrite orb_true_r|done]. }
  by rewrite Ho.
Qed.

(** X17.  In append mode an entry whose key is already in the local map
    (imported or declared earlier) or is a name inherited from
    [Object.prototype], such as "toString", throws the collision error
    before any factory runs; the machine is unchanged. *)
Theorem append_entry_collides e nm t (m : Machine W) :
  mode_of e = append ->
  has (key e) (pm_get (t_local t) (kind e)) = true \/ inherited (key e) = true ->
  applyEntry call e nm t m
  = (Throw (OwnCollision (kind e) (key e)
              (option_map moduleName
                 (origins_get (originKey (kind e) (key e)) (t_origins t)))), m).
Proof. apply applyEntry_collision. Qed.

End Resolution.

Lemma override_entry_replaces_the_key_witness :
  mode_of (declared_entry decorator "a" (VNum 2) local override false) = override
  /\ key (declared_entry decorator "a" (VNum 2) local override false) <> "__proto__"
  /\ exists t' m',
       applyEntry demo_call (declared_entry decorator "a" (VNum 2) local override false)
         "m" demo_tables (boot 0) = (Ok t', m')
       /\ exists resolved,
            (is_true (isFactory (declared_entry decorator "a" (VNum 2) local override false))
             = false -> resolved = VNum 2)
            /\ obj_get "a" (pm_get (t_local t') decorator) = Some resolved
            /\ obj_get "a" (pm_get (t_exported t') decorator) = None
            /\ obj_get "a" (pm_get (t_propagated t') decorator) = None.
Proof.
  assert (Hk : key (declared_entry decorator "a" (VNum 2) local override false)
               <> "__proto__") by discriminate.
  split; [reflexivity|]. split; [exact Hk|].
  destruct (applyEntry demo_call (declared_entry decorator "a" (VNum 2) local override false)
              "m" demo_tables (boot 0)) as [[t'|err|] m'] eqn:H.
  - exists t', m'. split; [reflexivity|].
    exact (override_entry_replaces_the_key demo_call
             (declared_entry decorator "a" (VNum 2) local override false)
             "m" demo_tables (boot 0) t' m' eq_refl Hk H).
  - vm_compute in H. discriminate.
  - vm_compute in H. discriminate.
Defined.

Lemma entry_leaves_other_keys_alone_witness :
  exists t' m',
    applyEntry demo_call (declared_entry decorator "b" (VNum 2) global append false)
      "m" demo_tables (boot 0) = (Ok t', m')
    /\ (decorator <> decorator \/ "a" <> "b")
    /\ obj_get "a" (pm_get (t_local t') decorator) = Some (VNum 1)
    /\ obj_get "a" (pm_get (t_exported t') decorator) = Some (VNum 1)
    /\ obj_get "a" (pm_get (t_propagated t') decorator) = Some (VNum 1).
Proof.
  destruct (applyEntry demo_call (declared_entry decorator "b" (VNum 2) global append false)
              "m" demo_tables (boot 0)) as [[t'|err|] m'] eqn:H.
  - exists t', m'. split; [reflexivity|].
    assert (Hne : decorator <> decorator \/ "a" <> "b") by (right; discriminate).
    split; [exact Hne|].
    exact (entry_leaves_other_keys_alone demo_call
             (declared_entry decorator "b" (VNum 2) global append false)
             "m" demo_tables (boot 0) t' m' decorator "a" H Hne).
  - vm_compute in H. discriminate.
  - vm_compute in H. discriminate.
Defined.

Lemma factory_entry_is_called_with_the_accumulated_context_witness :
  exists t' m',
    applyEntry demo_call (declared_entry store "k" (VFun 7) local append false)
      "m" demo_tables (boot 0) = (Ok t', m')
    /\ exists resolved w',
         demo_call 7 (factory_context store (t_local demo_tables)) 0 = (Ok resolved, w')
         /\ world m' = w'
         /\ journal m' = [EvFactory "m" store "k" 7]
         /\ ("k" <> "__proto__" ->
             obj_get "k" (pm_get (t_local t') store) = Some resolved).
Proof.
  destruct (applyEntry demo_call (declared_entry store "k" (VFun 7) local append false)
              "m" demo_tables (boot 0)) as [[t'|err|] m'] eqn:H.
  - exists t', m'. split; [reflexivity|].
    exact (factory_entry_is_called_with_the_accumulated_context demo_call
             (declared_entry store "k" (VFun 7) local append false) "m"
             demo_tables (boot 0) t' m' 7 eq_refl eq_refl H).
  - vm_compute in H. discriminate.
  - vm_compute in H. discriminate.
Defined.

Lemma append_entry_collides_witness :
  mode_of (declared_entry decorator "toString" (VNum 1) local append false) = append
  /\ inherited "toString" = true
  /\ applyEntry demo_call (declared_entry decorator "toString" (VNum 1) local append false)
       "m" no_tables (boot 0)
     = (Throw (OwnCollision decorator "toString" None), boot 0).
Proof.
  split; [reflexivity|]. split; [reflexivity|].
  exact (append_entry_collides demo_call
           (declared_entry decorator "toString" (VNum 1) local append false)
           "m" no_tables (boot 0) eq_refl (or_intror eq_refl)).
Defined.

Section Imports.

(** The loop over the entries of a child never reaches the setter of
    [__proto__]: that name is always found by [in]. *)
Lemma importEntries_step K cn k0 v0 es t :
  obj_in k0 (pm_get (t_local t) K) = false ->
  importEntries K cn ((k0, v0) :: es) t
  = importEntries K cn es
      {| t_local := pm_put (t_local t) K (obj_set k0 v0 (pm_get (t_local t) K));
         t_exported := t_exported t;
         t_propagated := t_propagated t;
         t_origins :=
           origins_set (originKey K k0)
             {| origin_kind := K; origin_key := k0; moduleName := cn;
                isExported := true |} (t_origins t) |}.
Proof. intros Hin. simpl. by rewrite Hin (obj_assign_not_in _ _ _ Hin). Qed.

Lemma importEntries_result K cn es t :
  (exists t', importEntries K cn es t = Ok t')
  \/ (exists k' o, importEntries K cn es t = Throw (ImportCollision K k' o)).
Proof.
  revert t. induction es as [|[k0 v0] es IH]; intros t; [left; by eexists|].
  destruct (obj_in k0 (pm_get (t_local t) K)) eqn:Hin.
  - right. simpl. rewrite Hin. by do 2 eexists.
  - rewrite importEntries_step //.
Qed.

Lemma importEntries_no_collision K cn es t t' k :
  importEntries K cn es t = Ok t' ->
  has k (pm_get (t_local t) K) = true -> obj_get k es = None.
Proof.
  revert t. induction es as [|[k0 v0] es IH]; intros t H Hk; [done|].
  destruct (obj_in k0 (pm_get (t_local t) K)) eqn:Hin.
  { simpl in H. by rewrite Hin in H. }
  rewrite importEntries_step // in H. simpl.
  destruct (String.eqb_spec k k0) as [->|Hne].
  { rewrite obj_in_has Hk orb_true_r in Hin. done. }
  apply (IH _ H). cbn [t_local]. by rewrite pm_get_put_eq has_set Hk orb_true_r.
Qed.

Lemma importEntries_local K cn es t t' :
  importEntries K cn es t = Ok t' ->
  (forall k v, obj_get k es = Some v -> obj_get k (pm_get (t_local t') K) = Some v)
  /\ (forall k, obj_get k es = None ->
                obj_get k (pm_get (t_local t') K) = obj_get k (pm_get (t_local t) K))
  /\ (forall K', K' <> K -> pm_get (t_local t') K' = pm_get (t_local t) K')
  /\ t_exported t' = t_exported t /\ t_propagated t' = t_propagated t.
Proof.
  revert t. induction es as [|[k0 v0] es IH]; intros t H.
  - inversion H; subst. done.
  - destruct (obj_in k0 (pm_get (t_local t) K)) eqn:Hin.
    { simpl in H. by rewrite Hin in H. }
    rewrite importEntries_step // in H.
    pose proof (importEntries_no_collision _ _ _ _ _ k0 H) as Hnc.
    cbn [t_local] in Hnc. rewrite pm_get_put_eq has_set String.eqb_refl in Hnc.
    specialize (Hnc eq_refl).
    destruct (IH _ H) as (Hin' & Hout & Hother & Hx & Hp). cbn [t_local t_exported t_propagated] in *.
    split_and!; auto.
    + intros k v Hkv. simpl in Hkv. destruct (String.eqb_spec k k0) as [->|Hne].
      * inversion Hkv; subst v0. rewrite Hout //. by rewrite pm_get_put_eq obj_get_set_eq.
      * by apply Hin'.
    + intros k Hk. simpl in Hk. destruct (String.eqb_spec k k0) as [Heq|Hne]; [done|].
      rewrite Hout //. by rewrite pm_get_put_eq obj_get_set_ne.
    + intros K' HK. rewrite Hother //. by rewrite pm_get_put_ne.
Qed.

Lemma importEntries_collision K cn es t k :
  has k (pm_get (t_local t) K) = true -> has k es = true ->
  exists k' o, importEntries K cn es t = Throw (ImportCollision K k' o).
Proof.
  revert t. induction es as [|[k0 v0] es IH]; intros t Hl He; [done|].
  destruct (obj_in k0 (pm_get (t_local t) K)) eqn:Hin.
  { simpl. rewrite Hin. by do 2 eexists. }
  rewrite importEntries_step //.
  apply IH.
  - cbn [t_local]. by rewrite pm_get_put_eq has_set Hl orb_true_r.
  - unfold has in He |- *. simpl in He.
    destruct (String.eqb_spec k k0) as [->|]; [|done].
    rewrite obj_in_has Hl orb_true_r in Hin. done.
Qed.

Lemma propagateKinds_local child ks t t' :
  propagateKinds child ks t = Some t' -> t_local t' = t_local t.
Proof.
  revert t. induction ks as [|K ks IH]; intros t H; simpl in H.
  - by inversion H.
  - destruct (propagateKind child t K) as [t1|] eqn:Hp; [|done].
    rewrite (IH _ H). unfold propagateKind in Hp.
    destruct (Object_assign _ _); [|done]. destruct (Object_assign _ _); [|done].
    by inversion Hp.
Qed.

Lemma importChild_local child edge t t' K k v :
  importChild child edge t = Ok t' ->
  obj_get k (pm_get (exportedProviders child) K) = Some v
  \/ obj_get k (pm_get (t_local t) K) = Some v ->
  obj_get k (pm_get (t_local t') K) = Some v.
Proof.
  unfold importChild. intros H Hsrc.
  destruct (importEntries decorator _ _ t) as [t1| |] eqn:H1; [|done|done].
  destruct (importEntries store _ _ t1) as [t2| |] eqn:H2; [|done|done].
  assert (Hl : t_local t' = t_local t2).
  { destruct (edge_transitive edge) as [[|]|];
      try (destruct (propagateKinds _ _ _) as [t3|] eqn:Hp; [|done];
           apply propagateKinds_local in Hp);
      inversion H; subst; done. }
  rewrite Hl. clear H Hl.
  pose proof (importEntries_no_collision _ _ _ _ _ k H1) as N1.
  pose proof (importEntries_no_collision _ _ _ _ _ k H2) as N2.
  destruct (importEntries_local _ _ _ _ _ H1) as (I1 & O1 & X1 & _).
  destruct (importEntries_local _ _ _ _ _ H2) as (I2 & O2 & X2 & _).
  assert (Hhas : forall o, obj_get k o = Some v -> has k o = true)
    by (intros o Ho; unfold has; by rewrite Ho).
  destruct K.
  - rewrite X2 //. destruct Hsrc as [Hc|Ht].
    + by apply I1.
    + rewrite O1 //. apply N1. by apply Hhas.
  - destruct Hsrc as [Hc|Ht].
    + by apply I2.
    + rewrite O2; [|by rewrite X1].
      apply N2. rewrite X1 //. by apply Hhas.
Qed.

(** X18.  Importing a child copies every exported entry of the child,
    value included, into the local map of its kind, and keeps what the
    local maps already held. *)
Theorem child_exports_are_imported child edge t t' K k v :
  importChild child edge t = Ok t' ->
  obj_get k (pm_get (exportedProviders child) K) = Some v
  \/ obj_get k (pm_get (t_local t) K) = Some v ->
  obj_get k (pm_get (t_local t') K) = Some v.
Proof. apply importChild_local. Qed.

(** X19.  Two children that export the same key of a kind cannot both be
    imported: importing the second throws the import collision error,
    whatever the modes of the declarations. *)
Theorem same_key_from_two_children_collides c1 e1 c2 e2 t t1 K k :
  importChild c1 e1 t = Ok t1 ->
  has k (pm_get (exportedProviders c1) K) = true ->
  has k (pm_get (exportedProviders c2) K) = true ->
  exists K' k' o, importChild c2 e2 t1 = Throw (ImportCollision K' k' o).
Proof.
  intros H1 Hc1 Hc2.
  assert (Hl : has k (pm_get (t_local t1) K) = true).
  { unfold has in Hc1. destruct (obj_get k (pm_get (exportedProviders c1) K)) as [v|] eqn:Hv;
      [|done].
    unfold has. by rewrite (importChild_local _ _ _ _ K k v H1 (or_introl Hv)). }
  unfold importChild.
  destruct (importEntries_result decorator (ctx_name c2)
              (pm_get (exportedProviders c2) decorator) t1) as [[t2 H2]|(k' & o & H2)];
    rewrite H2; [|by do 3 eexists].
  destruct K.
  - destruct (importEntries_collision decorator (ctx_name c2) _ t1 k Hl Hc2) as (k' & o & Hth).
    congruence.
  - destruct (importEntries_local _ _ _ _ _ H2) as (_ & _ & X2 & _).
    assert (Hl2 : has k (pm_get (t_local t2) store) = true) by (by rewrite X2).
    destruct (importEntries_collision store (ctx_name c2) _ t2 k Hl2 Hc2) as (k' & o & ->).
    by do 3 eexists.
Qed.

End Imports.

Lemma child_exports_are_imported_witness :
  exists t',
    importChild (nodes demo_chain_started !!! 1)
      {| edge_name := "b"; edge_def := 7; edge_scopeId := None; edge_transitive := None |}
      no_tables = Ok t'
    /\ obj_get "g" (pm_get (exportedProviders (nodes demo_chain_started !!! 1)) decorator)
       = Some (VNum 1)
    /\ obj_get "g" (pm_get (t_local t') decorator) = Some (VNum 1).
Proof.
  destruct (importChild (nodes demo_chain_started !!! 1)
              {| edge_name := "b"; edge_def := 7; edge_scopeId := None;
                 edge_transitive := None |} no_tables) as [t'|err|] eqn:H.
  - exists t'. split; [reflexivity|]. split; [reflexivity|].
    exact (child_exports_are_imported _ _ no_tables t' decorator "g" (VNum 1) H
             (or_introl eq_refl)).
  - vm_compute in H. discriminate.
  - vm_compute in H. discriminate.
Defined.

Lemma same_key_from_two_children_collides_witness :
  exists t1,
    importChild (nodes demo_chain_started !!! 1)
      {| edge_name := "b"; edge_def := 7; edge_scopeId := None; edge_transitive := None |}
      no_tables = Ok t1
    /\ has "g" (pm_get (exportedProviders (nodes demo_chain_started !!! 1)) decorator) = true
    /\ has "g" (pm_get (exportedProviders (nodes demo_chain_started !!! 0)) decorator) = true
    /\ exists K' k' o,
         importChild (nodes demo_chain_started !!! 0)
           {| edge_name := "c"; edge_def := 4; edge_scopeId := None; edge_transitive := None |}
           t1 = Throw (ImportCollision K' k' o).
Proof.
  destruct (importChild (nodes demo_chain_started !!! 1)
              {| edge_name := "b"; edge_def := 7; edge_scopeId := None;
                 edge_transitive := None |} no_tables) as [t1|err|] eqn:H.
  - exists t1. split; [reflexivity|]. split; [reflexivity|]. split; [reflexivity|].
    exact (same_key_from_two_children_collides _ _ (nodes demo_chain_started !!! 0)
             {| edge_name := "c"; edge_def := 4; edge_scopeId := None;
                edge_transitive := None |}
             no_tables t1 decorator "g" H eq_refl eq_refl).
  - vm_compute in H. discriminate.
  - vm_compute in H. discriminate.
Defined.

(* ====================================================================== *)
(** ** Lifecycle: what runs, and when *)
(* ====================================================================== *)

Section Running.
Context {W : Type}.
Variable call : nat -> Value -> W -> Result Value * W.
Variable await : Value -> W -> Result Value * W.

(** X20.  The flattened context: every decorator is a property of the
    context under its own key, except that the two properties [decorator]
    and [store] always are the decorator map and the store map, so a
    decorator named "store" is reachable only as [context.decorator.store]. *)
Theorem flat_context_lookup p k :
  context_field k (merged_context p)
  = if String.eqb k "store" then Some (VObj (of_store p))
    else if String.eqb k "decorator" then Some (VObj (of_decorator p))
    else obj_get k (of_decorator p).
Proof.
  unfold context_field, merged_context.
  destruct (String.eqb_spec k "store") as [->|Hs].
  - by rewrite obj_get_set_eq.
  - rewrite obj_get_set_ne //.
    destruct (String.eqb_spec k "decorator") as [->|Hd].
    + by rewrite obj_get_set_eq.
    + by rewrite obj_get_set_ne.
Qed.

(** X21.  A node is initialised once: after [#initModule] has returned
    for a node, the node is marked initialised and a second call returns
    at once, leaving the machine as it is. *)
Theorem initModule_runs_once (n : NodeRef) (m : Machine W) m' :
  n < length (nodes m) ->
  initModule call n m = (Ok tt, m') ->
  initialized (nodes m' !!! n) = true
  /\ initModule call n m' = (Ok tt, m').
Proof.
  intros Hlt H.
  assert (Hinit : initialized (nodes m' !!! n) = true).
  { revert H. unfold initModule. cbv zeta.
    destruct (initialized (nodes m !!! n)) eqn:Hi.
    { intros H. inversion H; subst. done. }
    destruct (importChildren _ _ _ _) as [t1| |]; [|done|done].
    destruct (applyEntries call _ _ t1 m) as [[t2| |] m1] eqn:Ha; [|done|done].
    apply applyEntries_frame in Ha as [_ Hn].
    intros H. inversion H; subst; clear H. cbn [nodes set_nodes].
    rewrite list_lookup_total_insert_eq; [by rewrite Hn|]. done. }
  split; [done|]. unfold initModule. by rewrite Hinit.
Qed.

Lemma ran_in_order_snoc ctx before cb v (w w1 w2 : W) :
  ran_in_order call await ctx before w w1 ->
  settle call await cb ctx w1 = (Ok v, w2) ->
  ran_in_order call await ctx (before ++ [cb]) w w2.
Proof.
  induction 1 as [w|cb0 cbs w v0 w0 w' Hs Hr IH]; intros Hc; simpl.
  - econstructor; [exact Hc|constructor].
  - econstructor; [exact Hs|by apply IH].
Qed.

(** The loop over the callbacks of one node, from any point of it. *)
Lemma run_callbacks_spec ev node cbs (m : Machine W) r m' :
  run_callbacks call await ev node cbs m = (r, m') ->
  match r with
  | Ok _ =>
      ran_in_order call await (callbackCtx (nodes m !!! node)) cbs (world m) (world m')
      /\ journal m' = journal m ++ map (ev node) cbs
  | _ =>
      exists before cb after w rv,
        cbs = before ++ cb :: after
        /\ ran_in_order call await (callbackCtx (nodes m !!! node)) before (world m) w
        /\ settle call await cb (callbackCtx (nodes m !!! node)) w = (rv, world m')
        /\ match r, rv with
           | Throw e, Throw e' => e = e'
           | Unmodelled, Unmodelled => True
           | _, _ => False
           end
        /\ journal m' = journal m ++ map (ev node) (before ++ [cb])
  end.
Proof.
  revert m. induction cbs as [|cb cbs IH]; intros m H; simpl in H.
  - inversion H; subst. split; [constructor|by rewrite app_nil_r].
  - set (ctx := callbackCtx (nodes m !!! node)) in *.
    destruct (call cb ctx (world m)) as [rv w1] eqn:Hc.
    assert (Hstop : forall rv', settle call await cb ctx (world m) = (rv', world m') ->
              journal m' = journal m ++ [ev node cb] ->
              match r, rv' with
              | Throw e, Throw e' => e = e'
              | Unmodelled, Unmodelled => True
              | _, _ => False
              end ->
              exists before cb0 after w rv0,
                cb :: cbs = before ++ cb0 :: after
                /\ ran_in_order call await ctx before (world m) w
                /\ settle call await cb0 ctx w = (rv0, world m')
                /\ match r, rv0 with
                   | Throw e, Throw e' => e = e'
                   | Unmodelled, Unmodelled => True
                   | _, _ => False
                   end
                /\ journal m' = journal m ++ map (ev node) (before ++ [cb0])).
    { intros rv' Hs Hj Hm. exists [], cb, cbs, (world m), rv'.
      split_and!; auto. constructor. }
    destruct rv as [v|err|].
    2:{ inversion H; subst. apply (Hstop (Throw err)); auto.
        unfold settle. by rewrite Hc. }
    2:{ inversion H; subst. apply (Hstop Unmodelled); auto.
        unfold settle. by rewrite Hc. }
    cbn [world set_journal set_world] in H.
    destruct (await v w1) as [r2 w2] eqn:Hw.
    assert (Hsettle : settle call await cb ctx (world m) = (r2, w2)).
    { unfold settle. by rewrite Hc. }
    destruct r2 as [v2|err|].
    2:{ inversion H; subst. apply (Hstop (Throw err)); auto. }
    2:{ inversion H; subst. apply (Hstop Unmodelled); auto. }
    apply IH in H. cbn [nodes set_world set_journal world journal] in H.
    fold ctx in H.
    destruct r as [u|e|].
    + destruct H as [Hr Hj]. split.
      * econstructor; [exact Hsettle|exact Hr].
      * rewrite Hj. simpl. by rewrite -app_assoc.
    + destruct H as (before & cb0 & after & w & rv0 & -> & Hr & Hs & Hm & Hj).
      exists (cb :: before), cb0, after, w, rv0. split_and!; auto.
      * econstructor; [exact Hsettle|exact Hr].
      * rewrite Hj. simpl. by rewrite -app_assoc.
    + destruct H as (before & cb0 & after & w & rv0 & -> & Hr & Hs & Hm & Hj).
      exists (cb :: before), cb0, after, w, rv0. split_and!; auto.
      * econstructor; [exact Hsettle|exact Hr].
      * rewrite Hj. simpl. by rewrite -app_assoc.
Qed.

(** X22.  The callbacks of a node run in the order of their
    registration, each one called with the callback context of the node
    and awaited before the next.  When all return, every one has run.
    When one throws, in the call or in the [await], the loop throws that
    error at once: the world is as that callback left it, and the
    callbacks after it have not run. *)
Theorem callbacks_run_in_order_until_one_throws ev node cbs (m : Machine W) r m' :
  run_callbacks call await ev node cbs m = (r, m') ->
  match r with
  | Ok _ =>
      ran_in_order call await (callbackCtx (nodes m !!! node)) cbs (world m) (world m')
      /\ journal m' = journal m ++ map (ev node) cbs
  | _ =>
      exists before cb after w rv,
        cbs = before ++ cb :: after
        /\ ran_in_order call await (callbackCtx (nodes m !!! node)) before (world m) w
        /\ settle call await cb (callbackCtx (nodes m !!! node)) w = (rv, world m')
        /\ match r, rv with
           | Throw e, Throw e' => e = e'
           | Unmodelled, Unmodelled => True
           | _, _ => False
           end
        /\ journal m' = journal m ++ map (ev node) (before ++ [cb])
  end.
Proof. apply run_callbacks_spec. Qed.









(** X24.  [start] on an instance that is running does nothing: a second
    [start] after a successful one returns the instance and leaves the
    machine, journal included, as it is. *)
Theorem second_start_is_a_no_op fuel fuel' this (m : Machine W) m' :
  this < length (insts m) ->
  lifecycle_ok this m ->
  start call await fuel this m = Some (Ok this, m') ->
  start call await fuel' this m' = Some (Ok this, m').
Proof.
  intros Hlt Hok H.
  destruct (start_ok_running _ _ _ _ _ _ Hlt Hok H) as [Hr _].
  unfold start. by rewrite Hr.
Qed.

(** X25.  [stop] on an instance that is not running does nothing: a
    second [stop], after one that returned or threw, returns and leaves
    the machine as it is. *)
Theorem second_stop_is_a_no_op fuel fuel' this (m : Machine W) r m' :
  lifecycle_ok this m ->
  stop call await fuel this m = Some (r, m') ->
  stop call await fuel' this m' = Some (Ok tt, m').
Proof.
  intros Hok H. pose proof (stop_not_running _ _ _ _ _ _ _ Hok H) as Hr.
  unfold isRunning in Hr. unfold stop. by rewrite Hr.
Qed.

(** X26.  A module that uses no other module and whose first own entry is
    in append mode under a name inherited from [Object.prototype] (such
    as "toString" or "constructor") cannot be started: the builder accepts
    the declaration, and [start] throws the collision error before any
    user function runs, leaving the instance not running. *)
Theorem inherited_key_makes_start_throw fuel this (m : Machine W) e rest :
  running (insts m !!! this) = false ->
  uses (def_of this m) = [] ->
  providers (def_of this m) = e :: rest ->
  mode_of e = append ->
  inherited (key e) = true ->
  1 <= fuel ->
  exists m',
    start call await fuel this m = Some (Throw (OwnCollision (kind e) (key e) None), m')
    /\ isRunning this m' = false
    /\ world m' = world m /\ journal m' = journal m.
Proof.
  intros Hrun Hu Hp Hmd Hin Hfuel.
  assert (Hch : chain (defs m) [def (insts m !!! this)]) by (by apply chain_leaf).
  destruct (start_chain call await fuel this m _ Hch eq_refl Hrun Hfuel)
    as (new & r2 & m2 & Hfr & Hlen & _ & Hl & Hs).
  destruct Hfr as [[Hlt [nm Hn]] _]. simpl in Hlt, Hn, Hl.
  rewrite Nat.add_0_r in Hlt Hn Hl.
  set (M1 := set_lifecycle this (Some (length (nodes m) + 1 - 1)) true
               (set_nodes (set_symbols m (S (symbols m))) (nodes m ++ new))) in *.
  assert (Hi : initModule call (length (nodes m)) M1
               = (Throw (OwnCollision (kind e) (key e) None), M1)).
  { unfold initModule. cbv zeta.
    change (nodes M1) with (nodes m ++ new). rewrite Hn.
    cbn [initialized fresh_node ctx_def children ctx_name ctx_providers
         exportedProviders propagatedProviders providerOrigins importChildren].
    change (defs M1) with (defs m). fold (def_of this m). rewrite Hp.
    cbn [applyEntries].
    rewrite (applyEntry_collision call e nm _ M1 Hmd (or_intror Hin)). done. }
  rewrite Hi in Hl. inversion Hl; subst r2 m2; clear Hl.
  eexists. split; [exact Hs|].
  destruct (context_after_reset this M1) as [_ Hr]. split; [exact Hr|]. done.
Qed.

End Running.

Lemma initModule_runs_once_witness :
  0 < length (nodes demo_fresh_node_machine)
  /\ exists m',
       initModule demo_call 0 demo_fresh_node_machine = (Ok tt, m')
       /\ initialized (nodes m' !!! 0) = true
       /\ initModule demo_call 0 m' = (Ok tt, m').
Proof.
  assert (Hlt : 0 < length (nodes demo_fresh_node_machine)) by (vm_compute; lia).
  split; [exact Hlt|].
  destruct (initModule demo_call 0 demo_fresh_node_machine) as [[[]|err|] m'] eqn:H.
  - exists m'. split; [reflexivity|].
    exact (initModule_runs_once demo_call 0 demo_fresh_node_machine m' Hlt H).
  - vm_compute in H. discriminate.
  - vm_compute in H. discriminate.
Defined.

Lemma callbacks_run_in_order_until_one_throws_witness :
  exists r m',
    run_callbacks demo_call demo_await EvLoad 0 [1; 9; 2] (boot 0) = (r, m')
    /\ r = Throw (Thrown (VStr "boom"))
    /\ match r with
       | Ok _ =>
           ran_in_order demo_call demo_await VNull [1; 9; 2] 0 (world m')
           /\ journal m' = map (EvLoad 0) [1; 9; 2]
       | _ =>
           exists before cb after w rv,
             [1; 9; 2] = before ++ cb :: after
             /\ ran_in_order demo_call demo_await VNull before 0 w
             /\ settle demo_call demo_await cb VNull w = (rv, world m')
             /\ match r, rv with
                | Throw e, Throw e' => e = e'
                | Unmodelled, Unmodelled => True
                | _, _ => False
                end
             /\ journal m' = map (EvLoad 0) (before ++ [cb])
       end.
Proof.
  destruct (run_callbacks demo_call demo_await EvLoad 0 [1; 9; 2] (boot 0))
    as [r m'] eqn:H.
  exists r, m'. split; [reflexivity|]. split.
  - vm_compute in H. by inversion H.
  - exact (callbacks_run_in_order_until_one_throws demo_call demo_await EvLoad 0
             [1; 9; 2] (boot 0) r m' H).
Defined.


Lemma second_start_is_a_no_op_witness :
  demo_root < length (insts demo_machine)
  /\ lifecycle_ok demo_root demo_machine
  /\ start demo_call demo_await 10 demo_root demo_machine = Some (Ok demo_root, demo_started)
  /\ start demo_call demo_await 0 demo_root demo_started = Some (Ok demo_root, demo_started).
Proof.
  assert (H1 : demo_root < length (insts demo_machine)) by (vm_compute; lia).
  assert (H2 : lifecycle_ok demo_root demo_machine)
    by (intros H; vm_compute in H; discriminate).
  assert (H3 : start demo_call demo_await 10 demo_root demo_machine
               = Some (Ok demo_root, demo_started)) by (vm_compute; reflexivity).
  split; [exact H1|]. split; [exact H2|]. split; [exact H3|].
  exact (second_start_is_a_no_op demo_call demo_await 10 0 demo_root demo_machine
           demo_started H1 H2 H3).
Defined.

Lemma second_stop_is_a_no_op_witness :
  lifecycle_ok demo_root demo_started
  /\ exists r m',
       stop demo_call demo_await 10 demo_root demo_started = Some (r, m')
       /\ stop demo_call demo_await 0 demo_root m' = Some (Ok tt, m').
Proof.
  assert (H1 : lifecycle_ok demo_root demo_started) by (intros _; vm_compute; eauto).
  split; [exact H1|].
  destruct (stop demo_call demo_await 10 demo_root demo_started) as [[r m']|] eqn:H.
  - exists r, m'. split; [reflexivity|].
    exact (second_stop_is_a_no_op demo_call demo_await 10 0 demo_root demo_started
             r m' H1 H).
  - vm_compute in H. discriminate.
Defined.

Lemma inherited_key_makes_start_throw_witness :
  running (insts demo_inherited.2 !!! demo_inherited.1) = false
  /\ uses (def_of demo_inherited.1 demo_inherited.2) = []
  /\ providers (def_of demo_inherited.1 demo_inherited.2)
     = [declared_entry decorator "toString" (VNum 1) local append false]
  /\ exists m',
       start demo_call demo_await 1 demo_inherited.1 demo_inherited.2
       = Some (Throw (OwnCollision decorator "toString" None), m')
       /\ isRunning demo_inherited.1 m' = false
       /\ world m' = world demo_inherited.2 /\ journal m' = journal demo_inherited.2.
Proof.
  split; [reflexivity|]. split; [reflexivity|]. split; [reflexivity|].
  exact (inherited_key_makes_start_throw demo_call demo_await 1 demo_inherited.1
           demo_inherited.2 (declared_entry decorator "toString" (VNum 1) local append false)
           [] eq_refl eq_refl eq_refl eq_refl eq_refl (le_n 1)).
Defined.

(* ====================================================================== *)
(** ** The tree builder and the traversal: general facts *)
(* ====================================================================== *)

Section MapState.
Context {A B S : Type}.

Lemma map_st_invariant (P : S -> S -> Prop) (f : A -> S -> option (B * S)) xs :
  (forall st, P st st) ->
  (forall s1 s2 s3, P s1 s2 -> P s2 s3 -> P s1 s3) ->
  (forall x st y st', x ∈ xs -> f x st = Some (y, st') -> P st st') ->
  forall st ys st', map_st f xs st = Some (ys, st') -> P st st'.
Proof.
  intros Hrefl Htrans. induction xs as [|x xs IH]; intros Hf st ys st' H; simpl in H.
  - inversion H; subst. apply Hrefl.
  - destruct (f x st) as [[y st1]|] eqn:Hfx; [|done].
    destruct (map_st f xs st1) as [[ys' st2]|] eqn:Hm; [|done].
    inversion H; subst; clear H.
    eapply Htrans; [eapply Hf; [left|exact Hfx]|].
    eapply IH; [|exact Hm]. intros x' s y' s' Hin. apply Hf. by right.
Qed.

End MapState.

Lemma cache_get_set_ne d s d' s' n c :
  (d, s) <> (d', s') -> cache_get d s (cache_set d' s' n c) = cache_get d s c.
Proof.
  intros Hne.
  assert (Hf : Nat.eqb d d' && scope_eqb s s' = false).
  { destruct (Nat.eqb_spec d d'), (scope_eqb_spec s s'); try done. congruence. }
  induction c as [|[[d2 s2] n2] c IH]; simpl.
  - by rewrite Hf.
  - destruct (Nat.eqb d' d2 && scope_eqb s' s2) eqn:E2; simpl.
    + apply andb_true_iff in E2 as [Ed Es].
      apply Nat.eqb_eq in Ed. destruct (scope_eqb_spec s' s2) as [->|]; [|done]. subst d2.
      by rewrite Hf.
    + by rewrite IH.
Qed.

(** The builder appends fresh nodes to the heap and keeps the cache
    within the heap. *)
Lemma buildTree_appends fuel dh :
  forall nm d s c h n c' h',
    buildTree fuel dh nm d s (c, h) = Some (n, (c', h')) ->
    (exists new, h' = h ++ new /\ Forall is_fresh_node new)
    /\ (cache_in_heap c h -> cache_in_heap c' h' /\ n < length h').
Proof.
  induction fuel as [|fuel IH]; intros nm d s c h n c' h' H; [done|].
  simpl in H. destruct (cache_get d s c) as [ex|] eqn:Hc.
  { inversion H; subst. split.
    - exists []. by rewrite app_nil_r.
    - intros Hin. split; [done|]. by eapply Hin. }
  destruct (map_st _ _ (c, h)) as [[cs [c1 h1]]|] eqn:Hm; [|done].
  inversion H; subst; clear H.
  pose (P := fun (s1 s2 : Cache * list ModuleRuntimeContext) =>
               (exists new, s2.2 = s1.2 ++ new /\ Forall is_fresh_node new)
               /\ (cache_in_heap s1.1 s1.2 -> cache_in_heap s2.1 s2.2)).
  assert (HP : P (c, h) (c1, h1)).
  { eapply (map_st_invariant P); [| | |exact Hm].
    - intros st. split; [exists []; by rewrite app_nil_r|done].
    - intros s1 s2 s3 [(n1 & E1 & F1) I1] [(n2 & E2 & F2) I2]. split; [|auto].
      exists (n1 ++ n2). rewrite E2 E1 app_assoc. split; [done|]. by apply Forall_app.
    - intros u [c0 h0] y [c2 h2] _ Hu. apply IH in Hu as [Ha Hb].
      split; [done|]. intros Hin. by apply Hb. }
  destruct HP as [(new & E & F) Hin]. cbn [fst snd] in *. split.
  - exists (new ++ [fresh_node nm d cs]). rewrite E app_assoc. split; [done|].
    apply Forall_app. split; [done|]. constructor; [|done]. by do 3 eexists.
  - intros Hc0. specialize (Hin Hc0). split; [|rewrite length_app; simpl; lia].
    intros d' s' n' Hg. rewrite length_app. simpl.
    destruct (Nat.eqb_spec d' d) as [->|Hd]; [destruct (scope_eqb_spec s' s) as [->|Hs]|].
    + rewrite cache_get_set_eq in Hg. inversion Hg. lia.
    + rewrite cache_get_set_ne in Hg; [congruence|]. apply Hin in Hg. lia.
    + rewrite cache_get_set_ne in Hg; [congruence|]. apply Hin in Hg. lia.
Qed.

(** X27.  The builder memoises by definition and scope identity: once it
    has returned a node for a pair, asking again for the same pair, under
    any name and with any fuel, returns the same node and changes neither
    the cache nor the heap. *)
Theorem buildTree_returns_the_cached_node_again fuel dh nm d s st n st' :
  buildTree fuel dh nm d s st = Some (n, st') ->
  forall fuel' nm', 0 < fuel' -> buildTree fuel' dh nm' d s st' = Some (n, st').
Proof.
  intros H fuel' nm' Hf. destruct st' as [c' h'].
  apply buildTree_cached in H.
  destruct fuel' as [|fuel']; [lia|]. simpl. by rewrite H.
Qed.

(** X28.  The builder only appends to the node heap: the nodes that
    existed keep their addresses and contents, every new node is
    uninitialised with empty provider maps, and when the cache names only
    nodes of the heap, so does the new cache, and the returned node is in
    the heap. *)
Theorem buildTree_only_appends_fresh_nodes fuel dh nm d s c h n c' h' :
  buildTree fuel dh nm d s (c, h) = Some (n, (c', h')) ->
  (exists new, h' = h ++ new /\ Forall is_fresh_node new)
  /\ (forall k, k < length h -> h' !!! k = h !!! k)
  /\ (cache_in_heap c h -> cache_in_heap c' h' /\ n < length h').
Proof.
  intros H. apply buildTree_appends in H as [(new & -> & F) Hc].
  split_and!; eauto.
  intros k Hk. by rewrite lookup_total_app_l.
Qed.

Lemma buildTree_self_edge_diverges dh d s e rest :
  uses (dh !!! d) = e :: rest -> edge_def e = d -> edge_scope e = s ->
  forall fuel nm st, cache_get d s st.1 = None -> buildTree fuel dh nm d s st = None.
Proof.
  intros Hu Hd Hs. induction fuel as [|fuel IH]; intros nm st Hc; [done|].
  simpl. rewrite Hc Hu. cbn [map_st]. rewrite Hd Hs. by rewrite IH.
Qed.

(** X29.  A definition whose first edge points to itself cannot be
    instantiated: whatever the fuel, the builder does not return and
    [start] produces no result.  (Such a definition cannot come out of the
    builder methods; the public constructor accepts it.) *)
Theorem self_use_never_starts {W} (call : nat -> Value -> W -> Result Value * W)
    (await : Value -> W -> Result Value * W) this (m : Machine W) e rest :
  running (insts m !!! this) = false ->
  uses (def_of this m) = e :: rest ->
  edge_def e = def (insts m !!! this) ->
  forall fuel, start call await fuel this m = None.
Proof.
  intros Hrun Hu Hd fuel. unfold start. rewrite Hrun. cbn [defs set_symbols nodes].
  assert (Hb : buildTree fuel (defs m) (name (insts m !!! this)) (def (insts m !!! this))
                 (IdSym (SymFresh (symbols m))) ([], nodes m) = None).
  { destruct fuel as [|fuel]; [done|]. simpl. fold (def_of this m). rewrite Hu.
    cbn [map_st]. rewrite Hd.
    rewrite (buildTree_self_edge_diverges (defs m) (def (insts m !!! this))
               (edge_scope e) e rest Hu Hd eq_refl); done. }
  by rewrite Hb.
Qed.

Lemma existsb_eqb_false n (l : list nat) : existsb (Nat.eqb n) l = false <-> n ∉ l.
Proof.
  split.
  - intros H Hin. apply not_true_iff_false in H. apply H.
    apply existsb_exists. exists n. split; [by apply list_elem_of_In|apply Nat.eqb_refl].
  - intros Hn. apply not_true_iff_false. intros H.
    apply existsb_exists in H as (x & Hin & Hx). apply Nat.eqb_eq in Hx. subst x.
    by apply Hn, list_elem_of_In.
Qed.

Lemma visit_adds_nothing heap st : visit_adds heap st st [] [].
Proof.
  split_and!; try done.
  - by rewrite app_nil_r.
  - constructor.
  - intros x Hx. by apply elem_of_nil in Hx.
  - intros x c Hx. by apply elem_of_nil in Hx.
Qed.

Lemma visit_adds_trans heap s1 s2 s3 nv1 no1 nv2 no2 :
  visit_adds heap s1 s2 nv1 no1 -> visit_adds heap s2 s3 nv2 no2 ->
  visit_adds heap s1 s3 (nv2 ++ nv1) (no1 ++ no2).
Proof.
  intros (V1 & O1 & P1 & N1 & D1 & C1) (V2 & O2 & P2 & N2 & D2 & C2).
  split_and!.
  - by rewrite V2 V1 app_assoc.
  - by rewrite O2 O1 app_assoc.
  - rewrite P1 P2. apply Permutation_app_comm.
  - apply NoDup_app. split_and!; [done| |done].
    intros x Hx Hx1. apply (D2 x Hx). rewrite V1. apply elem_of_app. by left.
  - intros x Hx Hin. apply elem_of_app in Hx as [Hx|Hx].
    + apply (D2 x Hx). rewrite V1. apply elem_of_app. by right.
    + by apply (D1 x Hx).
  - intros x c Hx Hc. apply elem_of_app in Hx as [Hx|Hx].
    + by apply (C2 x c).
    + rewrite V2. apply elem_of_app. right. by apply (C1 x c).
Qed.

Lemma each_visit_adds heap (f : NodeRef -> list NodeRef * list NodeRef
                                  -> option (list NodeRef * list NodeRef)) cs :
  (forall c st st', f c st = Some st' ->
     exists nv no, visit_adds heap st st' nv no /\ c ∈ st'.1) ->
  forall st st', each_st f cs st = Some st' ->
    exists nv no, visit_adds heap st st' nv no /\ (forall c, c ∈ cs -> c ∈ st'.1).
Proof.
  intros Hf. induction cs as [|c cs IH]; intros st st' H; simpl in H.
  - inversion H; subst. exists [], []. split; [apply visit_adds_nothing|].
    intros c Hc. by apply elem_of_nil in Hc.
  - destruct (f c st) as [st1|] eqn:Hc; [|done].
    destruct (Hf _ _ _ Hc) as (nv1 & no1 & A1 & In1).
    destruct (IH _ _ H) as (nv2 & no2 & A2 & In2).
    exists (nv2 ++ nv1), (no1 ++ no2). split; [by eapply visit_adds_trans|].
    intros x Hx. apply elem_of_cons in Hx as [->|Hx]; [|by apply In2].
    destruct A2 as (V2 & _). rewrite V2. apply elem_of_app. by right.
Qed.

Lemma visit_spec heap fuel :
  forall n st st', visit fuel heap n st = Some st' ->
    exists nv no, visit_adds heap st st' nv no /\ n ∈ st'.1
                  /\ (n ∈ st.1 /\ no = [] \/ exists no', no = no' ++ [n]).
Proof.
  induction fuel as [|fuel IH]; intros n [vis ord] st' H; [done|].
  simpl in H. destruct (existsb (Nat.eqb n) vis) eqn:Hex.
  { inversion H; subst. exists [], []. split; [apply visit_adds_nothing|].
    assert (Hin : n ∈ vis).
    { apply existsb_exists in Hex as (x & Hin & Hx). apply Nat.eqb_eq in Hx. subst x.
      by apply list_elem_of_In. }
    split; [done|]. by left. }
  apply existsb_eqb_false in Hex.
  destruct (each_st (visit fuel heap) (children (heap !!! n)) (n :: vis, ord))
    as [[v1 o1]|] eqn:He; [|done].
  inversion H; subst; clear H.
  assert (Hf : forall c st st', visit fuel heap c st = Some st' ->
             exists nv no, visit_adds heap st st' nv no /\ c ∈ st'.1).
  { intros c st st'' Hc. destruct (IH _ _ _ Hc) as (nv & no & A & I & _).
    by exists nv, no. }
  destruct (each_visit_adds heap (visit fuel heap) (children (heap !!! n)) Hf _ _ He)
    as (nv & no & (V & O & P & N & D & C) & Hcs).
  cbn [fst snd] in *.
  exists (nv ++ [n]), (no ++ [n]). split; [|split].
  - split_and!; cbn [fst snd].
    + by rewrite V -app_assoc.
    + by rewrite O -app_assoc.
    + by rewrite P.
    + apply NoDup_app. split_and!; [done| |apply NoDup_singleton].
      intros x Hx Hx'. apply list_elem_of_singleton in Hx'. subst x.
      apply (D n Hx). by left.
    + intros x Hx Hin. apply elem_of_app in Hx as [Hx|Hx].
      * apply (D x Hx). by right.
      * apply list_elem_of_singleton in Hx. by subst x.
    + intros x c Hx Hc. apply elem_of_app in Hx as [Hx|Hx].
      * by apply (C x c).
      * apply list_elem_of_singleton in Hx. subst x. by apply Hcs.
  - cbn [fst]. rewrite V. apply elem_of_app. right. by left.
  - right. by exists no.
Qed.

Lemma lifecycleOrder_spec fuel heap root order :
  lifecycleOrder fuel heap root = Some order ->
  NoDup order
  /\ last order = Some root
  /\ (forall x c, x ∈ order -> c ∈ children (heap !!! x) -> c ∈ order).
Proof.
  unfold lifecycleOrder. intros H.
  destruct (visit fuel heap root ([], [])) as [[vis ord]|] eqn:Hv; [|done].
  inversion H; subst ord; clear H.
  destruct (visit_spec _ _ _ _ _ Hv) as (nv & no & (V & O & P & N & D & C) & Hin & Hlast).
  cbn [fst snd] in *. rewrite app_nil_r in V. rewrite app_nil_l in O. subst vis order.
  split_and!.
  - by rewrite -P.
  - destruct Hlast as [[Hnil _]|[no' ->]]; [by apply elem_of_nil in Hnil|].
    by rewrite last_snoc.
  - intros x c Hx Hc. rewrite -P. apply (C x c); [by rewrite P|done].
Qed.

(** X30.  The lifecycle order lists every node once, ends with the root,
    and is closed under children: each child of a listed node is listed
    too.  So every node reachable from the root is loaded exactly once and
    the root is loaded last. *)
Theorem lifecycle_order_lists_each_node_once fuel heap root order :
  lifecycleOrder fuel heap root = Some order ->
  NoDup order
  /\ last order = Some root
  /\ (forall x c, x ∈ order -> c ∈ children (heap !!! x) -> c ∈ order).
Proof. apply lifecycleOrder_spec. Qed.

Lemma buildTree_returns_the_cached_node_again_witness :
  exists n st',
    buildTree 3 (defs demo_chain.2) "a" 11 (IdSym (SymFresh 0)) ([], []) = Some (n, st')
    /\ buildTree 1 (defs demo_chain.2) "again" 11 (IdSym (SymFresh 0)) st' = Some (n, st').
Proof.
  destruct (buildTree 3 (defs demo_chain.2) "a" 11 (IdSym (SymFresh 0)) ([], []))
    as [[n st']|] eqn:H.
  - exists n, st'. split; [reflexivity|].
    exact (buildTree_returns_the_cached_node_again 3 (defs demo_chain.2) "a" 11
             (IdSym (SymFresh 0)) ([], []) n st' H 1 "again" (le_n 1)).
  - vm_compute in H. discriminate.
Defined.

Lemma buildTree_only_appends_fresh_nodes_witness :
  exists n c' h',
    buildTree 3 (defs demo_chain.2) "a" 11 (IdSym (SymFresh 7)) ([], nodes demo_chain_started)
    = Some (n, (c', h'))
    /\ (exists new, h' = nodes demo_chain_started ++ new /\ Forall is_fresh_node new)
    /\ (forall k, k < length (nodes demo_chain_started) ->
                  h' !!! k = nodes demo_chain_started !!! k).
Proof.
  destruct (buildTree 3 (defs demo_chain.2) "a" 11 (IdSym (SymFresh 7))
              ([], nodes demo_chain_started)) as [[n [c' h']]|] eqn:H.
  - exists n, c', h'. split; [reflexivity|].
    destruct (buildTree_only_appends_fresh_nodes 3 (defs demo_chain.2) "a" 11
                (IdSym (SymFresh 7)) [] (nodes demo_chain_started) n c' h' H)
      as (Ha & Hb & _).
    exact (conj Ha Hb).
  - vm_compute in H. discriminate.
Defined.

Lemma self_use_never_starts_witness :
  running (insts demo_self_use !!! 0) = false
  /\ (exists e rest, uses (def_of 0 demo_self_use) = e :: rest
                     /\ edge_def e = def (insts demo_self_use !!! 0))
  /\ forall fuel, start demo_call demo_await fuel 0 demo_self_use = None.
Proof.
  split; [reflexivity|]. split; [do 2 eexists; split; reflexivity|].
  exact (self_use_never_starts demo_call demo_await 0 demo_self_use
           {| edge_name := "a"; edge_def := 0; edge_scopeId := Some GLOBAL_SCOPE;
              edge_transitive := Some true |} [] eq_refl eq_refl eq_refl).
Defined.

Lemma lifecycle_order_lists_each_node_once_witness :
  exists order,
    lifecycleOrder 3 (nodes demo_chain_started) 2 = Some order
    /\ NoDup order /\ last order = Some 2
    /\ (forall x c, x ∈ order -> c ∈ children (nodes demo_chain_started !!! x) -> c ∈ order).
Proof.
  destruct (lifecycleOrder 3 (nodes demo_chain_started) 2) as [order|] eqn:H.
  - exists order. split; [reflexivity|].
    exact (lifecycle_order_lists_each_node_once 3 (nodes demo_chain_started) 2 order H).
  - vm_compute in H. discriminate.
Defined.

(* ====================================================================== *)
(** ** The context of a running instance *)
(* ====================================================================== *)

Section Reachable.
Context {W : Type}.
Variable call : nat -> Value -> W -> Result Value * W.
Variable await : Value -> W -> Result Value * W.











End Reachable.

